(** * tree-sitter-systemrdl: the SystemRDL 2.0 grammar, embedded and verified

    The repository's program is [grammar.js], a grammar written in the
    tree-sitter DSL.  This development embeds

    - the regular expressions of the lexical rules ([number],
      [string_literal], [identifier], [comment], whitespace),
    - the grammar itself, rule by rule, as a value of type [rule], and
    - the meaning of the DSL combinators as a derivation relation together
      with an executable enumerator of all derivations, and
    - what the generated parser adds to the grammar and the sources do not
      hold -- the lexer, the choice among the derivations of an ambiguous
      text and the recovery from errors -- as the specification describes
      them,

    and proves the properties the specification states about them. *)

From Stdlib Require Import List String Ascii Bool Arith Lia.
Import ListNotations.
Open Scope string_scope.
Open Scope list_scope.

Set Implicit Arguments.

Infix "+++" := String.append (right associativity, at level 60).

(* ================================================================== *)
(** * Strings *)
(* ================================================================== *)

Module Str.

(** The first [n] characters of a string, and what follows them. *)
Fixpoint take (n : nat) (s : string) : string :=
  match n, s with
  | S n', String c s' => String c (take n' s')
  | _, _ => ""
  end.

Fixpoint drop (n : nat) (s : string) : string :=
  match n, s with
  | S n', String _ s' => drop n' s'
  | _, _ => s
  end.

(** Concatenation of a list of strings. *)
Definition cat (l : list string) : string := fold_right String.append "" l.

End Str.

(* ================================================================== *)
(** * Regular expressions of the lexical rules *)
(* ================================================================== *)

Module Regex.

(** A character class is a list of inclusive ranges, possibly negated:
    [[0-9a-fA-F]] is [Class false [("0","9");("a","f");("A","F")]] and
    [[^*]] is [Class true [("*","*")]]. *)
Inductive re : Type :=
| Void
| Eps
| Class (neg : bool) (ranges : list (ascii * ascii))
| Cat (a b : re)
| Alt (a b : re)
| Star (a : re).

Definition in_range (c : ascii) (r : ascii * ascii) : bool :=
  Nat.leb (nat_of_ascii (fst r)) (nat_of_ascii c) &&
  Nat.leb (nat_of_ascii c) (nat_of_ascii (snd r)).

Definition in_class (neg : bool) (ranges : list (ascii * ascii)) (c : ascii)
  : bool :=
  xorb neg (existsb (in_range c) ranges).

Definition Chr (c : ascii) : re := Class false [(c, c)].

(** A literal string: its characters in sequence. *)
Fixpoint Lit (s : string) : re :=
  match s with
  | "" => Eps
  | String c s' => Cat (Chr c) (Lit s')
  end.

Definition Opt (a : re) : re := Alt a Eps.
Definition Plus (a : re) : re := Cat a (Star a).

(** The strings a regular expression denotes. *)
Inductive lang : re -> string -> Prop :=
| L_eps : lang Eps ""
| L_class neg rs c :
    in_class neg rs c = true -> lang (Class neg rs) (String c "")
| L_cat a b s1 s2 :
    lang a s1 -> lang b s2 -> lang (Cat a b) (s1 +++ s2)
| L_alt_l a b s : lang a s -> lang (Alt a b) s
| L_alt_r a b s : lang b s -> lang (Alt a b) s
| L_star_nil a : lang (Star a) ""
| L_star_cons a s1 s2 :
    lang a s1 -> lang (Star a) s2 -> lang (Star a) (s1 +++ s2).

(** ** Matching by derivatives *)

Fixpoint nullable (r : re) : bool :=
  match r with
  | Void => false
  | Eps => true
  | Class _ _ => false
  | Cat a b => nullable a && nullable b
  | Alt a b => nullable a || nullable b
  | Star _ => true
  end.

Definition cat (a b : re) : re :=
  match a, b with
  | Void, _ => Void
  | _, Void => Void
  | Eps, _ => b
  | _, _ => Cat a b
  end.

Definition alt (a b : re) : re :=
  match a, b with
  | Void, _ => b
  | _, Void => a
  | _, _ => Alt a b
  end.

Fixpoint deriv (c : ascii) (r : re) : re :=
  match r with
  | Void | Eps => Void
  | Class neg rs => if in_class neg rs c then Eps else Void
  | Cat a b =>
      alt (cat (deriv c a) b) (if nullable a then deriv c b else Void)
  | Alt a b => alt (deriv c a) (deriv c b)
  | Star a => cat (deriv c a) (Star a)
  end.

Fixpoint matches (r : re) (s : string) : bool :=
  match s with
  | "" => nullable r
  | String c s' => matches (deriv c r) s'
  end.

(** Length of the longest prefix of [s] that [r] matches. *)
Fixpoint longest (r : re) (s : string) : option nat :=
  match s with
  | "" => if nullable r then Some 0 else None
  | String c s' =>
      match longest (deriv c r) s' with
      | Some n => Some (S n)
      | None => if nullable r then Some 0 else None
      end
  end.

End Regex.

(* ================================================================== *)
(** * The tree-sitter grammar DSL *)
(* ================================================================== *)

Set Warnings "-register-all".

(** The combinators [grammar.js] is written with.  [Str] is a string
    literal, [Pat] a regular-expression literal, [Sym] a reference
    [$.name]; the others are the DSL functions of the same name
    ([PrecLeft] is [prec.left] with its default precedence). *)
Inductive rule : Type :=
| Str (s : string)
| Pat (r : Regex.re)
| Sym (name : string)
| Seq (rs : list rule)
| Choice (rs : list rule)
| Repeat (r : rule)
| Repeat1 (r : rule)
| Optional (r : rule)
| Token (r : rule)
| Prec (level : nat) (r : rule)
| PrecLeft (r : rule)
| Field (name : string) (r : rule).

(** The object passed to [grammar(...)].  [rules] keeps the order of
    declaration: the first rule is the start rule. *)
Record grammar : Type := Grammar {
  name : string;
  extras : list rule;
  conflicts : list (list string);
  word : string;
  rules : list (string * rule)
}.

Module Chars.
Definition nl : ascii := "010"%char.          (* \n *)
Definition tab : ascii := "009"%char.         (* \t *)
Definition cr : ascii := "013"%char.          (* \r *)
Definition dquote : ascii := "034"%char.      (* the double quote *)
Definition bslash : ascii := "\"%char.
Definition one (c : ascii) : string := String c "".
End Chars.

(** ** The regular-expression literals of [grammar.js] *)

Module Patterns.
Import Regex Chars.

Definition hexdigit : re :=
  Class false [("0", "9"); ("a", "f"); ("A", "F")]%char.
Definition bindigit : re := Class false [("0", "1")]%char.
Definition octdigit : re := Class false [("0", "7")]%char.
Definition decdigit : re := Class false [("0", "9")]%char.

(** [d(_?d)*] *)
Definition digits (d : re) : re :=
  Cat d (Star (Cat (Opt (Chr "_")) d)).

Definition one_of (a b : ascii) : re := Class false [(a, a); (b, b)].

(** [/0[xX][0-9a-fA-F](_?[0-9a-fA-F])*|0[bB][01](_?[01])*|0[oO][0-7](_?[0-7])*|[0-9](_?[0-9])*/] *)
Definition number : re :=
  Alt (Cat (Chr "0") (Cat (one_of "x" "X") (digits hexdigit)))
 (Alt (Cat (Chr "0") (Cat (one_of "b" "B") (digits bindigit)))
 (Alt (Cat (Chr "0") (Cat (one_of "o" "O") (digits octdigit)))
      (digits decdigit))).

(** The class of [string_literal]: every character but the double
    quote, the backslash and the line feed. *)
Definition string_char : re :=
  Class true [(dquote, dquote); (bslash, bslash); (nl, nl)].

(** [/./]: every character but the line feed. *)
Definition dot : re := Class true [(nl, nl)].

(** [/[A-Za-z_][A-Za-z0-9_]*/] *)
Definition identifier : re :=
  Cat (Class false [("A", "Z"); ("a", "z"); ("_", "_")]%char)
      (Star (Class false [("A", "Z"); ("a", "z"); ("0", "9"); ("_", "_")]%char)).

(** [/[^\n]*/] *)
Definition line_rest : re := Star (Class true [(nl, nl)]).

(** [/[^*]*\*+(?:[^/*][^*]*\*+)*/] *)
Definition block_rest : re :=
  let not_star := Class true [("*", "*")]%char in
  let star := Chr "*" in
  Cat (Star not_star)
 (Cat (Plus star)
      (Star (Cat (Class true [("/", "/"); ("*", "*")]%char)
            (Cat (Star not_star) (Plus star))))).

(** [/\s+/]: space, and the characters from tab to carriage return. *)
Definition whitespace : re :=
  Plus (Class false [(tab, cr); (" ", " ")]%char).

End Patterns.

(** ** [grammar.js] *)

Module SystemRDL.
Import Chars.

Definition source_rules : list (string * rule) := [
  ("source_file", Repeat (Sym "_description"));

  ("_description", Choice [
     Sym "component_def";
     Sym "enum_def";
     Sym "property_definition";
     Sym "struct_def";
     Sym "constraint_def";
     Sym "explicit_component_inst";
     Sym "property_assignment" ]);

  (* User defined property declarations *)
  ("property_definition", Seq [
     Str "property";
     Field "name" (Sym "identifier");
     Str "{";
     Repeat (Sym "property_attribute");
     Str "}";
     Str ";" ]);
  ("property_attribute", Choice [
     Sym "property_type";
     Sym "property_usage";
     Sym "property_default";
     Sym "property_constraint" ]);
  ("property_type", Seq [
     Str "type"; Str "="; Sym "property_data_type";
     Optional (Sym "array_type"); Str ";" ]);
  ("property_data_type", Choice [
     Sym "component_primary_type";
     Str "ref";
     Sym "number";
     Sym "basic_data_type" ]);
  ("property_usage", Seq [
     Str "component"; Str "="; Sym "property_comp_types"; Str ";" ]);
  ("property_comp_types", Seq [
     Sym "property_comp_type";
     Repeat (Seq [Str "|"; Sym "property_comp_type"]) ]);
  ("property_comp_type", Choice [
     Sym "component_type";
     Str "constraint";
     Str "all" ]);
  ("property_default", Seq [
     Str "default"; Str "="; Sym "constant_expression"; Str ";" ]);
  ("property_constraint", Seq [
     Str "constraint"; Str "="; Sym "property_constraint_type"; Str ";" ]);
  ("property_constraint_type", Str "componentwidth");

  (* Component definition *)
  ("component_def", Seq [
     Optional (Sym "component_inst_type");
     Choice [Sym "component_named_def"; Sym "component_anon_def"];
     Optional (Sym "component_inst_type");
     Optional (Sym "component_insts");
     Str ";" ]);
  ("component_named_def", Seq [
     Sym "component_type";
     Field "name" (Sym "identifier");
     Optional (Sym "param_def");
     Sym "component_body" ]);
  ("component_anon_def", Seq [
     Sym "component_type";
     Sym "component_body" ]);
  ("component_body", Seq [
     Str "{";
     Repeat (Sym "component_body_elem");
     Str "}" ]);
  ("component_body_elem", Choice [
     Sym "component_def";
     Sym "enum_def";
     Sym "struct_def";
     Sym "constraint_def";
     Sym "explicit_component_inst";
     Sym "property_assignment" ]);
  ("component_type", Choice [
     Sym "component_primary_type";
     Str "signal" ]);
  ("component_primary_type", Choice [
     Str "addrmap"; Str "regfile"; Str "reg"; Str "field"; Str "mem" ]);
  ("explicit_component_inst", Seq [
     Optional (Sym "component_inst_type");
     Optional (Sym "component_inst_alias");
     Field "name" (Sym "identifier");
     Sym "component_insts";
     Str ";" ]);
  ("component_insts", Seq [
     Optional (Sym "param_inst");
     Sym "component_inst";
     Repeat (Seq [Str ","; Sym "component_inst"]) ]);
  ("component_inst", Seq [
     Field "instance" (Sym "identifier");
     Optional (Sym "component_inst_array_or_range");
     Optional (Seq [Str "="; Sym "constant_expression"]);
     Optional (Seq [Str "@"; Sym "constant_expression"]);
     Optional (Seq [Str "+="; Sym "constant_expression"]);
     Optional (Seq [Str "%="; Sym "constant_expression"]) ]);
  ("component_inst_alias", Seq [Str "alias"; Sym "identifier"]);
  ("component_inst_type", Choice [Str "external"; Str "internal"]);
  ("component_inst_array_or_range", Choice [
     Seq [Sym "array"; Repeat (Sym "array")];
     Sym "range" ]);

  (* Struct definition *)
  ("struct_def", Seq [
     Optional (Str "abstract");
     Str "struct";
     Field "name" (Sym "identifier");
     Optional (Seq [Str ":"; Sym "identifier"]);
     Sym "struct_body";
     Str ";" ]);
  ("struct_body", Seq [
     Str "{";
     Repeat (Sym "struct_elem");
     Str "}" ]);
  ("struct_elem", Seq [
     Sym "struct_type";
     Field "name" (Sym "identifier");
     Optional (Sym "array_type");
     Str ";" ]);
  ("struct_type", Choice [
     Sym "data_type";
     Sym "component_type" ]);

  (* Constraint definition *)
  ("constraint_def", Seq [
     Str "constraint";
     Choice [Sym "constraint_def_exp"; Sym "constraint_def_anon"];
     Str ";" ]);
  ("constraint_def_exp", Seq [
     Field "name" (Sym "identifier");
     Sym "constraint_body";
     Optional (Sym "constraint_insts") ]);
  ("constraint_def_anon", Seq [
     Sym "constraint_body";
     Sym "constraint_insts" ]);
  ("constraint_insts", Seq [
     Sym "identifier";
     Repeat (Seq [Str ","; Sym "identifier"]) ]);
  ("constraint_body", Seq [
     Str "{";
     Repeat (Seq [Sym "constraint_elem"; Str ";"]);
     Str "}" ]);
  ("constraint_prop_assignment", Seq [
     Sym "identifier"; Str "="; Sym "constant_expression" ]);
  ("constraint_elem", Choice [
     Sym "constant_expression";
     Sym "constraint_prop_assignment";
     Seq [Sym "constraint_lhs"; Str "inside"; Str "{";
          Sym "constraint_values"; Str "}"];
     Seq [Sym "constraint_lhs"; Str "inside"; Sym "identifier"] ]);
  ("constraint_values", Seq [
     Sym "constraint_value";
     Repeat (Seq [Str ","; Sym "constraint_value"]) ]);
  ("constraint_value", Choice [
     Sym "constant_expression";
     Seq [Str "["; Sym "constant_expression"; Str ":";
          Sym "constant_expression"; Str "]"] ]);
  ("constraint_lhs", Choice [
     Str "this";
     Sym "instance_ref" ]);

  (* Parameters *)
  ("param_def", Seq [
     Str "#"; Str "("; Sym "param_def_elem";
     Repeat (Seq [Str ","; Sym "param_def_elem"]); Str ")" ]);
  ("param_def_elem", Seq [
     Sym "data_type";
     Field "name" (Sym "identifier");
     Optional (Sym "array_type");
     Optional (Seq [Str "="; Sym "constant_expression"]) ]);
  ("param_inst", Seq [
     Str "#"; Str "("; Sym "param_elem";
     Repeat (Seq [Str ","; Sym "param_elem"]); Str ")" ]);
  ("param_elem", Seq [
     Str "."; Sym "identifier"; Str "("; Sym "param_value"; Str ")" ]);
  ("param_value", Sym "constant_expression");

  (* Enums *)
  ("enum_def", Seq [
     Str "enum";
     Field "name" (Sym "identifier");
     Sym "enum_body";
     Str ";" ]);
  ("enum_body", Seq [Str "{"; Repeat1 (Sym "enum_entry"); Str "}"]);
  ("enum_entry", Seq [
     Field "name" (Sym "identifier");
     Optional (Seq [Str "="; Sym "constant_expression"]);
     Optional (Sym "enum_property_assignment");
     Str ";" ]);
  ("enum_property_assignment", Seq [
     Str "{";
     Repeat (Seq [Sym "explicit_prop_assignment"; Str ";"]);
     Str "}" ]);

  (* Property assignment *)
  ("property_assignment", Choice [
     Sym "explicit_or_default_prop_assignment";
     Sym "post_prop_assignment" ]);
  ("explicit_or_default_prop_assignment", Seq [
     Optional (Str "default");
     Choice [Sym "explicit_prop_modifier"; Sym "explicit_prop_assignment"];
     Str ";" ]);
  ("explicit_prop_modifier", Seq [
     Sym "prop_mod";
     Sym "identifier" ]);
  ("explicit_encode_assignment", Seq [
     Str "encode"; Str "="; Sym "identifier" ]);
  ("explicit_prop_assignment", Choice [
     Seq [Sym "prop_assignment_lhs";
          Optional (Seq [Str "="; Sym "prop_assignment_rhs"])];
     Sym "explicit_encode_assignment" ]);
  ("post_encode_assignment", Seq [
     Sym "instance_ref"; Str "->"; Str "encode"; Str "="; Sym "identifier" ]);
  ("post_prop_assignment", Seq [
     Choice [
       Seq [Sym "prop_ref";
            Optional (Seq [Str "="; Sym "prop_assignment_rhs"])];
       Sym "post_encode_assignment" ];
     Str ";" ]);
  ("prop_mod", Choice [
     Str "posedge"; Str "negedge"; Str "bothedge"; Str "level";
     Str "nonsticky" ]);
  ("prop_assignment_lhs", Choice [Sym "prop_keyword"; Sym "identifier"]);
  ("prop_keyword", Choice [
     Str "sw"; Str "hw"; Str "rclr"; Str "rset"; Str "woclr"; Str "woset" ]);
  ("prop_assignment_rhs", Choice [
     Sym "constant_expression"; Sym "precedencetype_literal" ]);

  (* Struct literal and array literal *)
  ("struct_literal", Seq [
     Sym "identifier";
     Str "{";
     Optional (Seq [Sym "struct_literal_elem";
                    Repeat (Seq [Str ","; Sym "struct_literal_elem"])]);
     Str "}" ]);
  ("struct_literal_elem", Seq [
     Sym "identifier"; Str ":"; Sym "constant_expression" ]);
  ("array_literal", Seq [
     Str "{";
     Sym "array_literal_body";
     Str "}" ]);
  ("array_literal_body", Seq [
     Sym "constant_expression";
     Repeat (Seq [Str ","; Sym "constant_expression"]) ]);

  (* References, arrays and ranges *)
  ("instance_ref", Seq [
     Sym "instance_ref_element";
     Repeat (Seq [Str "."; Sym "instance_ref_element"]) ]);
  ("prop_ref", Seq [
     Sym "instance_ref";
     Str "->";
     Choice [Sym "prop_keyword"; Sym "identifier"] ]);
  ("instance_or_prop_ref", Choice [
     Seq [Sym "instance_ref"; Str "->"; Sym "prop_keyword"];
     Seq [Sym "instance_ref"; Str "->"; Sym "identifier"];
     Sym "instance_ref" ]);
  ("instance_ref_element", Seq [
     Sym "identifier";
     Repeat (Sym "array") ]);
  ("range", Seq [
     Str "["; Sym "constant_expression"; Str ":";
     Sym "constant_expression"; Str "]" ]);
  ("array", Seq [Str "["; Sym "constant_expression"; Str "]"]);
  ("array_type", Seq [Str "["; Str "]"]);

  (* Concatenation *)
  ("constant_concatenation", Seq [
     Str "{";
     Sym "constant_expression";
     Repeat (Seq [Str ","; Sym "constant_expression"]);
     Str "}" ]);
  ("constant_multiple_concatenation", Seq [
     Str "{";
     Sym "constant_expression";
     Sym "constant_concatenation";
     Str "}" ]);

  (* Data types *)
  ("integer_type", Choice [
     Sym "integer_vector_type"; Sym "integer_atom_type" ]);
  ("integer_atom_type", Str "longint");
  ("integer_vector_type", Str "bit");
  ("simple_type", Sym "integer_type");
  ("signing", Str "unsigned");
  ("basic_data_type", Choice [
     Seq [Sym "simple_type"; Optional (Sym "signing")];
     Str "string";
     Str "boolean";
     Sym "identifier" ]);
  ("data_type", Choice [
     Sym "basic_data_type";
     Sym "accesstype";
     Sym "addressingtype";
     Sym "onreadtype";
     Sym "onwritetype" ]);

  (* Literals *)
  ("boolean_literal", Choice [Str "true"; Str "false"]);
  ("number", Token (Pat Patterns.number));
  ("string_literal", Token (Seq [
     Str (one dquote);
     Repeat (Choice [
       Pat Patterns.string_char;
       Seq [Str (one bslash); Pat Patterns.dot] ]);
     Str (one dquote) ]));
  ("enumerator_literal", Seq [
     Sym "identifier"; Str "::"; Sym "identifier" ]);
  ("accesstype_literal", Choice [
     Str "na"; Str "rw"; Str "wr"; Str "r"; Str "w"; Str "rw1"; Str "w1" ]);
  ("onreadtype_literal", Choice [Str "rclr"; Str "rset"; Str "ruser"]);
  ("onwritetype_literal", Choice [
     Str "woset"; Str "woclr"; Str "wot"; Str "wzs"; Str "wzc"; Str "wzt";
     Str "wclr"; Str "wset"; Str "wuser" ]);
  ("addressingtype_literal", Choice [
     Str "compact"; Str "regalign"; Str "fullalign" ]);
  ("precedencetype_literal", Choice [Str "hw"; Str "sw"]);

  (* Conversions of literal keywords to types *)
  ("accesstype", Sym "accesstype_literal");
  ("addressingtype", Sym "addressingtype_literal");
  ("onreadtype", Sym "onreadtype_literal");
  ("onwritetype", Sym "onwritetype_literal");

  (* Expressions *)
  ("constant_expression", PrecLeft (Seq [
     Sym "constant_primary";
     Repeat (Seq [Sym "binary_operator"; Sym "constant_primary"]);
     Optional (Seq [Str "?"; Sym "constant_expression"; Str ":";
                    Sym "constant_expression"]) ]));
  ("constant_primary", Seq [
     Optional (Sym "unary_operator");
     Choice [
       Sym "primary_literal";
       Sym "constant_concatenation";
       Sym "constant_multiple_concatenation";
       Seq [Str "("; Sym "constant_expression"; Str ")"];
       Sym "constant_cast";
       Sym "instance_or_prop_ref";
       Sym "struct_literal";
       Sym "array_literal" ] ]);
  ("primary_literal", Choice [
     Sym "number";
     Sym "string_literal";
     Sym "boolean_literal";
     Sym "accesstype_literal";
     Sym "onreadtype_literal";
     Sym "onwritetype_literal";
     Sym "addressingtype_literal";
     Sym "enumerator_literal";
     Str "this" ]);
  ("binary_operator", Choice [
     Str "&&"; Str "||"; Str "<="; Str ">="; Str "=="; Str "!="; Str ">>";
     Str "<<"; Str "<"; Str ">"; Str "&"; Str "|"; Str "^"; Str "~^";
     Str "^~"; Str "*"; Str "/"; Str "%"; Str "+"; Str "-"; Str "**" ]);
  ("unary_operator", Choice [
     Str "!"; Str "+"; Str "-"; Str "~"; Str "&"; Str "~&"; Str "|";
     Str "~|"; Str "^"; Str "~^"; Str "^~" ]);
  ("constant_cast", Seq [
     Sym "casting_type";
     Str "'";
     Str "("; Sym "constant_expression"; Str ")" ]);
  ("casting_type", Choice [
     Sym "simple_type";
     Sym "boolean_literal";
     Sym "identifier" ]);

  (* Identifiers *)
  ("identifier", Token (Prec 2 (Pat Patterns.identifier)));

  (* Comments *)
  ("comment", Token (Choice [
     Seq [Str "//"; Pat Patterns.line_rest];
     Seq [Str "/*"; Pat Patterns.block_rest; Str "/"] ]))
].

Definition systemrdl : grammar := {|
  name := "systemrdl";
  extras := [Pat Patterns.whitespace; Sym "comment"];
  conflicts := [
    ["struct_literal"; "instance_ref_element"];
    ["constant_concatenation"; "array_literal_body"] ];
  word := "identifier";
  rules := source_rules
|}.

End SystemRDL.
(* ================================================================== *)
(** * Tokens and syntax trees *)
(* ================================================================== *)

(** A token is a span of the source.  [lead] holds the extras (whitespace
    and comments) that precede it: they belong to no grammar rule but are
    accounted to the token that follows them.  A token has no kind of its
    own: [accepts] tells which terminals may consume it. *)
Record token : Type := mk_token {
  lead : string;
  text : string
}.

(** A node of the concrete syntax tree.  A child carries the field tag
    the grammar gives it, if any.  An [ErrorSpan] is an error node: the
    tokens no rule could consume. *)
Inductive tree : Type :=
| Leaf (kind : string) (tok : token)
| Node (kind : string) (children : list (option string * tree))
| ErrorSpan (skipped : list token).

Definition child : Type := option string * tree.
Definition forest : Type := list child.

Definition kind_of (t : tree) : string :=
  match t with
  | Leaf k _ => k
  | Node k _ => k
  | ErrorSpan _ => "ERROR"
  end.

Definition is_error (t : tree) : bool :=
  match t with
  | ErrorSpan _ => true
  | _ => false
  end.

Definition token_source (t : token) : string := lead t +++ text t.

(** The source text a tree covers: its leaves, left to right. *)
Fixpoint yield (t : tree) : string :=
  match t with
  | Leaf _ tok => token_source tok
  | Node _ cs => Str.cat (map (fun c => yield (snd c)) cs)
  | ErrorSpan toks => Str.cat (map token_source toks)
  end.

Definition yield_forest (f : forest) : string :=
  Str.cat (map (fun c => yield (snd c)) f).

(** The tokens at the leaves of a tree, left to right. *)
Fixpoint leaves (t : tree) : list token :=
  match t with
  | Leaf _ tok => [tok]
  | Node _ cs => flat_map (fun c => leaves (snd c)) cs
  | ErrorSpan toks => toks
  end.

Definition leaves_forest (f : forest) : list token :=
  flat_map (fun c => leaves (snd c)) f.

(** All the nodes of a tree carry a kind; [has_kind k t] tells whether
    some node or leaf of [t] has kind [k]. *)
Fixpoint has_kind (k : string) (t : tree) : bool :=
  match t with
  | Leaf k' _ => String.eqb k k'
  | Node k' cs => String.eqb k k' || existsb (fun c => has_kind k (snd c)) cs
  | ErrorSpan _ => String.eqb k "ERROR"
  end.

(** The children of a node that carry field tag [fld]. *)
Definition field_children (fld : string) (t : tree) : list tree :=
  match t with
  | Node _ cs =>
      map snd
        (filter (fun c => match fst c with
                          | Some f => String.eqb f fld
                          | None => false
                          end) cs)
  | _ => []
  end.

(* ================================================================== *)
(** * Meaning of a grammar *)
(* ================================================================== *)

(** ** Lexical rules

    What stands under [token(...)], and a rule that is a single string or
    pattern, is a terminal: the combinators then denote a regular
    expression over characters. *)

Fixpoint lexical (r : rule) : option Regex.re :=
  match r with
  | Str s => Some (Regex.Lit s)
  | Pat p => Some p
  | Sym _ => None
  | Seq rs =>
      (fix go (l : list rule) : option Regex.re :=
         match l with
         | [] => Some Regex.Eps
         | x :: l' =>
             match lexical x, go l' with
             | Some a, Some b => Some (Regex.Cat a b)
             | _, _ => None
             end
         end) rs
  | Choice rs =>
      (fix go (l : list rule) : option Regex.re :=
         match l with
         | [] => Some Regex.Void
         | x :: l' =>
             match lexical x, go l' with
             | Some a, Some b => Some (Regex.Alt a b)
             | _, _ => None
             end
         end) rs
  | Repeat x => option_map Regex.Star (lexical x)
  | Repeat1 x => option_map Regex.Plus (lexical x)
  | Optional x => option_map Regex.Opt (lexical x)
  | Token x | Prec _ x | PrecLeft x | Field _ x => lexical x
  end.

Fixpoint terminal (r : rule) : bool :=
  match r with
  | Str _ | Pat _ | Token _ => true
  | Prec _ x | PrecLeft x => terminal x
  | _ => false
  end.

(** The kind of the leaf an anonymous terminal produces: a string
    literal is named by its text. *)
Fixpoint label (r : rule) : string :=
  match r with
  | Str s => s
  | Prec _ x | PrecLeft x => label x
  | _ => ""
  end.

(** The terminals that occur in a rule. *)
Fixpoint terminals_of (r : rule) : list rule :=
  if terminal r then [r]
  else
    match r with
    | Seq rs | Choice rs => flat_map terminals_of rs
    | Repeat x | Repeat1 x | Optional x | Prec _ x | PrecLeft x | Field _ x =>
        terminals_of x
    | _ => []
    end.

(** The regular expression of a terminal matches the whole of [s]. *)
Definition matches_text (r : rule) (s : string) : bool :=
  match lexical r with
  | Some p => Regex.matches p s
  | None => false
  end.

(** The lexical precedence of a terminal: [n] in [token(prec(n, ...))],
    and 0 where the grammar gives none.  A [prec] that does not stand
    under [token] ranks derivations, not tokens.  [lexical] reads the
    regular expression under [prec], [precedence] the number. *)
Fixpoint rank (r : rule) : nat :=
  match r with
  | Prec n _ => n
  | Token x | PrecLeft x => rank x
  | _ => 0
  end.

Fixpoint precedence (r : rule) : nat :=
  match r with
  | Token x => rank x
  | Prec _ x | PrecLeft x => precedence x
  | _ => 0
  end.

(** The terminals of a grammar that carry a lexical precedence. *)
Definition ranked_terminals (g : grammar) : list rule :=
  filter (fun r => Nat.ltb 0 (precedence r))
         (flat_map terminals_of (map snd (rules g) ++ extras g)).

(** Where two terminals match the same text, the lexer gives the text
    to the one of higher lexical precedence.  [outranked g r s]: some
    terminal of the grammar of higher precedence than [r] matches [s]. *)
Definition outranked (g : grammar) (r : rule) (s : string) : bool :=
  existsb (fun r' => if Nat.ltb (precedence r) (precedence r')
                     then matches_text r' s else false)
          (ranked_terminals g).

(** A terminal accepts a token when its regular expression matches the
    whole text of the token and no terminal of higher lexical precedence
    does.  In [grammar.js] the rule [identifier] is
    [token(prec(2, ...))] and every other terminal has precedence 0: a
    word goes to [identifier], and a keyword literal accepts no token. *)
Definition accepts (g : grammar) (r : rule) (t : token) : bool :=
  if matches_text r (text t) then negb (outranked g r (text t)) else false.

Definition tag (fld : string) (c : child) : child :=
  match fst c with
  | Some _ => c
  | None => (Some fld, snd c)
  end.

Section Semantics.

Variable g : grammar.

Fixpoint assoc (x : string) (l : list (string * rule)) : option rule :=
  match l with
  | [] => None
  | (y, r) :: l' => if String.eqb x y then Some r else assoc x l'
  end.

Definition find_rule (x : string) : option rule := assoc x (rules g).

(** Rules whose name starts with an underscore are hidden: they leave
    no node in the tree. *)
Definition hidden (x : string) : bool := String.prefix "_" x.

(** ** Derivations

    [derives r ts f]: rule [r] derives exactly the tokens [ts], and the
    derivation builds the nodes [f]. *)
Inductive derives : rule -> list token -> forest -> Prop :=
| D_term r t :
    terminal r = true -> accepts g r t = true ->
    derives r [t] [(None, Leaf (label r) t)]
| D_leaf x b t :
    find_rule x = Some b -> terminal b = true -> accepts g b t = true ->
    derives (Sym x) [t] [(None, Leaf x t)]
| D_node x b ts f :
    find_rule x = Some b -> terminal b = false -> hidden x = false ->
    derives b ts f ->
    derives (Sym x) ts [(None, Node x f)]
| D_inline x b ts f :
    find_rule x = Some b -> terminal b = false -> hidden x = true ->
    derives b ts f ->
    derives (Sym x) ts f
| D_seq_nil : derives (Seq []) [] []
| D_seq_cons r rs ts1 ts2 f1 f2 :
    derives r ts1 f1 -> derives (Seq rs) ts2 f2 ->
    derives (Seq (r :: rs)) (ts1 ++ ts2) (f1 ++ f2)
| D_choice r rs ts f :
    In r rs -> derives r ts f -> derives (Choice rs) ts f
| D_repeat_none r : derives (Repeat r) [] []
| D_repeat_some r ts f :
    derives (Repeat1 r) ts f -> derives (Repeat r) ts f
| D_repeat1 r ts1 ts2 f1 f2 :
    derives r ts1 f1 -> derives (Repeat r) ts2 f2 ->
    derives (Repeat1 r) (ts1 ++ ts2) (f1 ++ f2)
| D_optional_none r : derives (Optional r) [] []
| D_optional_some r ts f :
    derives r ts f -> derives (Optional r) ts f
| D_prec n r ts f :
    terminal r = false -> derives r ts f -> derives (Prec n r) ts f
| D_prec_left r ts f :
    terminal r = false -> derives r ts f -> derives (PrecLeft r) ts f
| D_field fld r ts f :
    derives r ts f -> derives (Field fld r) ts (map (tag fld) f).

(** ** Enumerating derivations

    [parse n r ts] lists every way rule [r] derives a prefix of [ts],
    each with the nodes built and the tokens left over.  Alternatives
    are listed in the order of declaration: the branches of a [choice]
    from first to last, a present [optional] before an absent one, a
    longer [repeat] before a shorter one.  [n] bounds the depth of the
    search; [None] means the bound was reached somewhere, so that
    [Some l] is always the complete list. *)

Definition results : Type := list (forest * list token).

Definition term_step (k : string) (r : rule) (ts : list token) : results :=
  match ts with
  | t :: rest => if accepts g r t then [([(None, Leaf k t)], rest)] else []
  | [] => []
  end.

Definition prepend (f : forest) (x : forest * list token)
  : forest * list token :=
  (f ++ fst x, snd x).

Fixpoint seq_results (xs : results) (k : list token -> option results)
  : option results :=
  match xs with
  | [] => Some []
  | x :: xs' =>
      match k (snd x), seq_results xs' k with
      | Some ys, Some zs => Some (map (prepend (fst x)) ys ++ zs)
      | _, _ => None
      end
  end.

Fixpoint alts (os : list (option results)) : option results :=
  match os with
  | [] => Some []
  | o :: os' =>
      match o, alts os' with
      | Some ys, Some zs => Some (ys ++ zs)
      | _, _ => None
      end
  end.

Definition wrap (x : string) (y : forest * list token)
  : forest * list token :=
  ([(None, Node x (fst y))], snd y).

Definition tag_result (fld : string) (y : forest * list token)
  : forest * list token :=
  (map (tag fld) (fst y), snd y).

Fixpoint parse (n : nat) (r : rule) (ts : list token) : option results :=
  match n with
  | 0 => None
  | S n' =>
      if terminal r then Some (term_step (label r) r ts)
      else
        match r with
        | Sym x =>
            match find_rule x with
            | None => Some []
            | Some b =>
                if terminal b then Some (term_step x b ts)
                else if hidden x then parse n' b ts
                else option_map (map (wrap x)) (parse n' b ts)
            end
        | Seq [] => Some [([], ts)]
        | Seq (r1 :: rs) =>
            match parse n' r1 ts with
            | Some xs => seq_results xs (parse n' (Seq rs))
            | None => None
            end
        | Choice rs => alts (map (fun x => parse n' x ts) rs)
        | Repeat r1 =>
            option_map (fun xs => xs ++ [([], ts)]) (parse n' (Repeat1 r1) ts)
        | Repeat1 r1 =>
            match parse n' r1 ts with
            | Some xs => seq_results xs (parse n' (Repeat r1))
            | None => None
            end
        | Optional r1 =>
            option_map (fun xs => xs ++ [([], ts)]) (parse n' r1 ts)
        | Prec _ r1 | PrecLeft r1 => parse n' r1 ts
        | Field fld r1 => option_map (map (tag_result fld)) (parse n' r1 ts)
        | Str _ | Pat _ | Token _ => Some []
        end
  end.

End Semantics.

(* ================================================================== *)
(** * The lexer *)
(* ================================================================== *)


Section Lexer.

Variable g : grammar.

(** An extra is a terminal, or the name of a rule that is one. *)
Definition resolve (r : rule) : rule :=
  match r with
  | Sym x => match find_rule g x with Some b => b | None => r end
  | _ => r
  end.

Definition extra_terminals : list rule := map resolve (extras g).

Definition all_terminals : list rule :=
  extra_terminals ++ flat_map (fun xr => terminals_of (snd xr)) (rules g).

Definition match_length (s : string) (r : rule) : nat :=
  match lexical r with
  | Some p => match Regex.longest p s with Some n => n | None => 0 end
  | None => 0
  end.

Definition best (rs : list rule) (s : string) : nat :=
  fold_right (fun r m => Nat.max (match_length s r) m) 0 rs.

(** Modelled from the spec: the scanner of the generated parser, which
    is not part of the sources.  Section 4.1: longest match wins; a
    character at which no token pattern matches is a lexical error,
    passed on as a one-character token for the error recovery to
    absorb.  The token patterns themselves are the grammar's.

    [scan n s] cuts [s] into lexemes, each marked as extra or not;
    [n] bounds the number of lexemes. *)
Fixpoint scan (n : nat) (s : string) : list (bool * string) :=
  match n with
  | 0 => []
  | S n' =>
      match s with
      | "" => []
      | _ =>
          let len := Nat.max 1 (best all_terminals s) in
          let extra := Nat.eqb (best extra_terminals s) len in
          (extra, Str.take len s) :: scan n' (Str.drop len s)
      end
  end.

(** Modelled from the spec: the token stream of the generated parser
    (sections 4.1 and 4.5).  Extras are accounted to the token that
    follows them; those at the end of the input to the end-of-input
    marker. *)
Fixpoint attach (pending : string) (l : list (bool * string))
  : list token * token :=
  match l with
  | [] => ([], mk_token pending "")
  | (true, w) :: l' => attach (pending +++ w) l'
  | (false, w) :: l' =>
      let (ts, e) := attach "" l' in (mk_token pending w :: ts, e)
  end.

(** Modelled from the spec: the lexer of the generated parser, [scan]
    with the extras attached. *)
Definition lex (s : string) : list token * token :=
  attach "" (scan (String.length s) s).

End Lexer.

(* ================================================================== *)
(** * The parsing engine *)
(* ================================================================== *)

Inductive outcome (A : Type) : Type :=
| Ok (a : A)
| ResourceExceeded.
Arguments ResourceExceeded {A}.

Section Engine.

Variable g : grammar.

Definition start : string :=
  match rules g with
  | (x, _) :: _ => x
  | [] => ""
  end.

(** Modelled from the spec: the conflict resolver of the generated
    parser, which is not part of the sources.  Sections 4.4 and 9:
    alternatives are attempted in declared priority order, with
    backtracking on failure and commitment to the first success.  The
    tree selected is the first derivation of the whole input. *)
Fixpoint first_complete (xs : results) : option forest :=
  match xs with
  | [] => None
  | (f, []) :: _ => Some f
  | _ :: xs' => first_complete xs'
  end.

(** Modelled from the spec: the error node of section 4.6 over the
    tokens skipped so far. *)
Definition flush (pending : list token) : forest :=
  match pending with
  | [] => []
  | _ => [(None, ErrorSpan pending)]
  end.

(** Modelled from the spec: the error recovery of the generated parser,
    which is not part of the sources.  Section 4.6: where no rule
    applies, the tokens up to the next point at which parsing can
    resume are put under an error node and parsing continues after it.
    Parsing can resume where the body of the start rule derives a
    non-empty prefix of what is left.

    [n] bounds the number of steps, [budget] the depth of each search
    (section 5: exceeding the budget is the one fatal outcome). *)
Fixpoint recover (budget n : nat) (pending ts : list token)
  : outcome forest :=
  match ts with
  | [] => Ok (flush pending)
  | t :: ts' =>
      match n with
      | 0 => ResourceExceeded
      | S n' =>
          match find_rule g start with
          | None => recover budget n' (pending ++ [t]) ts'
          | Some body =>
              match parse g budget body ts with
              | None => ResourceExceeded
              | Some ((f, rest) :: _) =>
                  if Nat.ltb (List.length rest) (List.length ts) then
                    match recover budget n' [] rest with
                    | Ok f' => Ok (flush pending ++ f ++ f')
                    | ResourceExceeded => ResourceExceeded
                    end
                  else recover budget n' (pending ++ [t]) ts'
              | Some [] => recover budget n' (pending ++ [t]) ts'
              end
          end
      end
  end.

(** Modelled from the spec: the end-of-input marker of section 4.1, as
    the last leaf of the root. *)
Definition end_leaf (e : token) : child := (None, Leaf "end" e).

(** Modelled from the spec: the entry point of the generated parser,
    which is not part of the sources.  The tree of a token sequence is
    the first derivation of the whole input from the start rule if there
    is one, the recovered tree otherwise.  The end-of-input marker closes
    the root. *)
Definition parse_tokens (budget : nat) (ts : list token) (e : token)
  : outcome tree :=
  match parse g budget (Sym start) ts with
  | None => ResourceExceeded
  | Some xs =>
      match first_complete xs with
      | Some [(None, Node k cs)] => Ok (Node k (cs ++ [end_leaf e]))
      | _ =>
          match recover budget (List.length ts) [] ts with
          | Ok f => Ok (Node start (f ++ [end_leaf e]))
          | ResourceExceeded => ResourceExceeded
          end
      end
  end.

(** Modelled from the spec: parsing a source text, lexer first. *)
Definition parse_source (budget : nat) (s : string) : outcome tree :=
  let (ts, e) := lex g s in parse_tokens budget ts e.

(** Modelled from the spec: parsing a source text from a rule other
    than the start rule, as the first derivation of all its tokens. *)
Definition parse_as (budget : nat) (x : string) (s : string)
  : outcome (option forest) :=
  match parse g budget (Sym x) (fst (lex g s)) with
  | None => ResourceExceeded
  | Some xs => Ok (first_complete xs)
  end.

End Engine.

(* ================================================================== *)
(** * Static analysis of a grammar *)
(* ================================================================== *)

(** The search of [parse] ends on every input when the grammar has no
    left recursion and no repetition of a rule that can derive the empty
    sequence.  Both are checked by computation. *)

Definition mem (x : string) (l : list string) : bool :=
  existsb (String.eqb x) l.

Fixpoint size (r : rule) : nat :=
  S (match r with
     | Seq rs | Choice rs => list_sum (map size rs)
     | Repeat x | Repeat1 x | Optional x | Token x | Prec _ x | PrecLeft x
     | Field _ x => size x
     | _ => 0
     end).

Section Analysis.


Variable g : grammar.

(** [nulls]: the rules that may derive the empty sequence.
    [rk]: a rank of the rules that decreases along left corners. *)
Variable nulls : list string.
Variable rk : string -> nat.

Fixpoint may_be_empty (r : rule) : bool :=
  if terminal r then false
  else
    match r with
    | Sym x =>
        match find_rule g x with
        | Some b => negb (terminal b) && mem x nulls
        | None => false
        end
    | Seq rs => forallb may_be_empty rs
    | Choice rs => existsb may_be_empty rs
    | Repeat _ | Optional _ => true
    | Repeat1 x | Prec _ x | PrecLeft x | Field _ x => may_be_empty x
    | _ => false
    end.

(** A strict bound on the ranks of the rules at the left corner of [r]:
    those [parse] may enter before any token is consumed. *)
Fixpoint left_rank (r : rule) : nat :=
  if terminal r then 0
  else
    match r with
    | Sym x =>
        match find_rule g x with
        | Some b => if terminal b then 0 else S (rk x)
        | None => 0
        end
    | Seq rs =>
        (fix go (l : list rule) : nat :=
           match l with
           | [] => 0
           | x :: l' =>
               Nat.max (left_rank x) (if may_be_empty x then go l' else 0)
           end) rs
    | Choice rs => fold_right (fun x m => Nat.max (left_rank x) m) 0 rs
    | Repeat x | Repeat1 x | Optional x | Prec _ x | PrecLeft x
    | Field _ x => left_rank x
    | _ => 0
    end.

(** Every repetition repeats a rule that consumes input. *)
Fixpoint productive (r : rule) : bool :=
  if terminal r then true
  else
    match r with
    | Seq rs | Choice rs => forallb productive rs
    | Repeat x | Repeat1 x => negb (may_be_empty x) && productive x
    | Optional x | Prec _ x | PrecLeft x | Field _ x => productive x
    | _ => true
    end.

Definition well_founded_rule (xr : string * rule) : bool :=
  productive (snd xr)
  && Nat.leb (left_rank (snd xr)) (rk (fst xr))
  && implb (may_be_empty (snd xr)) (mem (fst xr) nulls).

Definition well_founded : bool := forallb well_founded_rule (rules g).

End Analysis.

(** ** The tables of a grammar, by iteration *)

Section Tables.

Variable g : grammar.

Fixpoint iterate (A : Type) (f : A -> A) (n : nat) (a : A) : A :=
  match n with
  | 0 => a
  | S n' => iterate f n' (f a)
  end.

Definition nulls_step (nulls : list string) : list string :=
  map fst (filter (fun xr => may_be_empty g nulls (snd xr)) (rules g)).

Definition nulls_of : list string :=
  iterate nulls_step (List.length (rules g)) [].

Fixpoint rank_in (table : list (string * nat)) (x : string) : nat :=
  match table with
  | [] => 0
  | (y, n) :: table' => if String.eqb x y then n else rank_in table' x
  end.

Definition rank_step (nulls : list string) (table : list (string * nat))
  : list (string * nat) :=
  map (fun xr => (fst xr, left_rank g nulls (rank_in table) (snd xr)))
      (rules g).

Definition ranks_of (nulls : list string) : list (string * nat) :=
  iterate (rank_step nulls) (List.length (rules g)) [].

End Tables.

(** ** Rules that derive nothing

    A literal that a terminal of higher precedence outranks on its own
    text accepts no token, and a rule that needs such a literal, or a
    rule that derives nothing, derives nothing. *)

Section Barren.

Variable g : grammar.

(** [lost]: rules known to derive nothing. *)
Variable lost : list string.

Fixpoint barren (r : rule) : bool :=
  if terminal r then
    match r with
    | Str s => outranked g r s
    | _ => false
    end
  else
    match r with
    | Sym x => mem x lost
    | Seq rs => existsb barren rs
    | Choice rs => forallb barren rs
    | Repeat1 x | Prec _ x | PrecLeft x | Field _ x => barren x
    | _ => false
    end.

(** Every rule of [lost] has a barren body. *)
Definition all_barren : bool :=
  forallb (fun x => match find_rule g x with
                    | Some b => barren b
                    | None => true
                    end) lost.

End Barren.

Definition lost_step (g : grammar) (lost : list string) : list string :=
  map fst (filter (fun xr => barren g lost (snd xr)) (rules g)).

Definition lost_rules (g : grammar) : list string :=
  iterate (lost_step g) (List.length (rules g)) [].

Module SystemRDL_Tables.
Import SystemRDL.
Definition nulls : list string := Eval vm_compute in nulls_of systemrdl.
Definition ranks : list (string * nat) := Eval vm_compute in
  ranks_of systemrdl nulls.
Definition rank : string -> nat := rank_in ranks.
Definition lost : list string := Eval vm_compute in lost_rules systemrdl.
End SystemRDL_Tables.


(* ================================================================== *)
(** * Halting and recovery, as relations *)
(* ================================================================== *)

Section Relations.

Variable g : grammar.

Definition halts (r : rule) (ts : list token) : Prop :=
  exists n xs, parse g n r ts = Some xs.


(** [recovered body f ts]: the nodes [f] cover the tokens [ts], each
    node being an error span or built by a derivation of [body]. *)
Inductive recovered (body : rule) : forest -> list token -> Prop :=
| R_done : recovered body [] []
| R_error skipped f ts :
    skipped <> [] -> recovered body f ts ->
    recovered body ((None, ErrorSpan skipped) :: f) (skipped ++ ts)
| R_parsed c f1 f2 ts :
    derives g body c f1 -> recovered body f2 ts ->
    recovered body (f1 ++ f2) (c ++ ts).

Definition is_suffix (ts' ts : list token) : Prop :=
  exists p, ts = p ++ ts'.


End Relations.

(* ================================================================== *)
(** * Number literals *)
(* ================================================================== *)

Module NumberLiteral.

(** ** The forms of a number, in the words of the specification *)

Definition between (lo hi c : ascii) : bool :=
  Nat.leb (nat_of_ascii lo) (nat_of_ascii c) &&
  Nat.leb (nat_of_ascii c) (nat_of_ascii hi).

Definition is_hex (c : ascii) : bool :=
  between "0" "9" c || between "a" "f" c || between "A" "F" c.
Definition is_bin (c : ascii) : bool := between "0" "1" c.
Definition is_oct (c : ascii) : bool := between "0" "7" c.
Definition is_dec (c : ascii) : bool := between "0" "9" c.

Definition starts_with_digit (d : ascii -> bool) (s : string) : bool :=
  match s with
  | String c _ => d c
  | "" => false
  end.

(** Digits with single underscores as separators: every character is a
    digit or an underscore, and an underscore stands between two
    digits -- never first, never last, never next to another one.
    [after_digit] tells whether the character before [s] is a digit. *)
Fixpoint separated_from (d : ascii -> bool) (after_digit : bool) (s : string)
  : bool :=
  match s with
  | "" => after_digit
  | String c s' =>
      if d c then separated_from d true s'
      else if Ascii.eqb c "_" then
        after_digit && starts_with_digit d s' && separated_from d false s'
      else false
  end.

Definition separated (d : ascii -> bool) (s : string) : bool :=
  separated_from d false s.

Definition with_prefix (p : string) (d : ascii -> bool) (s : string) : bool :=
  String.prefix p s && separated d (Str.drop (String.length p) s).

Definition number_form (s : string) : bool :=
  with_prefix "0x" is_hex s || with_prefix "0X" is_hex s
  || with_prefix "0b" is_bin s || with_prefix "0B" is_bin s
  || with_prefix "0o" is_oct s || with_prefix "0O" is_oct s
  || separated is_dec s.

End NumberLiteral.

(* ================================================================== *)
(** * Reading a grammar *)
(* ================================================================== *)

(** The derivations of the whole input among the results of [parse]. *)
Definition is_nil (A : Type) (l : list A) : bool :=
  match l with
  | [] => true
  | _ => false
  end.

Definition complete (xs : results) : list forest :=
  map fst (filter (fun x => is_nil (snd x)) xs).

(** [derivable g r ts]: rule [r] derives exactly the tokens [ts]. *)
Definition derivable (g : grammar) (r : rule) (ts : list token) : Prop :=
  exists f, derives g r ts f.

(** A token without extras before it. *)
Definition tok (s : string) : token := mk_token "" s.

(** The tokens of a source text, without the end-of-input marker. *)
Definition tokens (g : grammar) (s : string) : list token := fst (lex g s).

(** A node without field tag, and a tagged one. *)
Definition plain (t : tree) : child := (None, t).
Definition tagged (fld : string) (t : tree) : child := (Some fld, t).

(* ================================================================== *)
(** * String literals *)
(* ================================================================== *)

Module StringLiteral.
Import Chars.

(** The rule [string_literal] of the grammar. *)
Definition rule_body : rule :=
  match find_rule SystemRDL.systemrdl "string_literal" with
  | Some b => b
  | None => Seq []
  end.

Definition is_string_literal (s : string) : bool :=
  accepts SystemRDL.systemrdl rule_body (tok s).

(** What [string_literal] repeats between the quotes. *)
Definition item : Regex.re :=
  Regex.Alt Patterns.string_char
    (Regex.Alt (Regex.Cat (Regex.Lit (one bslash))
                  (Regex.Cat Patterns.dot Regex.Eps))
               Regex.Void).

(** A body between double quotes, and a backslash followed by [c]. *)
Definition quoted (body : string) : string :=
  one dquote +++ body +++ one dquote.

Definition escape (c : ascii) : string := String bslash (String c "").

End StringLiteral.

(** All the trees a rule builds over the whole of [ts], in order of
    priority; [None] when the bound [n] is too small. *)
Definition all_trees (g : grammar) (n : nat) (r : rule) (ts : list token)
  : option (list forest) :=
  option_map complete (parse g n r ts).

(** Whether a rule derives the whole of [ts]. *)
Definition derives_all (g : grammar) (n : nat) (r : rule) (ts : list token)
  : option bool :=
  option_map (fun l => negb (is_nil l)) (all_trees g n r ts).

(** The kinds of the nodes of a forest. *)
Definition forest_kinds (f : forest) : list string :=
  map (fun c => kind_of (snd c)) f.

(** The kinds of the children of a node. *)
Definition child_kinds (t : tree) : list string :=
  match t with
  | Node _ cs => map (fun c => kind_of (snd c)) cs
  | _ => []
  end.

(** Tokens given by their texts. *)
Definition toks (l : list string) : list token := map tok l.

(** The string literals of a rule, outside [token(...)]. *)
Fixpoint literals (r : rule) : list string :=
  match r with
  | Str s => [s]
  | Seq rs | Choice rs => flat_map literals rs
  | Repeat x | Repeat1 x | Optional x | Prec _ x | PrecLeft x | Field _ x =>
      literals x
  | _ => []
  end.

Definition grammar_literals (g : grammar) : list string :=
  flat_map (fun xr => literals (snd xr)) (rules g).

(** The rule named by the [word] property. *)
Definition word_rule (g : grammar) : rule :=
  match find_rule g (word g) with
  | Some b => b
  | None => Seq []
  end.

(** The keywords of a grammar: its string literals that have the shape
    of a word. *)
Definition keywords (g : grammar) : list string :=
  nodup string_dec
    (filter (fun s => accepts g (word_rule g) (tok s)) (grammar_literals g)).

(** The contextual keywords section 4.1 of the specification names. *)
Definition contextual_keywords : list string :=
  ["sw"; "hw"; "rclr"; "rset"; "woclr"; "woset"; "posedge"; "negedge";
   "level"; "na"; "rw"; "r"; "w";
   "addrmap"; "regfile"; "reg"; "field"; "mem"; "signal"].

(** The tree of [t k;]: an instance named [k] of a component [t]. *)
Definition instance_tree (k : string) : tree :=
  Node "source_file"
    [plain (Node "explicit_component_inst"
       [tagged "name" (Leaf "identifier" (tok "t"));
        plain (Node "component_insts"
          [plain (Node "component_inst"
             [tagged "instance" (Leaf "identifier" (mk_token " " k))])]);
        plain (Leaf ";" (tok ";"))]);
     plain (Leaf "end" (tok ""))].

(** A struct with a field named [sw]. *)
Definition struct_with_field : string := "struct s { bit sw; };".

(** A number as a constant expression. *)
Definition number_expr (t : token) : child :=
  plain (Node "constant_expression"
    [plain (Node "constant_primary"
       [plain (Node "primary_literal" [plain (Leaf "number" t)])])]).

(** The children of the braces [{1,2,3}], whichever node holds them. *)
Definition one_two_three : forest :=
  [number_expr (tok "1"); plain (Leaf "," (tok ","));
   number_expr (tok "2"); plain (Leaf "," (tok ","));
   number_expr (tok "3")].

(** A property definition whose default is [{1,2,3}], as the
    specification writes it and with the semicolon that ends a
    [property_definition]. *)
Definition property_p1_unterminated : string :=
  "property p1 { default = {1,2,3}; }".

Definition property_p1 : string := "property p1 { default = {1,2,3}; };".

(** Definitions with a body that holds no element. *)
Definition empty_bodies : list string :=
  ["reg { } r;"; "struct s { };"; "constraint c { };"; "property p { };"].

(* ================================================================== *)
(** * The shape of constant expressions *)
(* ================================================================== *)

Definition same_kinds (a b : list string) : bool :=
  if list_eq_dec string_dec a b then true else false.

(** The kinds that may follow the first primary of an expression: pairs
    of an operator and a primary, then nothing or the ternary suffix
    [? expr : expr]. *)
Definition ternary_kinds : list string :=
  ["?"; "constant_expression"; ":"; "constant_expression"].

Fixpoint chain_rest (ks : list string) : bool :=
  same_kinds ks [] || same_kinds ks ternary_kinds ||
  match ks with
  | a :: b :: ks' =>
      String.eqb a "binary_operator" && String.eqb b "constant_primary"
      && chain_rest ks'
  | _ => false
  end.

Definition chain_shape (ks : list string) : bool :=
  match ks with
  | p :: ks' => String.eqb p "constant_primary" && chain_rest ks'
  | [] => false
  end.

(** The binary operators, as the rule [binary_operator] lists them. *)
Definition binary_operators : list string :=
  match find_rule SystemRDL.systemrdl "binary_operator" with
  | Some b => literals b
  | None => []
  end.

(** The tree of [a o1 b o2 c]: one node, the five parts side by side. *)
Definition operand (x : string) : child :=
  plain (Node "constant_primary"
    [plain (Node "instance_or_prop_ref"
       [plain (Node "instance_ref"
          [plain (Node "instance_ref_element"
             [plain (Leaf "identifier" (tok x))])])])]).

Definition operator (o : string) : child :=
  plain (Node "binary_operator" [plain (Leaf o (tok o))]).

Definition flat_chain (o1 o2 : string) : forest :=
  [plain (Node "constant_expression"
     [operand "a"; operator o1; operand "b"; operator o2; operand "c"])].

(** The precedence annotations of a rule: [Some n] for [prec(n, ...)],
    [None] for [prec.left(...)]. *)
Fixpoint precedences (r : rule) : list (option nat) :=
  match r with
  | Prec n x => Some n :: precedences x
  | PrecLeft x => None :: precedences x
  | Seq rs | Choice rs => flat_map precedences rs
  | Repeat x | Repeat1 x | Optional x | Token x | Field _ x => precedences x
  | _ => []
  end.

Definition annotated_rules (g : grammar) : list (string * list (option nat)) :=
  filter (fun xp => negb (is_nil (snd xp)))
         (map (fun xr => (fst xr, precedences (snd xr))) (rules g)).

(* ================================================================== *)
(** * Priority between two rules for the same text *)
(* ================================================================== *)

(** Whether a tree holds a node of kind [k]. *)
Fixpoint has_node (k : string) (t : tree) : bool :=
  match t with
  | Node k' cs => String.eqb k k' || existsb (fun c => has_node k (snd c)) cs
  | _ => false
  end.

Definition forest_has_node (k : string) (f : forest) : bool :=
  existsb (fun c => has_node k (snd c)) f.

Definition is_sym (x : string) (r : rule) : bool :=
  match r with
  | Sym y => String.eqb y x
  | _ => false
  end.

Section Priority.

(** [a] is the rule that loses, [b] the rule that wins. *)
Variables a b : string.

Section Alternatives.

Variable check : rule -> bool.

(** The alternatives of a [choice]: each passes [check], or is [a] after
    [b] has been listed ([seen_b]). *)
Fixpoint guarded_alternatives (seen_b : bool) (l : list rule) : bool :=
  match l with
  | [] => true
  | x :: l' =>
      (check x || (seen_b && is_sym a x))
      && guarded_alternatives (seen_b || is_sym b x) l'
  end.

End Alternatives.

(** [guarded r]: wherever [r] refers to [a], it does so as an alternative
    of a [choice] that lists [b] before it. *)
Fixpoint guarded (r : rule) : bool :=
  if terminal r then true
  else
    match r with
    | Sym x => negb (String.eqb x a)
    | Seq rs => forallb guarded rs
    | Choice rs => guarded_alternatives guarded false rs
    | Repeat x | Repeat1 x | Optional x | Prec _ x | PrecLeft x | Field _ x =>
        guarded x
    | _ => true
    end.

Definition guarded_grammar (g : grammar) : bool :=
  forallb (fun xr => guarded (snd xr)) (rules g).

(** [shadowed_after seen xs]: every result of [xs] that holds a node of
    kind [a] comes after a result that leaves the same tokens ([seen]
    lists what the results before [xs] leave). *)
Fixpoint shadowed_after (seen : list (list token)) (xs : results) : Prop :=
  match xs with
  | [] => True
  | x :: xs' =>
      (forest_has_node a (fst x) = true -> In (snd x) seen)
      /\ shadowed_after (seen ++ [snd x]) xs'
  end.

End Priority.

(** Whether a rule refers to [x] anywhere. *)
Fixpoint refers_to (x : string) (r : rule) : bool :=
  match r with
  | Sym y => String.eqb y x
  | Seq rs | Choice rs => existsb (refers_to x) rs
  | Repeat r' | Repeat1 r' | Optional r' | Token r' | Prec _ r' | PrecLeft r'
  | Field _ r' => refers_to x r'
  | _ => false
  end.

(** The rules that refer to [x]. *)
Definition referrers (g : grammar) (x : string) : list string :=
  map fst (filter (fun xr => refers_to x (snd xr)) (rules g)).

(** Source texts with [{1,2,3}] where the grammar asks for a constant
    expression: a property value, an array index, the value of a
    post-assignment, the operands of an operator, an instance address,
    an array dimension and a parameter value. *)
Definition concatenation_positions : list string :=
  ["f = {1,2,3};";
   "a[{1,2,3}] -> b = {1,2,3} + {1,2,3};";
   "t i @ {1,2,3};";
   "t i[{1,2,3}];";
   "t #(.W({1,2,3})) i;"].

(** The two trees of [{1,2,3}] as a constant expression. *)
Definition as_concatenation : forest :=
  [plain (Node "constant_expression"
     [plain (Node "constant_primary"
        [plain (Node "constant_concatenation"
           ([plain (Leaf "{" (tok "{"))] ++ one_two_three
            ++ [plain (Leaf "}" (tok "}"))]))])])].

Definition array_literal_node : tree :=
  Node "array_literal"
    [plain (Leaf "{" (tok "{"));
     plain (Node "array_literal_body" one_two_three);
     plain (Leaf "}" (tok "}"))].

Definition as_array_literal : forest :=
  [plain (Node "constant_expression"
     [plain (Node "constant_primary" [plain array_literal_node])])].

(* ================================================================== *)
(** * Error nodes *)
(* ================================================================== *)

(** Whether a tree holds an error node. *)
Fixpoint has_error (t : tree) : bool :=
  match t with
  | ErrorSpan _ => true
  | Node _ cs => existsb (fun c => has_error (snd c)) cs
  | Leaf _ _ => false
  end.

Definition forest_has_error (f : forest) : bool :=
  existsb (fun c => has_error (snd c)) f.

(** The tree of [reg r1 {], where the brace is never closed. *)
Definition unterminated_reg_tree : tree :=
  Node "source_file"
    [plain (ErrorSpan [tok "reg"; mk_token " " "r1"; mk_token " " "{"]);
     plain (Leaf "end" (tok ""))].

(* ================================================================== *)
(** * Identifiers and comments *)
(* ================================================================== *)

(** The body of a rule of [grammar.js], by its name. *)
Definition rule_of (x : string) : rule :=
  match find_rule SystemRDL.systemrdl x with
  | Some b => b
  | None => Seq []
  end.

Module Words.
Import Chars.

(** Every character of [s] satisfies [p]. *)
Fixpoint all_chars (p : ascii -> bool) (s : string) : bool :=
  match s with
  | "" => true
  | String c s' => p c && all_chars p s'
  end.

(** Character [c] occurs in [s]. *)
Fixpoint occurs (c : ascii) (s : string) : bool :=
  match s with
  | "" => false
  | String d s' => Ascii.eqb d c || occurs c s'
  end.

Definition is_empty (s : string) : bool :=
  match s with
  | "" => true
  | _ => false
  end.

Definition is_letter (c : ascii) : bool :=
  NumberLiteral.between "A" "Z" c || NumberLiteral.between "a" "z" c.

(** A letter or an underscore, then letters, digits and underscores. *)
Definition identifier_form (s : string) : bool :=
  match s with
  | "" => false
  | String c s' =>
      (is_letter c || Ascii.eqb c "_")
      && all_chars (fun d => is_letter d || NumberLiteral.is_dec d
                             || Ascii.eqb d "_") s'
  end.

(** Two slashes, then anything up to the end of the line. *)
Definition line_comment (s : string) : bool :=
  String.prefix "//" s
  && all_chars (fun c => negb (Ascii.eqb c nl)) (Str.drop 2 s).

(** [closes s]: the first star-slash of [s] is its end. *)
Fixpoint closes (s : string) : bool :=
  match s with
  | "" => false
  | String _ s' =>
      if String.prefix "*/" s then is_empty (Str.drop 2 s) else closes s'
  end.

(** Slash-star, then anything up to the first star-slash. *)
Definition block_comment (s : string) : bool :=
  String.prefix "/*" s && closes (Str.drop 2 s).

Definition comment_form (s : string) : bool :=
  line_comment s || block_comment s.

(** After the opening quote: characters other than the quote, the
    backslash and the line feed, and pairs of a backslash and a
    character other than the line feed, up to the closing quote, which
    is the end. *)
Fixpoint string_body (s : string) : bool :=
  match s with
  | "" => false
  | String c s' =>
      if Ascii.eqb c dquote then is_empty s'
      else if Ascii.eqb c bslash then
        match s' with
        | String d s'' => negb (Ascii.eqb d nl) && string_body s''
        | "" => false
        end
      else negb (Ascii.eqb c nl) && string_body s'
  end.

Definition string_form (s : string) : bool :=
  match s with
  | String c s' => Ascii.eqb c dquote && string_body s'
  | "" => false
  end.

(** Some character class of [r] holds [c]: a text that [r] matches can
    hold [c] only then. *)
Fixpoint admits (c : ascii) (r : Regex.re) : bool :=
  match r with
  | Regex.Void | Regex.Eps => false
  | Regex.Class neg rs => Regex.in_class neg rs c
  | Regex.Cat a b | Regex.Alt a b => admits c a || admits c b
  | Regex.Star a => admits c a
  end.

(** The derivative of [r] is the same for two characters that the
    classes of [r] do not tell apart. *)
Fixpoint alike (c d : ascii) (r : Regex.re) : bool :=
  match r with
  | Regex.Void | Regex.Eps => true
  | Regex.Class neg rs =>
      Bool.eqb (Regex.in_class neg rs c) (Regex.in_class neg rs d)
  | Regex.Cat a b | Regex.Alt a b => alike c d a && alike c d b
  | Regex.Star a => alike c d a
  end.

(** The terminals of the rules of a grammar, but those of rule [x],
    admit no [c]. *)
Definition never_holds (g : grammar) (x : string) (c : ascii) : bool :=
  forallb (fun xr =>
             String.eqb (fst xr) x
             || forallb (fun r => match lexical r with
                                  | Some p => negb (admits c p)
                                  | None => true
                                  end)
                        (terminals_of (snd xr)))
          (rules g).

End Words.

(* ================================================================== *)
(** * Shapes of derivations *)
(* ================================================================== *)

(** The first tree a rule builds over the whole of [ts]. *)
Definition first_tree (g : grammar) (n : nat) (r : rule) (ts : list token)
  : forest :=
  match all_trees g n r ts with
  | Some (f :: _) => f
  | _ => []
  end.

(* ================================================================== *)
(** * Brackets *)
(* ================================================================== *)

Section Brackets.

Variables opening closing : string.

(** The number of brackets open after the tokens [ts], when [d] are
    open before them; [None] when a closing bracket has none to close. *)
Fixpoint depth (d : nat) (ts : list token) : option nat :=
  match ts with
  | [] => Some d
  | t :: ts' =>
      if String.eqb (text t) opening then depth (S d) ts'
      else if String.eqb (text t) closing then
        match d with
        | 0 => None
        | S d' => depth d' ts'
        end
      else depth d ts'
  end.

(** What a rule does to the brackets: [(n, m)] when it closes [n]
    brackets that were open before it and leaves [m] new ones open. *)
Definition then_effect (p q : nat * nat) : nat * nat :=
  if Nat.leb (fst q) (snd p) then (fst p, snd p - fst q + snd q)
  else (fst p + (fst q - snd p), snd q).

Definition same_effect (p : nat * nat) (o : option (nat * nat)) : bool :=
  match o with
  | Some q => Nat.eqb (fst p) (fst q) && Nat.eqb (snd p) (snd q)
  | None => false
  end.

Definition no_effect (o : option (nat * nat)) : option (nat * nat) :=
  match o with
  | Some (0, 0) => Some (0, 0)
  | _ => None
  end.

(** The effect of a rule, when all its derivations have the same one.
    A reference to a rule counts as balanced: [balanced_grammar] checks
    that every rule is. *)
Fixpoint effect (r : rule) : option (nat * nat) :=
  if terminal r then
    match r with
    | Str s =>
        Some (if String.eqb s opening then (0, 1)
              else if String.eqb s closing then (1, 0)
              else (0, 0))
    | _ =>
        if matches_text r opening || matches_text r closing then None
        else Some (0, 0)
    end
  else
    match r with
    | Sym _ => Some (0, 0)
    | Seq rs =>
        (fix go (l : list rule) : option (nat * nat) :=
           match l with
           | [] => Some (0, 0)
           | x :: l' =>
               match effect x, go l' with
               | Some p, Some q => Some (then_effect p q)
               | _, _ => None
               end
           end) rs
    | Choice rs =>
        match rs with
        | [] => Some (0, 0)
        | x :: l =>
            match effect x with
            | Some p =>
                if forallb (fun y => same_effect p (effect y)) l then Some p
                else None
            | None => None
            end
        end
    | Repeat x | Repeat1 x | Optional x => no_effect (effect x)
    | Prec _ x | PrecLeft x | Field _ x => effect x
    | _ => None
    end.

Definition balanced_grammar (g : grammar) : bool :=
  forallb (fun xr => same_effect (0, 0) (effect (snd xr))) (rules g).

End Brackets.

(* ================================================================== *)
(** * Field tags *)
(* ================================================================== *)

(** The field names a rule gives to its children. *)
Fixpoint field_names (r : rule) : list string :=
  match r with
  | Field fld x => fld :: field_names x
  | Seq rs | Choice rs => flat_map field_names rs
  | Repeat x | Repeat1 x | Optional x | Prec _ x | PrecLeft x =>
      field_names x
  | _ => []
  end.

(** The rules of a grammar that tag a child, each with its field names. *)
Definition tagging_rules (g : grammar) : list (string * list string) :=
  filter (fun xl => negb (is_nil (snd xl)))
         (map (fun xr => (fst xr, field_names (snd xr))) (rules g)).

(** The nodes of a forest that carry field tag [fld]. *)
Definition fields (fld : string) (f : forest) : list tree :=
  map snd
    (filter (fun c => match fst c with
                      | Some x => String.eqb x fld
                      | None => false
                      end) f).

Definition same_fields (a : list string) (o : option (list string)) : bool :=
  match o with
  | Some b => same_kinds a b
  | None => false
  end.

Definition no_fields (o : option (list string)) : option (list string) :=
  match o with
  | Some [] => Some []
  | _ => None
  end.

Section FieldKinds.

Variable fld : string.

(** The kinds of the children tagged [fld] among those a rule builds,
    when all its derivations agree on them. *)
Fixpoint field_kinds (r : rule) : option (list string) :=
  if terminal r then Some []
  else
    match r with
    | Sym x => if hidden x then None else Some []
    | Seq rs =>
        (fix go (l : list rule) : option (list string) :=
           match l with
           | [] => Some []
           | x :: l' =>
               match field_kinds x, go l' with
               | Some a, Some b => Some (a ++ b)
               | _, _ => None
               end
           end) rs
    | Choice rs =>
        match rs with
        | [] => Some []
        | x :: l =>
            match field_kinds x with
            | Some a =>
                if forallb (fun y => same_fields a (field_kinds y)) l
                then Some a else None
            | None => None
            end
        end
    | Repeat x | Repeat1 x | Optional x => no_fields (field_kinds x)
    | Prec _ x | PrecLeft x => field_kinds x
    | Field fld' x =>
        if String.eqb fld' fld then
          match x with
          | Sym y => if hidden y then None else Some [y]
          | _ => None
          end
        else field_kinds x
    | _ => None
    end.

End FieldKinds.

(* ================================================================== *)
(** * Lists with separators *)
(* ================================================================== *)

(** [ks] without its prefix [pre]. *)
Fixpoint strip (pre ks : list string) : option (list string) :=
  match pre, ks with
  | [], _ => Some ks
  | p :: pre', k :: ks' => if String.eqb k p then strip pre' ks' else None
  | _, [] => None
  end.

(** After an element: pairs of a separator and an element, then [post]. *)
Fixpoint items (sep e : string) (post ks : list string) : bool :=
  same_kinds ks post ||
  match ks with
  | s :: k :: ks' =>
      String.eqb s sep && String.eqb k e && items sep e post ks'
  | _ => false
  end.

(** The kinds [pre], then one element or more with a separator between
    two of them, then [post]. *)
Definition list_shape (pre : list string) (sep e : string)
  (post ks : list string) : bool :=
  match strip pre ks with
  | Some (k :: ks') => String.eqb k e && items sep e post ks'
  | _ => false
  end.

Record list_rule : Type := ListRule {
  list_name : string;
  before : list string;
  separator : string;
  element : string;
  after : list string
}.

(** The rules of [grammar.js] of the form
    [seq(before, element, repeat(seq(separator, element)), after)]. *)
Definition separated_lists : list list_rule := [
  ListRule "property_comp_types" [] "|" "property_comp_type" [];
  ListRule "constraint_insts" [] "," "identifier" [];
  ListRule "constraint_values" [] "," "constraint_value" [];
  ListRule "param_def" ["#"; "("] "," "param_def_elem" [")"];
  ListRule "param_inst" ["#"; "("] "," "param_elem" [")"];
  ListRule "array_literal_body" [] "," "constant_expression" [];
  ListRule "instance_ref" [] "." "instance_ref_element" [];
  ListRule "constant_concatenation" ["{"] "," "constant_expression" ["}"]
].

(* ================================================================== *)
(** * Primaries, references and dimensions *)
(* ================================================================== *)

(** The rules a [constant_primary] may hold, but the parenthesised
    expression. *)
Definition primaries : list string :=
  ["primary_literal"; "constant_concatenation";
   "constant_multiple_concatenation"; "constant_cast";
   "instance_or_prop_ref"; "struct_literal"; "array_literal"].

(** One node of a rule of [primaries], or an expression in parentheses. *)
Definition operand_kinds (ks : list string) : bool :=
  same_kinds ks ["("; "constant_expression"; ")"]
  || match ks with
     | [k] => mem k primaries
     | _ => false
     end.

(** An operand, after one unary operator at most. *)
Definition primary_shape (ks : list string) : bool :=
  match ks with
  | k :: ks' =>
      if String.eqb k "unary_operator" then operand_kinds ks'
      else operand_kinds ks
  | [] => false
  end.

(** The tokens [ts] are none, or start with one of the texts [l]. *)
Definition starts_with (l : list string) (ts : list token) : bool :=
  match ts with
  | [] => true
  | t :: _ => mem (text t) l
  end.

(** The text of the second token. *)
Definition second_text (ts : list token) : option string :=
  match ts with
  | _ :: t :: _ => Some (text t)
  | _ => None
  end.

(** One range, or one array dimension or more. *)
Definition dimensions_shape (ks : list string) : bool :=
  same_kinds ks ["range"]
  || (negb (is_nil ks) && forallb (String.eqb "array") ks).

(* ================================================================== *)
(** * References between rules *)
(* ================================================================== *)

(** The names a rule refers to. *)
Fixpoint symbols (r : rule) : list string :=
  match r with
  | Sym y => [y]
  | Seq rs | Choice rs => flat_map symbols rs
  | Repeat x | Repeat1 x | Optional x | Token x | Prec _ x | PrecLeft x
  | Field _ x => symbols x
  | _ => []
  end.

Definition defined (g : grammar) (y : string) : bool :=
  match find_rule g y with
  | Some _ => true
  | None => false
  end.

(** Every name the grammar uses -- in a rule, among the extras, in a
    conflict or as the word -- is the name of a rule. *)
Definition closed (g : grammar) : bool :=
  forallb (defined g)
    (flat_map (fun xr => symbols (snd xr)) (rules g)
     ++ flat_map symbols (extras g)
     ++ List.concat (conflicts g)
     ++ [word g]).

Fixpoint distinct (l : list string) : bool :=
  match l with
  | [] => true
  | x :: l' => negb (mem x l') && distinct l'
  end.

(** [reaches g x y]: rule [x] refers to rule [y], in some steps. *)
Inductive reaches (g : grammar) (x : string) : string -> Prop :=
| reaches_self : reaches g x x
| reaches_step y z b :
    reaches g x y -> find_rule g y = Some b -> In z (symbols b) ->
    reaches g x z.

(** The names of [seen], then those they refer to and [seen] does not
    hold. *)
Definition add_new (seen l : list string) : list string :=
  fold_left (fun acc y => if mem y acc then acc else acc ++ [y]) l seen.

Definition referred (g : grammar) (seen : list string) : list string :=
  flat_map (fun x => match find_rule g x with
                     | Some b => symbols b
                     | None => []
                     end) seen.

Definition reach_step (g : grammar) (seen : list string) : list string :=
  add_new seen (referred g seen).

Definition reachable (g : grammar) (x : string) : list string :=
  iterate (reach_step g) (List.length (rules g)) [x].

(** The rules that [source_file] refers to, in some steps. *)
Definition from_source_file : list string :=
  Eval vm_compute in reachable SystemRDL.systemrdl "source_file".

(* ================================================================== *)
(** * What a source file and a component body hold *)
(* ================================================================== *)

(** The alternatives of [_description] and of [component_body_elem]. *)
Definition description_kinds : list string :=
  ["component_def"; "enum_def"; "property_definition"; "struct_def";
   "constraint_def"; "explicit_component_inst"; "property_assignment"].

Definition body_elem_kinds : list string :=
  ["component_def"; "enum_def"; "struct_def"; "constraint_def";
   "explicit_component_inst"; "property_assignment"].

(** The children of a node: the kind of each and the number of tokens
    it covers. *)
Definition child_spans (t : tree) : list (string * nat) :=
  match t with
  | Node _ cs =>
      map (fun c => (kind_of (snd c), List.length (leaves (snd c)))) cs
  | _ => []
  end.

(* ================================================================== *)
(** * Facts about strings *)
(* ================================================================== *)

Module StrFacts.
Import Str.

Lemma app_nil_r (s : string) : s +++ "" = s.
Proof. induction s; simpl; congruence. Qed.

Lemma app_assoc (a b c : string) : (a +++ b) +++ c = a +++ (b +++ c).
Proof. induction a; simpl; congruence. Qed.

Lemma length_app (a b : string) :
  String.length (a +++ b) = String.length a + String.length b.
Proof. induction a; simpl; congruence. Qed.

Lemma app_eq_nil (a b : string) : a +++ b = "" -> a = "" /\ b = "".
Proof. destruct a; simpl; [auto | discriminate]. Qed.

Lemma take_drop (n : nat) (s : string) : take n s +++ drop n s = s.
Proof.
  revert s; induction n as [|n IH]; intros [|c s]; simpl; auto.
  now rewrite IH.
Qed.

Lemma length_drop (n : nat) (s : string) :
  String.length (drop n s) = String.length s - n.
Proof.
  revert s; induction n as [|n IH]; intros [|c s]; simpl; auto.
Qed.

Lemma cat_app (l1 l2 : list string) : cat (l1 ++ l2) = cat l1 +++ cat l2.
Proof.
  induction l1 as [|a l1 IH]; simpl; auto.
  now rewrite IH, app_assoc.
Qed.


End StrFacts.

(* ================================================================== *)
(** * Correctness of the matcher *)
(* ================================================================== *)

Module RegexFacts.
Import Regex.

Lemma lang_void s : ~ lang Void s.
Proof. intros H; inversion H. Qed.

Lemma lang_eps_inv s : lang Eps s -> s = "".
Proof. intros H; inversion H; auto. Qed.

Lemma lang_cat_inv a b s :
  lang (Cat a b) s -> exists s1 s2, s = s1 +++ s2 /\ lang a s1 /\ lang b s2.
Proof. intros H; inversion H; subst; eauto. Qed.

Lemma lang_alt_inv a b s : lang (Alt a b) s -> lang a s \/ lang b s.
Proof. intros H; inversion H; subst; auto. Qed.

Lemma lang_class_inv neg rs s :
  lang (Class neg rs) s ->
  exists c, s = String c "" /\ in_class neg rs c = true.
Proof. intros H; inversion H; subst; eauto. Qed.

Lemma lang_cat_iff a b s : lang (cat a b) s <-> lang (Cat a b) s.
Proof.
  split.
  - destruct a, b; simpl; intros H;
      try (exfalso; exact (lang_void H)); try exact H;
      change s with ("" +++ s); constructor; auto using L_eps.
  - intros H. apply lang_cat_inv in H as (s1 & s2 & -> & H1 & H2).
    destruct a; try (exfalso; exact (lang_void H1));
      destruct b; try (exfalso; exact (lang_void H2)); simpl;
      try (now constructor);
      apply lang_eps_inv in H1; subst; simpl; assumption.
Qed.

Lemma lang_alt_iff a b s : lang (alt a b) s <-> lang (Alt a b) s.
Proof.
  split.
  - destruct a, b; simpl; intros H;
      try exact H; try (apply L_alt_r; exact H); try (apply L_alt_l; exact H).
  - intros H. apply lang_alt_inv in H as [H | H];
      destruct a; try (exfalso; exact (lang_void H));
      destruct b; try (exfalso; exact (lang_void H)); simpl;
      auto using L_alt_l, L_alt_r.
Qed.

Lemma nullable_iff r : nullable r = true <-> lang r "".
Proof.
  induction r; simpl.
  - split; [discriminate | intros H; inversion H].
  - split; auto using L_eps.
  - split; [discriminate | intros H; inversion H].
  - rewrite andb_true_iff, IHr1, IHr2. split.
    + intros [H1 H2]. change "" with ("" +++ ""). now constructor.
    + intros H. apply lang_cat_inv in H as (s1 & s2 & E & H1 & H2).
      symmetry in E. apply StrFacts.app_eq_nil in E as [-> ->]. auto.
  - rewrite orb_true_iff, IHr1, IHr2. split.
    + intros [H | H]; auto using L_alt_l, L_alt_r.
    + apply lang_alt_inv.
  - split; auto using L_star_nil.
Qed.

(** A non-empty word of [Star a] starts with a non-empty word of [a]. *)
Lemma lang_star_cons_inv a c s :
  lang (Star a) (String c s) ->
  exists s1 s2, s = s1 +++ s2 /\ lang a (String c s1) /\ lang (Star a) s2.
Proof.
  intros H. remember (Star a) as r eqn:Er.
  remember (String c s) as w eqn:Ew.
  revert Er c s Ew.
  induction H; intros Er c' s' Ew; try discriminate.
  injection Er as ->.
  destruct s1 as [|d s1]; simpl in Ew.
  - apply IHlang2; auto.
  - injection Ew as <- <-. eauto.
Qed.

Lemma deriv_iff r : forall c s, lang (deriv c r) s <-> lang r (String c s).
Proof.
  induction r; intros c s; simpl.
  - split; intros H; inversion H.
  - split; intros H; inversion H.
  - destruct (in_class neg ranges c) eqn:E; split; intros H.
    + apply lang_eps_inv in H; subst. now constructor.
    + apply lang_class_inv in H as (d & [= -> ->] & _). constructor.
    + inversion H.
    + apply lang_class_inv in H as (d & [= -> ->] & H). congruence.
  - rewrite lang_alt_iff. split.
    + intros H. apply lang_alt_inv in H as [H | H].
      * apply lang_cat_iff, lang_cat_inv in H as (s1 & s2 & -> & H1 & H2).
        apply IHr1 in H1.
        change (String c (s1 +++ s2)) with (String c s1 +++ s2).
        now constructor.
      * destruct (nullable r1) eqn:N; [| inversion H].
        apply nullable_iff in N. apply IHr2 in H.
        change (String c s) with ("" +++ String c s). now constructor.
    + intros H. apply lang_cat_inv in H as (s1 & s2 & E & H1 & H2).
      destruct s1 as [|d s1]; simpl in E.
      * subst s2. apply L_alt_r.
        apply nullable_iff in H1. rewrite H1. now apply IHr2.
      * injection E as <- ->. apply L_alt_l, lang_cat_iff.
        constructor; auto. now apply IHr1.
  - rewrite lang_alt_iff. split; intros H.
    + apply lang_alt_inv in H as [H | H];
        [apply L_alt_l; now apply IHr1 | apply L_alt_r; now apply IHr2].
    + apply lang_alt_inv in H as [H | H];
        [apply L_alt_l; now apply IHr1 | apply L_alt_r; now apply IHr2].
  - rewrite lang_cat_iff. split; intros H.
    + apply lang_cat_inv in H as (s1 & s2 & -> & H1 & H2).
      apply IHr in H1.
      change (String c (s1 +++ s2)) with (String c s1 +++ s2).
      now constructor.
    + apply lang_star_cons_inv in H as (s1 & s2 & -> & H1 & H2).
      constructor; auto. now apply IHr.
Qed.

Theorem matches_iff r s : matches r s = true <-> lang r s.
Proof.
  revert r; induction s as [|c s IH]; intros r; simpl.
  - apply nullable_iff.
  - rewrite IH. apply deriv_iff.
Qed.

Lemma longest_le r s n : longest r s = Some n -> n <= String.length s.
Proof.
  revert r n; induction s as [|c s IH]; intros r n; simpl.
  - destruct (nullable r); intros [= <-]; lia.
  - destruct (longest (deriv c r) s) eqn:E.
    + intros [= <-]. apply IH in E. lia.
    + destruct (nullable r); intros [= <-]; lia.
Qed.

Lemma longest_matches r s n :
  longest r s = Some n -> matches r (Str.take n s) = true.
Proof.
  revert r n; induction s as [|c s IH]; intros r n; simpl.
  - destruct (nullable r) eqn:N; intros [= <-]; auto.
  - destruct (longest (deriv c r) s) eqn:E.
    + intros [= <-]. simpl. now apply IH.
    + destruct (nullable r) eqn:N; intros [= <-]; auto.
Qed.


End RegexFacts.

(* ================================================================== *)
(** * Lexical precedence *)
(* ================================================================== *)

Lemma accepts_iff g r t :
  accepts g r t = true
  <-> matches_text r (text t) = true /\ outranked g r (text t) = false.
Proof.
  unfold accepts. destruct (matches_text r (text t)); simpl.
  - rewrite negb_true_iff. tauto.
  - split; [discriminate | intros [H _]; discriminate H].
Qed.

Lemma accepts_matches g r t :
  accepts g r t = true -> matches_text r (text t) = true.
Proof. intros H. now apply accepts_iff in H. Qed.

(** What a terminal accepts depends on the text of the token only. *)
Lemma accepts_text g r t : accepts g r t = accepts g r (mk_token "" (text t)).
Proof. reflexivity. Qed.

(* ================================================================== *)
(** * The enumerator lists exactly the derivations *)
(* ================================================================== *)

Section ParseCorrect.

Variable g : grammar.

Lemma seq_results_defined xs k out :
  seq_results xs k = Some out ->
  forall x, In x xs -> exists ys, k (snd x) = Some ys.
Proof.
  revert out; induction xs as [|a xs IH]; simpl; intros out H x Hx.
  - contradiction.
  - destruct (k (snd a)) as [ys|] eqn:Ea; [| discriminate].
    destruct (seq_results xs k) as [zs|] eqn:Ez; [| discriminate].
    destruct Hx as [<- | Hx]; eauto.
Qed.

Lemma seq_results_in xs k out :
  seq_results xs k = Some out ->
  forall y, In y out <->
    exists x ys y', In x xs /\ k (snd x) = Some ys /\ In y' ys /\
                    y = prepend (fst x) y'.
Proof.
  revert out; induction xs as [|a xs IH]; simpl; intros out H y.
  - injection H as <-. split; [contradiction |].
    intros (x & ys & y' & [] & _).
  - destruct (k (snd a)) as [ys|] eqn:Ea; [| discriminate].
    destruct (seq_results xs k) as [zs|] eqn:Ez; [| discriminate].
    injection H as <-. rewrite in_app_iff, in_map_iff, (IH zs eq_refl).
    split.
    + intros [(y' & <- & Hy') | (x & ys' & y' & Hx & Hk & Hy' & ->)].
      * exists a, ys, y'. auto.
      * exists x, ys', y'. auto.
    + intros (x & ys' & y' & [<- | Hx] & Hk & Hy' & ->).
      * left. rewrite Ea in Hk. injection Hk as <-. eauto.
      * right. eauto 8.
Qed.

Lemma alts_defined os out :
  alts os = Some out -> forall o, In o os -> exists ys, o = Some ys.
Proof.
  revert out; induction os as [|a os IH]; simpl; intros out H o Ho.
  - contradiction.
  - destruct a as [ys|]; [| discriminate].
    destruct (alts os) as [zs|]; [| discriminate].
    destruct Ho as [<- | Ho]; eauto.
Qed.

Lemma alts_in os out :
  alts os = Some out ->
  forall y, In y out <-> exists ys, In (Some ys) os /\ In y ys.
Proof.
  revert out; induction os as [|a os IH]; simpl; intros out H y.
  - injection H as <-. split; [contradiction | intros (ys & [] & _)].
  - destruct a as [ys|]; [| discriminate].
    destruct (alts os) as [zs|]; [| discriminate].
    injection H as <-. rewrite in_app_iff, (IH zs eq_refl). split.
    + intros [Hy | (ys' & Ho & Hy)]; eauto.
    + intros (ys' & [[= <-] | Ho] & Hy); eauto.
Qed.

Lemma term_step_in k r ts f rest :
  In (f, rest) (term_step g k r ts) <->
  exists t, ts = t :: rest /\ accepts g r t = true /\ f = [(None, Leaf k t)].
Proof.
  unfold term_step. destruct ts as [|t ts'].
  - split; [contradiction | intros (t & [=] & _)].
  - destruct (accepts g r t) eqn:E; simpl.
    + split.
      * intros [[= <- <-] | []]. eauto.
      * intros (t' & [= <- <-] & _ & ->). auto.
    + split; [contradiction |].
      intros (t' & [= <- <-] & E' & _). congruence.
Qed.

(** A terminal derives one token, and builds one leaf. *)
Lemma derives_terminal r c f :
  terminal r = true -> derives g r c f ->
  exists t, c = [t] /\ accepts g r t = true /\ f = [(None, Leaf (label r) t)].
Proof.
  intros T H. destruct H; simpl in T; try discriminate; try congruence.
  eauto.
Qed.

Ltac invert_derivation D :=
  inversion D; subst; simpl in *; try discriminate; try congruence.

Theorem parse_spec n :
  forall r ts xs, parse g n r ts = Some xs ->
  forall f rest,
    In (f, rest) xs <-> exists c, ts = c ++ rest /\ derives g r c f.
Proof.
  induction n as [|n IH]; intros r ts xs H f rest; [discriminate |].
  simpl in H. destruct (terminal r) eqn:T.
  { injection H as <-. rewrite term_step_in. split.
    - intros (t & -> & A & ->). exists [t]. split; auto.
      now constructor.
    - intros (c & -> & D).
      destruct (derives_terminal T D) as (t & -> & A & ->).
      exists t. simpl. auto. }
  destruct r as [s | p | x | rs | rs | r1 | r1 | r1 | r1 | lv r1 | r1 | fld r1];
    simpl in T; try discriminate.
  - (* Sym *)
    destruct (find_rule g x) as [b|] eqn:F.
    2:{ injection H as <-. split; [contradiction |].
        intros (c & _ & D). invert_derivation D. }
    destruct (terminal b) eqn:Tb.
    { injection H as <-. rewrite term_step_in. split.
      - intros (t & -> & A & ->). exists [t]. split; auto.
        eapply D_leaf; eauto.
      - intros (c & -> & D).
        invert_derivation D.
        exists t. repeat split; congruence. }
    destruct (hidden x) eqn:Hx.
    + rewrite (IH _ _ _ H). split.
      * intros (c & -> & D). exists c. split; auto.
        eapply D_inline; eauto.
      * intros (c & -> & D). exists c. split; auto.
        invert_derivation D.
    + destruct (parse g n b ts) as [ys|] eqn:P; [| discriminate].
      injection H as <-. rewrite in_map_iff. split.
      * intros ([f' rest'] & [= <- <-] & Hy).
        apply (IH _ _ _ P) in Hy as (c & -> & D).
        exists c. split; auto. eapply D_node; eauto.
      * intros (c & -> & D).
        invert_derivation D.
        exists (f0, rest). split; auto.
        apply (IH _ _ _ P). exists c. split; auto. congruence.
  - (* Seq *)
    destruct rs as [|r1 rs].
    + injection H as <-. split.
      * intros [[= <- <-] | []]. exists []. split; auto. constructor.
      * intros (c & -> & D). invert_derivation D. simpl. auto.
    + destruct (parse g n r1 ts) as [xs1|] eqn:P1; [| discriminate].
      rewrite (seq_results_in _ _ H). split.
      * intros ([f1 mid] & ys & [f2 rest'] & Hx & Hk & Hy & E).
        unfold prepend in E; simpl in *. injection E as -> ->.
        apply (IH _ _ _ P1) in Hx as (c1 & -> & D1).
        apply (IH _ _ _ Hk) in Hy as (c2 & -> & D2).
        exists (c1 ++ c2). rewrite <- app_assoc. split; auto.
        now constructor.
      * intros (c & -> & D). invert_derivation D.
        assert (Hx : In (f1, ts2 ++ rest) xs1).
        { apply (IH _ _ _ P1). exists ts1. rewrite <- app_assoc. auto. }
        destruct (seq_results_defined _ _ H _ Hx) as (ys & Hk).
        exists (f1, ts2 ++ rest), ys, (f2, rest). repeat split; auto.
        apply (IH _ _ _ Hk). simpl. eauto.
  - (* Choice *)
    rewrite (alts_in _ H). split.
    + intros (ys & Ho & Hy). apply in_map_iff in Ho as (r & P & Hr).
      apply (IH _ _ _ P) in Hy as (c & -> & D).
      exists c. split; auto. econstructor; eauto.
    + intros (c & -> & D). invert_derivation D.
      assert (Ho : In (parse g n r (c ++ rest))
                      (map (fun x => parse g n x (c ++ rest)) rs)).
      { apply in_map_iff. eauto. }
      destruct (alts_defined _ H _ Ho) as (ys & P).
      exists ys. split; [congruence |].
      apply (IH _ _ _ P). eauto.
  - (* Repeat *)
    destruct (parse g n (Repeat1 r1) ts) as [ys|] eqn:P; [| discriminate].
    injection H as <-. rewrite in_app_iff. split.
    + intros [Hy | [[= <- <-] | []]].
      * apply (IH _ _ _ P) in Hy as (c & -> & D).
        exists c. split; auto. now apply D_repeat_some.
      * exists []. split; auto. constructor.
    + intros (c & -> & D). invert_derivation D.
      * right. simpl. auto.
      * left. apply (IH _ _ _ P). eauto.
  - (* Repeat1 *)
    destruct (parse g n r1 ts) as [xs1|] eqn:P1; [| discriminate].
    rewrite (seq_results_in _ _ H). split.
    + intros ([f1 mid] & ys & [f2 rest'] & Hx & Hk & Hy & E).
      unfold prepend in E; simpl in *. injection E as -> ->.
      apply (IH _ _ _ P1) in Hx as (c1 & -> & D1).
      apply (IH _ _ _ Hk) in Hy as (c2 & -> & D2).
      exists (c1 ++ c2). rewrite <- app_assoc. split; auto.
      now constructor.
    + intros (c & -> & D). invert_derivation D.
      assert (Hx : In (f1, ts2 ++ rest) xs1).
      { apply (IH _ _ _ P1). exists ts1. rewrite <- app_assoc. auto. }
      destruct (seq_results_defined _ _ H _ Hx) as (ys & Hk).
      exists (f1, ts2 ++ rest), ys, (f2, rest). repeat split; auto.
      apply (IH _ _ _ Hk). simpl. eauto.
  - (* Optional *)
    destruct (parse g n r1 ts) as [ys|] eqn:P; [| discriminate].
    injection H as <-. rewrite in_app_iff. split.
    + intros [Hy | [[= <- <-] | []]].
      * apply (IH _ _ _ P) in Hy as (c & -> & D).
        exists c. split; auto. now apply D_optional_some.
      * exists []. split; auto. constructor.
    + intros (c & -> & D). invert_derivation D.
      * right. simpl. auto.
      * left. apply (IH _ _ _ P). eauto.
  - (* Prec *)
    rewrite (IH _ _ _ H). split; intros (c & -> & D); exists c; split; auto.
    + now constructor.
    + invert_derivation D.
  - (* PrecLeft *)
    rewrite (IH _ _ _ H). split; intros (c & -> & D); exists c; split; auto.
    + now constructor.
    + invert_derivation D.
  - (* Field *)
    destruct (parse g n r1 ts) as [ys|] eqn:P; [| discriminate].
    injection H as <-. rewrite in_map_iff. split.
    + intros ([f' rest'] & [= <- <-] & Hy).
      apply (IH _ _ _ P) in Hy as (c & -> & D).
      exists c. split; auto. now constructor.
    + intros (c & -> & D). invert_derivation D.
      exists (f0, rest). split; auto.
      apply (IH _ _ _ P). eauto.
Qed.

End ParseCorrect.

(* ================================================================== *)
(** * The enumeration terminates *)
(* ================================================================== *)

Section Termination.

Variable g : grammar.
Variable nulls : list string.
Variable rk : string -> nat.

Local Abbreviation may_be_empty := (may_be_empty g nulls).
Local Abbreviation left_rank := (left_rank g nulls rk).
Local Abbreviation productive := (productive g nulls).
Local Abbreviation halts := (halts g).

Hypothesis WF : well_founded g nulls rk = true.

Lemma assoc_in x b l : assoc x l = Some b -> In (x, b) l.
Proof.
  induction l as [|[y r] l IH]; simpl; [discriminate |].
  destruct (String.eqb_spec x y) as [-> | _].
  - intros [= ->]. auto.
  - auto.
Qed.

Lemma find_rule_wf x b :
  find_rule g x = Some b ->
  productive b = true /\ left_rank b <= rk x /\
  (may_be_empty b = true -> mem x nulls = true).
Proof.
  intros F. apply assoc_in in F.
  unfold well_founded in WF. rewrite forallb_forall in WF.
  specialize (WF _ F). unfold well_founded_rule in WF. simpl in WF.
  apply andb_true_iff in WF as [WF W3].
  apply andb_true_iff in WF as [W1 W2].
  apply Nat.leb_le in W2. repeat split; auto.
  intros E. rewrite E in W3. exact W3.
Qed.

(** A rule that may not be empty consumes at least one token. *)
Lemma derives_consumes r ts f :
  derives g r ts f -> may_be_empty r = false -> ts <> [].
Proof.
  induction 1 as
    [ r t T A | x b t F T A | x b ts f F T Hx D IH | x b ts f F T Hx D IH
    | | r rs ts1 ts2 f1 f2 D1 IH1 D2 IH2 | r rs ts f Hr D IH
    | r | r ts f D IH | r ts1 ts2 f1 f2 D1 IH1 D2 IH2
    | r | r ts f D IH | n r ts f T D IH | r ts f T D IH
    | fld r ts f D IH ]; intros E; try discriminate.
  - simpl in E. rewrite F, T in E. simpl in E.
    apply IH. destruct (may_be_empty b) eqn:Eb; auto.
    destruct (find_rule_wf _ F) as (_ & _ & W).
    rewrite (W Eb) in E. discriminate.
  - simpl in E. rewrite F, T in E. simpl in E.
    apply IH. destruct (may_be_empty b) eqn:Eb; auto.
    destruct (find_rule_wf _ F) as (_ & _ & W).
    rewrite (W Eb) in E. discriminate.
  - simpl in E. apply andb_false_iff in E as [E | E].
    + specialize (IH1 E). destruct ts1; [congruence | discriminate].
    + assert (E' : may_be_empty (Seq rs) = false) by exact E.
      specialize (IH2 E'). destruct ts1, ts2; simpl; congruence.
  - simpl in E. apply IH. destruct (may_be_empty r) eqn:Er; auto.
    assert (X : existsb may_be_empty rs = true)
      by (apply existsb_exists; eauto).
    congruence.
  - assert (E' : may_be_empty r = false) by exact E.
    specialize (IH1 E'). destruct ts1; [congruence | discriminate].
  - apply IH. simpl in E. now rewrite T in E.
  - apply IH. simpl in E. now rewrite T in E.
  - apply IH. exact E.
Qed.

(** ** More fuel gives the same result *)

Lemma seq_results_mono xs (k1 k2 : list token -> option results) out :
  (forall ts ys, k1 ts = Some ys -> k2 ts = Some ys) ->
  seq_results xs k1 = Some out -> seq_results xs k2 = Some out.
Proof.
  intros K. revert out; induction xs as [|a xs IH]; simpl; intros out H; auto.
  destruct (k1 (snd a)) as [ys|] eqn:Ea; [| discriminate].
  destruct (seq_results xs k1) as [zs|] eqn:Ez; [| discriminate].
  now rewrite (K _ _ Ea), (IH _ eq_refl).
Qed.

Lemma alts_mono (A : Type) (l : list A) (k1 k2 : A -> option results) out :
  (forall a ys, k1 a = Some ys -> k2 a = Some ys) ->
  alts (map k1 l) = Some out -> alts (map k2 l) = Some out.
Proof.
  intros K. revert out; induction l as [|a l IH]; simpl; intros out H; auto.
  destruct (k1 a) as [ys|] eqn:Ea; [| discriminate].
  destruct (alts (map k1 l)) as [zs|] eqn:Ez; [| discriminate].
  now rewrite (K _ _ Ea), (IH _ eq_refl).
Qed.

Lemma parse_S n :
  forall r ts xs, parse g n r ts = Some xs -> parse g (S n) r ts = Some xs.
Proof.
  induction n as [|n IH]; intros r ts xs H; [discriminate |].
  simpl in H. change (parse g (S (S n)) r ts) with
    (if terminal r then Some (term_step g (label r) r ts)
     else
       match r with
       | Sym x =>
           match find_rule g x with
           | None => Some []
           | Some b =>
               if terminal b then Some (term_step g x b ts)
               else if hidden x then parse g (S n) b ts
               else option_map (map (wrap x)) (parse g (S n) b ts)
           end
       | Seq [] => Some [([], ts)]
       | Seq (r1 :: rs) =>
           match parse g (S n) r1 ts with
           | Some xs => seq_results xs (parse g (S n) (Seq rs))
           | None => None
           end
       | Choice rs => alts (map (fun x => parse g (S n) x ts) rs)
       | Repeat r1 =>
           option_map (fun xs => xs ++ [([], ts)])
             (parse g (S n) (Repeat1 r1) ts)
       | Repeat1 r1 =>
           match parse g (S n) r1 ts with
           | Some xs => seq_results xs (parse g (S n) (Repeat r1))
           | None => None
           end
       | Optional r1 =>
           option_map (fun xs => xs ++ [([], ts)]) (parse g (S n) r1 ts)
       | Prec _ r1 | PrecLeft r1 => parse g (S n) r1 ts
       | Field fld r1 =>
           option_map (map (tag_result fld)) (parse g (S n) r1 ts)
       | Str _ | Pat _ | Token _ => Some []
       end).
  destruct (terminal r); auto.
  destruct r as [s | p | x | rs | rs | r1 | r1 | r1 | r1 | lv r1 | r1 | fld r1];
    auto.
  - destruct (find_rule g x) as [b|]; auto.
    destruct (terminal b); auto.
    destruct (hidden x); auto.
    destruct (parse g n b ts) as [ys|] eqn:P; [| discriminate].
    now rewrite (IH _ _ _ P).
  - destruct rs as [|r1 rs]; auto.
    destruct (parse g n r1 ts) as [ys|] eqn:P; [| discriminate].
    rewrite (IH _ _ _ P). eapply seq_results_mono; [| exact H].
    intros ts' zs. apply IH.
  - eapply alts_mono; [| exact H]. intros a ys. apply IH.
  - destruct (parse g n (Repeat1 r1) ts) as [ys|] eqn:P; [| discriminate].
    now rewrite (IH _ _ _ P).
  - destruct (parse g n r1 ts) as [ys|] eqn:P; [| discriminate].
    rewrite (IH _ _ _ P). eapply seq_results_mono; [| exact H].
    intros ts' zs. apply IH.
  - destruct (parse g n r1 ts) as [ys|] eqn:P; [| discriminate].
    now rewrite (IH _ _ _ P).
  - destruct (parse g n r1 ts) as [ys|] eqn:P; [| discriminate].
    now rewrite (IH _ _ _ P).
Qed.

Lemma parse_mono n m r ts xs :
  n <= m -> parse g n r ts = Some xs -> parse g m r ts = Some xs.
Proof.
  induction 1; auto. intros P. apply parse_S. auto.
Qed.

Lemma halts_uniform r (xs : results) :
  (forall x, In x xs -> halts r (snd x)) ->
  exists n, forall x, In x xs -> exists ys, parse g n r (snd x) = Some ys.
Proof.
  induction xs as [|a xs IH]; intros H.
  - exists 0. intros x [].
  - destruct (H a (or_introl eq_refl)) as (n1 & ys & P).
    destruct IH as (n2 & IH); [intros; apply H; now right |].
    exists (Nat.max n1 n2). intros x [<- | Hx].
    + exists ys. eapply parse_mono; [| exact P]. lia.
    + destruct (IH _ Hx) as (zs & Q). exists zs.
      eapply parse_mono; [| exact Q]. lia.
Qed.

Lemma seq_results_total xs k :
  (forall x, In x xs -> exists ys, k (snd x) = Some ys) ->
  exists out, seq_results xs k = Some out.
Proof.
  induction xs as [|a xs IH]; intros H; simpl; eauto.
  destruct (H a (or_introl eq_refl)) as (ys & ->).
  destruct IH as (zs & ->); [intros; apply H; now right |]. eauto.
Qed.

Lemma halts_choice rs ts :
  (forall r, In r rs -> halts r ts) ->
  exists n out, alts (map (fun x => parse g n x ts) rs) = Some out.
Proof.
  induction rs as [|a rs IH]; intros H.
  - exists 0, []. reflexivity.
  - destruct (H a (or_introl eq_refl)) as (n1 & ys & P).
    destruct IH as (n2 & zs & Q); [intros; apply H; now right |].
    exists (Nat.max n1 n2), (ys ++ zs). simpl.
    rewrite (parse_mono (m := Nat.max n1 n2) a ts (Nat.le_max_l _ _) P).
    rewrite (alts_mono rs (fun x => parse g n2 x ts)
               (fun x => parse g (Nat.max n1 n2) x ts) (out := zs)); auto.
    intros r ys'. apply parse_mono. lia.
Qed.

(** What is left after a rule that consumes input is shorter. *)
Lemma parse_rest_length n r ts xs x :
  parse g n r ts = Some xs -> In x xs ->
  List.length (snd x) <= List.length ts /\
  (may_be_empty r = false -> List.length (snd x) < List.length ts).
Proof.
  intros P Hx. destruct x as [f rest].
  apply (parse_spec _ _ _ _ P) in Hx as (c & -> & D). simpl.
  rewrite length_app. split; [lia |].
  intros E. apply (derives_consumes D) in E.
  destruct c; [congruence | simpl; lia].
Qed.

(** Sequencing: the first rule halts, and the rest halts on whatever the
    first leaves. *)
Lemma halts_then r1 r2 ts :
  halts r1 ts ->
  (forall n xs x, parse g n r1 ts = Some xs -> In x xs -> halts r2 (snd x)) ->
  exists n xs out,
    parse g n r1 ts = Some xs /\ seq_results xs (parse g n r2) = Some out.
Proof.
  intros (n1 & xs & P) H.
  destruct (@halts_uniform r2 xs) as (n2 & U); [intros; eapply H; eauto |].
  destruct (@seq_results_total xs (parse g (Nat.max n1 n2) r2))
    as (out & Q).
  { intros x Hx. destruct (U _ Hx) as (ys & Y). exists ys.
    eapply parse_mono; [| exact Y]. lia. }
  exists (Nat.max n1 n2), xs, out. split; auto.
  eapply parse_mono; [| exact P]. lia.
Qed.

Lemma size_pos r : 1 <= size r.
Proof. destruct r; simpl; lia. Qed.

Lemma left_rank_choice r rs :
  In r rs -> left_rank r <= left_rank (Choice rs).
Proof.
  simpl. induction rs as [|a rs IH]; simpl; intros [].
  - subst. lia.
  - specialize (IH H). lia.
Qed.

Lemma size_choice r rs : In r rs -> size r <= list_sum (map size rs).
Proof.
  induction rs as [|a rs IH]; simpl; intros [].
  - subst. lia.
  - specialize (IH H). lia.
Qed.

Lemma halts_rule :
  forall L k s r ts,
    size r <= s -> productive r = true ->
    List.length ts <= L -> left_rank r <= k -> halts r ts.
Proof.
  induction L as [L IHL] using lt_wf_ind.
  induction k as [k IHk] using lt_wf_ind.
  induction s as [|s IHs]; intros r ts Hs Hp HL Hk.
  { pose proof (size_pos r). lia. }
  (* a repetition of at least one [r1] *)
  assert (R1 : forall r1, size r1 <= s -> productive (Repeat1 r1) = true ->
               left_rank r1 <= k -> halts (Repeat1 r1) ts).
  { intros r1 Hs1 Hp1 Hk1. simpl in Hp1.
    apply andb_true_iff in Hp1 as [Hn Hp1]. apply negb_true_iff in Hn.
    destruct (@halts_then r1 (Repeat r1) ts) as (n & xs & out & P & Q).
    - apply IHs; auto.
    - intros n xs x P Hx.
      destruct (parse_rest_length _ _ _ _ P Hx) as [_ Hlt].
      specialize (Hlt Hn).
      apply (IHL (List.length (snd x))) with
        (k := left_rank (Repeat r1)) (s := size (Repeat r1)); auto; try lia.
      simpl. now rewrite Hn, Hp1.
    - exists (S n), out. simpl. now rewrite P. }
  destruct (terminal r) eqn:T.
  { exists 1, (term_step g (label r) r ts). simpl. now rewrite T. }
  destruct r as [s0 | p | x | rs | rs | r1 | r1 | r1 | r1 | lv r1 | r1 | fld r1];
    simpl in T; try discriminate.
  - (* Sym *)
    destruct (find_rule g x) as [b|] eqn:F.
    2:{ exists 1, []. simpl. now rewrite F. }
    destruct (terminal b) eqn:Tb.
    { exists 1, (term_step g x b ts). simpl. now rewrite F, Tb. }
    destruct (find_rule_wf _ F) as (Wp & Wr & _).
    simpl in Hk. rewrite F, Tb in Hk.
    destruct (IHk (rk x) ltac:(lia) (size b) b ts) as (n & xs & P); auto.
    destruct (hidden x) eqn:Hx.
    + exists (S n), xs. simpl. now rewrite F, Tb, Hx.
    + exists (S n), (map (wrap x) xs). simpl. now rewrite F, Tb, Hx, P.
  - (* Seq *)
    destruct rs as [|r1 rs].
    { exists 1, [([], ts)]. reflexivity. }
    simpl in Hs, Hp, Hk. apply andb_true_iff in Hp as [Hp1 Hp2].
    pose proof (size_pos r1).
    destruct (@halts_then r1 (Seq rs) ts) as (n & xs & out & P & Q).
    + apply IHs; auto; lia.
    + intros n xs x P Hx.
      destruct (parse_rest_length _ _ _ _ P Hx) as [Hle Hlt].
      destruct (may_be_empty r1) eqn:E.
      * apply IHs; auto; simpl; try lia.
      * specialize (Hlt eq_refl).
        apply (IHL (List.length (snd x))) with
          (k := left_rank (Seq rs)) (s := size (Seq rs)); auto; lia.
    + exists (S n), out. simpl. now rewrite P.
  - (* Choice *)
    simpl in Hs, Hp.
    destruct (@halts_choice rs ts) as (n & out & P).
    + intros r Hr. apply IHs; auto.
      * pose proof (size_choice _ _ Hr). lia.
      * rewrite forallb_forall in Hp. auto.
      * pose proof (left_rank_choice _ _ Hr). lia.
    + exists (S n), out. exact P.
  - (* Repeat *)
    destruct (R1 r1) as (n & xs & P); auto.
    + simpl in Hs. lia.
    + exists (S n), (xs ++ [([], ts)]). simpl. now rewrite P.
  - (* Repeat1 *)
    apply R1; auto. simpl in Hs. lia.
  - (* Optional *)
    destruct (IHs r1 ts) as (n & xs & P); auto.
    + simpl in Hs. lia.
    + exists (S n), (xs ++ [([], ts)]). simpl. now rewrite P.
  - (* Prec *)
    destruct (IHs r1 ts) as (n & xs & P); auto.
    + simpl in Hs. lia.
    + simpl in Hp. now rewrite T in Hp.
    + simpl in Hk. now rewrite T in Hk.
    + exists (S n), xs. simpl. now rewrite T.
  - (* PrecLeft *)
    destruct (IHs r1 ts) as (n & xs & P); auto.
    + simpl in Hs. lia.
    + simpl in Hp. now rewrite T in Hp.
    + simpl in Hk. now rewrite T in Hk.
    + exists (S n), xs. simpl. now rewrite T.
  - (* Field *)
    destruct (IHs r1 ts) as (n & xs & P); auto.
    + simpl in Hs. lia.
    + exists (S n), (map (tag_result fld) xs). simpl. now rewrite P.
Qed.

Theorem parse_halts r ts :
  productive r = true ->
  exists n, forall m, n <= m -> exists xs, parse g m r ts = Some xs.
Proof.
  intros Hp.
  destruct (@halts_rule (List.length ts) (left_rank r) (size r) r ts)
    as (n & xs & P); auto.
  exists n. intros m Hm. exists xs. eapply parse_mono; eauto.
Qed.

End Termination.

Lemma systemrdl_well_founded :
  well_founded SystemRDL.systemrdl SystemRDL_Tables.nulls SystemRDL_Tables.rank
  = true.
Proof. vm_compute. reflexivity. Qed.

(* ================================================================== *)
(** * The tree covers the input *)
(* ================================================================== *)

Lemma leaves_Node k cs :
  leaves (Node k cs) = leaves_forest cs.
Proof. reflexivity. Qed.

Lemma leaves_forest_app f1 f2 :
  leaves_forest (f1 ++ f2) = leaves_forest f1 ++ leaves_forest f2.
Proof. unfold leaves_forest. now rewrite flat_map_app. Qed.

Lemma leaves_forest_tag fld f :
  leaves_forest (map (tag fld) f) = leaves_forest f.
Proof.
  unfold leaves_forest. induction f as [|[o t] f IH]; simpl; auto.
  rewrite IH. unfold tag. simpl. now destruct o.
Qed.

Lemma cat_flat_map (A : Type) (h : A -> list token) (l : list A) :
  Str.cat (map token_source (flat_map h l)) =
  Str.cat (map (fun a => Str.cat (map token_source (h a))) l).
Proof.
  induction l as [|a l IH]; simpl; auto.
  now rewrite map_app, StrFacts.cat_app, IH.
Qed.

(** The text of a tree is the text of its leaves. *)
Lemma yield_leaves :
  forall t : tree, yield t = Str.cat (map token_source (leaves t)).
Proof.
  fix IH 1. intros [k tok | k cs | skipped]; simpl.
  - now rewrite StrFacts.app_nil_r.
  - rewrite cat_flat_map. f_equal.
    induction cs as [|c cs IHcs]; simpl; auto.
    now rewrite IHcs, IH.
  - reflexivity.
Qed.

Section Coverage.

Variable g : grammar.
Local Abbreviation recovered := (recovered g).

(** ** The lexer loses no character *)

Lemma scan_covers n :
  forall s, String.length s <= n -> Str.cat (map snd (scan g n s)) = s.
Proof.
  induction n as [|n IH]; intros s H.
  - destruct s; [reflexivity | simpl in H; lia].
  - destruct s as [|c s]; [reflexivity |].
    cbn [scan]. set (len := Nat.max 1 _).
    cbn [map snd Str.cat fold_right].
    change (fold_right String.append "") with Str.cat.
    rewrite IH; [apply StrFacts.take_drop |].
    assert (Hl : 1 <= len) by apply Nat.le_max_l.
    rewrite StrFacts.length_drop. cbn [String.length] in *. lia.
Qed.

Lemma attach_covers l :
  forall pending ts e,
    attach pending l = (ts, e) ->
    Str.cat (map token_source ts) +++ token_source e
    = pending +++ Str.cat (map snd l) /\ text e = "".
Proof.
  induction l as [|[[] w] l IH]; simpl; intros pending ts e H.
  - injection H as <- <-. unfold token_source. simpl.
    now rewrite !StrFacts.app_nil_r.
  - apply IH in H as [H1 H2]. now rewrite H1, StrFacts.app_assoc.
  - destruct (attach "" l) as [ts' e'] eqn:E. injection H as <- <-.
    apply IH in E as [H1 H2]. simpl in *.
    unfold token_source at 1. simpl.
    now rewrite !StrFacts.app_assoc, H1.
Qed.

Theorem lex_covers s ts e :
  lex g s = (ts, e) ->
  Str.cat (map token_source (ts ++ [e])) = s.
Proof.
  unfold lex. intros H. apply attach_covers in H as [H _].
  rewrite map_app, StrFacts.cat_app. simpl. rewrite StrFacts.app_nil_r, H.
  simpl. now apply scan_covers.
Qed.

(** ** A derivation puts every token it consumes at a leaf *)

Lemma derives_leaves r ts f :
  derives g r ts f -> leaves_forest f = ts.
Proof.
  induction 1; simpl; auto;
    try (rewrite leaves_forest_app; congruence).
  - unfold leaves_forest. simpl. now rewrite app_nil_r.
  - now rewrite leaves_forest_tag.
Qed.

(** ** Recovery *)

Lemma recovered_flush body pending f ts :
  recovered body f ts ->
  recovered body (flush pending ++ f) (pending ++ ts).
Proof.
  intros H. destruct pending as [|t p]; simpl; auto.
  change (t :: p ++ ts) with ((t :: p) ++ ts).
  constructor; auto. discriminate.
Qed.

Lemma recovered_leaves body f ts :
  recovered body f ts -> leaves_forest f = ts.
Proof.
  induction 1; simpl; auto.
  - unfold leaves_forest in *. simpl. congruence.
  - rewrite leaves_forest_app, (derives_leaves H). congruence.
Qed.

Lemma recover_ok budget body :
  find_rule g (start g) = Some body ->
  forall n pending ts,
    (forall ts', is_suffix ts' ts ->
                 exists xs, parse g budget body ts' = Some xs) ->
    List.length ts <= n ->
    exists f, recover g budget n pending ts = Ok f /\
              recovered body f (pending ++ ts).
Proof.
  intros F. induction n as [|n IH]; intros pending ts Hd Hn.
  - destruct ts; [| simpl in Hn; lia]. simpl.
    exists (flush pending). split; auto.
    rewrite <- (app_nil_r (flush pending)). apply recovered_flush.
    constructor.
  - destruct ts as [|t ts].
    { simpl. exists (flush pending). split; auto.
      rewrite <- (app_nil_r (flush pending)). apply recovered_flush.
      constructor. }
    assert (Skip : exists f, recover g budget n (pending ++ [t]) ts = Ok f /\
                             recovered body f (pending ++ t :: ts)).
    { destruct (IH (pending ++ [t]) ts) as (f & R & C).
      - intros ts' (p & ->). apply Hd. exists (t :: p). reflexivity.
      - simpl in Hn. lia.
      - exists f. split; auto. now rewrite <- app_assoc in C. }
    cbn [recover]. rewrite F.
    destruct (Hd (t :: ts)) as (xs & P); [exists []; reflexivity |].
    rewrite P. destruct xs as [|[f rest] xs]; auto.
    destruct (Nat.ltb_spec (List.length rest) (List.length (t :: ts)))
      as [Hlt | _]; auto.
    assert (Hx : In (f, rest) ((f, rest) :: xs)) by now left.
    apply (parse_spec _ _ _ _ P) in Hx as (c & E & D).
    destruct (IH [] rest) as (f' & R & C).
    + intros ts' (p & ->). apply Hd. exists (c ++ p).
      now rewrite E, app_assoc.
    + simpl in Hn, Hlt. lia.
    + rewrite R. exists (flush pending ++ f ++ f'). split; auto.
      rewrite E. apply recovered_flush. constructor; auto.
Qed.

Lemma recover_mono b b' :
  b <= b' ->
  forall n pending ts f,
    recover g b n pending ts = Ok f -> recover g b' n pending ts = Ok f.
Proof.
  intros Hb. induction n as [|n IH]; intros pending ts f;
    destruct ts as [|t ts]; simpl; auto.
  destruct (find_rule g (start g)) as [body|]; auto.
  destruct (parse g b body (t :: ts)) as [xs|] eqn:P; [| discriminate].
  rewrite (parse_mono _ _ _ Hb P).
  destruct xs as [|[f0 rest] xs]; auto.
  destruct (Nat.ltb (List.length rest) (S (List.length ts))); auto.
  destruct (recover g b n [] rest) as [f'|] eqn:R; [| discriminate].
  now rewrite (IH _ _ _ R).
Qed.

Lemma parse_tokens_mono b b' ts e t :
  b <= b' -> parse_tokens g b ts e = Ok t -> parse_tokens g b' ts e = Ok t.
Proof.
  intros Hb. unfold parse_tokens.
  destruct (parse g b (Sym (start g)) ts) as [xs|] eqn:P; [| discriminate].
  rewrite (parse_mono _ _ _ Hb P).
  assert (R : forall t,
    match recover g b (List.length ts) [] ts with
    | Ok f => Ok (Node (start g) (f ++ [end_leaf e]))
    | ResourceExceeded => ResourceExceeded
    end = Ok t ->
    match recover g b' (List.length ts) [] ts with
    | Ok f => Ok (Node (start g) (f ++ [end_leaf e]))
    | ResourceExceeded => ResourceExceeded
    end = Ok t).
  { intros t0. destruct (recover g b _ [] ts) as [f|] eqn:R; [| discriminate].
    now rewrite (recover_mono Hb _ _ _ R). }
  destruct (first_complete xs) as [[|[[] []] []]|]; auto.
Qed.

Lemma first_complete_in xs f :
  first_complete xs = Some f -> In (f, []) xs.
Proof.
  induction xs as [|[f0 [|t rest]] xs IH]; simpl; try discriminate.
  - intros [= ->]. auto.
  - auto.
Qed.

(** ** Every input has a tree *)

Section Total.

Variable nulls : list string.
Variable rk : string -> nat.
Hypothesis WF : well_founded g nulls rk = true.

Variable body : rule.
Hypothesis start_rule : find_rule g (start g) = Some body.
Hypothesis start_node : terminal body = false.
Hypothesis start_visible : hidden (start g) = false.

Lemma suffixes_halt ts :
  exists n, forall ts', is_suffix ts' ts ->
            exists xs, parse g n body ts' = Some xs.
Proof.
  assert (Hp : productive g nulls body = true)
    by apply (find_rule_wf g nulls rk WF _ start_rule).
  induction ts as [|t ts IH].
  - destruct (parse_halts g nulls rk WF body [] Hp) as (n & H).
    exists n. intros ts' (p & E).
    symmetry in E. apply app_eq_nil in E as [_ ->]. auto.
  - destruct IH as (n1 & H1).
    destruct (parse_halts g nulls rk WF body (t :: ts) Hp) as (n2 & H2).
    exists (Nat.max n1 n2). intros ts' (p & E).
    destruct p as [|t' p]; simpl in E.
    + subst ts'. apply H2. lia.
    + injection E as _ E.
      destruct (H1 ts') as (xs & P); [now exists p |].
      exists xs. eapply parse_mono; [| exact P]. lia.
Qed.

Theorem parse_tokens_total ts e :
  exists budget f,
    recovered body f ts /\
    forall k, parse_tokens g (budget + k) ts e
              = Ok (Node (start g) (f ++ [end_leaf e])).
Proof.
  destruct (parse_halts g nulls rk WF (Sym (start g)) ts eq_refl) as (n1 & H1).
  destruct (suffixes_halt ts) as (n2 & H2).
  set (b := Nat.max n1 n2).
  assert (X : exists f, recovered body f ts /\
      parse_tokens g b ts e = Ok (Node (start g) (f ++ [end_leaf e]))).
  { unfold parse_tokens.
    destruct (H1 b) as (xs & P); [unfold b; lia |]. rewrite P.
    destruct (@recover_ok b body start_rule (List.length ts) [] ts)
      as (f & R & C); auto.
    { intros ts' Hs. destruct (H2 _ Hs) as (ys & Q). exists ys.
      eapply parse_mono; [| exact Q]. unfold b; lia. }
    assert (Rec : exists f0, recovered body f0 ts /\
      match recover g b (List.length ts) [] ts with
      | Ok f => Ok (Node (start g) (f ++ [end_leaf e]))
      | ResourceExceeded => ResourceExceeded
      end = Ok (Node (start g) (f0 ++ [end_leaf e]))).
    { exists f. rewrite R. auto. }
    destruct (first_complete xs) as [f0|] eqn:FC; auto.
    apply first_complete_in in FC.
    apply (parse_spec _ _ _ _ P) in FC as (c & E & D).
    rewrite app_nil_r in E. subst c.
    inversion D; subst; simpl in *; try discriminate; try congruence.
    exists f1. split; auto.
    rewrite <- (app_nil_r f1), <- (app_nil_r ts).
    constructor; [congruence | constructor]. }
  destruct X as (f & C & P). exists b, f. split; auto.
  intros k. eapply parse_tokens_mono; [| exact P]. lia.
Qed.

End Total.

End Coverage.

(* ================================================================== *)
(** * Number literals *)
(* ================================================================== *)

Module NumberLiteralFacts.
Import Regex RegexFacts Patterns NumberLiteral.

(** ** The regular expression of [number] recognises these forms *)

Lemma matches_Void s : matches Void s = false.
Proof. induction s; simpl; auto. Qed.

Lemma matches_Eps s : matches Eps s = match s with "" => true | _ => false end.
Proof. destruct s; simpl; auto using matches_Void. Qed.

Lemma alt_Void_r a : alt a Void = a.
Proof. now destruct a. Qed.

Lemma cat_Eps_l a : cat Eps a = a.
Proof. now destruct a. Qed.

Lemma matches_Alt a b s : matches (Alt a b) s = matches a s || matches b s.
Proof.
  apply eq_true_iff_eq.
  rewrite orb_true_iff, !matches_iff. split.
  - apply lang_alt_inv.
  - intros [H | H]; auto using L_alt_l, L_alt_r.
Qed.

Lemma matches_Cat_Class neg rs r s :
  matches (Cat (Class neg rs) r) s =
  match s with
  | String c s' => in_class neg rs c && matches r s'
  | "" => false
  end.
Proof.
  destruct s as [|c s]; [reflexivity |].
  cbn [matches deriv nullable]. rewrite alt_Void_r.
  destruct (in_class neg rs c); cbn [andb].
  - now rewrite cat_Eps_l.
  - apply matches_Void.
Qed.

Lemma in_range_single x c : in_range c (x, x) = Ascii.eqb c x.
Proof.
  unfold in_range. simpl.
  destruct (Ascii.eqb_spec c x) as [-> | N].
  - now rewrite Nat.leb_refl.
  - apply andb_false_iff.
    destruct (Nat.leb_spec (nat_of_ascii x) (nat_of_ascii c)); auto.
    destruct (Nat.leb_spec (nat_of_ascii c) (nat_of_ascii x)); auto.
    exfalso. apply N.
    rewrite <- (ascii_nat_embedding c), <- (ascii_nat_embedding x).
    f_equal. lia.
Qed.

Section Digits.

Variable rs : list (ascii * ascii).
Let d (c : ascii) : bool := in_class false rs c.
Hypothesis underscore_no_digit : d "_" = false.

Let tail : re := Star (Cat (Opt (Chr "_")) (Class false rs)).

Lemma underscore_class c :
  in_class false [("_", "_")]%char c = Ascii.eqb c "_".
Proof.
  unfold in_class. simpl. now rewrite in_range_single, orb_false_r.
Qed.

Lemma deriv_tail c :
  deriv c tail =
  if d c then tail
  else if Ascii.eqb c "_" then digits (Class false rs) else Void.
Proof.
  unfold tail at 1. cbn [deriv nullable Opt Chr orb andb].
  rewrite underscore_class. fold (d c).
  destruct (Ascii.eqb_spec c "_") as [-> | N].
  - rewrite underscore_no_digit. reflexivity.
  - destruct (d c); reflexivity.
Qed.

Lemma head_digit_redundant s :
  starts_with_digit d s && separated_from d false s
  = separated_from d false s.
Proof.
  destruct s as [|c s]; simpl; auto.
  destruct (d c); simpl; auto.
  destruct (Ascii.eqb c "_"); auto.
Qed.

Lemma matches_digits s :
  matches (digits (Class false rs)) s = separated_from d false s
  /\ matches tail s = separated_from d true s.
Proof.
  induction s as [|c s [IH0 IH1]]; [split; reflexivity |].
  split.
  - unfold digits. rewrite matches_Cat_Class. fold tail. fold (d c).
    cbn [separated_from]. destruct (d c); simpl; auto.
    now destruct (Ascii.eqb c "_").
  - cbn [matches separated_from]. rewrite deriv_tail.
    destruct (d c); auto.
    destruct (Ascii.eqb c "_"); simpl.
    + now rewrite head_digit_redundant.
    + apply matches_Void.
Qed.

End Digits.

Lemma separated_from_ext (d1 d2 : ascii -> bool) :
  (forall c, d1 c = d2 c) ->
  forall s b, separated_from d1 b s = separated_from d2 b s.
Proof.
  intros E. induction s as [|c s IH]; intros b; simpl; auto.
  rewrite E, !IH. destruct s; simpl; now rewrite ?E.
Qed.

Lemma matches_digits_class rs (d : ascii -> bool) s :
  (forall c, in_class false rs c = d c) -> d "_"%char = false ->
  matches (digits (Class false rs)) s = separated d s.
Proof.
  intros E U. unfold separated.
  rewrite <- (separated_from_ext _ _ E).
  apply matches_digits. now rewrite E.
Qed.

Lemma hex_class c : in_class false [("0", "9"); ("a", "f"); ("A", "F")]%char c = is_hex c.
Proof.
  unfold in_class, is_hex, between, in_range. simpl.
  now rewrite orb_false_r, orb_assoc.
Qed.

Lemma one_range_class lo hi c : in_class false [(lo, hi)] c = between lo hi c.
Proof.
  unfold in_class, between, in_range. simpl. now rewrite orb_false_r.
Qed.

Lemma single_class a c : in_class false [(a, a)] c = Ascii.eqb c a.
Proof.
  unfold in_class. simpl. now rewrite in_range_single, orb_false_r.
Qed.

Lemma one_of_class a b c :
  in_class false [(a, a); (b, b)] c = Ascii.eqb c a || Ascii.eqb c b.
Proof.
  unfold in_class. simpl. now rewrite !in_range_single, orb_false_r.
Qed.

Lemma prefix_nil s : String.prefix "" s = true.
Proof. now destruct s. Qed.

Lemma prefix_cons a s c t :
  String.prefix (String a s) (String c t) = Ascii.eqb c a && String.prefix s t.
Proof.
  simpl. destruct (ascii_dec a c) as [-> | N].
  - now rewrite Ascii.eqb_refl.
  - destruct (Ascii.eqb_spec c a); [congruence | reflexivity].
Qed.

(** A prefixed form, as the regular expression spells it. *)
Lemma matches_prefixed (a b : ascii) rs (d : ascii -> bool) s :
  (forall c, in_class false rs c = d c) -> d "_"%char = false ->
  matches (Cat (Chr "0") (Cat (one_of a b) (digits (Class false rs)))) s
  = with_prefix (String "0" (String a "")) d s
    || with_prefix (String "0" (String b "")) d s.
Proof.
  intros E U. unfold Chr, one_of, with_prefix.
  rewrite matches_Cat_Class.
  destruct s as [|c0 s]; [reflexivity |].
  rewrite single_class, !prefix_cons, matches_Cat_Class.
  destruct s as [|c1 s].
  { now rewrite !andb_false_r. }
  rewrite one_of_class, (@matches_digits_class rs d s E U), !prefix_cons.
  rewrite prefix_nil. cbn [String.length Str.drop].
  destruct (Ascii.eqb c0 "0"), (Ascii.eqb c1 a), (Ascii.eqb c1 b),
    (separated d s); reflexivity.
Qed.

Theorem number_forms s : matches number s = number_form s.
Proof.
  unfold number, number_form, hexdigit, bindigit, octdigit, decdigit.
  rewrite !matches_Alt.
  rewrite (@matches_prefixed "x" "X" _ is_hex s hex_class eq_refl).
  rewrite (@matches_prefixed "b" "B" _ is_bin s (one_range_class _ _) eq_refl).
  rewrite (@matches_prefixed "o" "O" _ is_oct s (one_range_class _ _) eq_refl).
  rewrite (@matches_digits_class _ is_dec s (one_range_class _ _) eq_refl).
  now rewrite !orb_assoc.
Qed.

(** A number is no word: it starts with a digit. *)
Lemma digit_no_word c s :
  is_dec c = true -> matches identifier (String c s) = false.
Proof.
  intros D. unfold identifier. rewrite matches_Cat_Class.
  apply andb_false_iff. left.
  unfold in_class. rewrite xorb_false_l. cbn [existsb].
  rewrite in_range_single, orb_false_r.
  unfold is_dec, between in D. apply andb_true_iff in D as [D1 D2].
  apply Nat.leb_le in D1, D2.
  change (nat_of_ascii "0") with 48 in D1.
  change (nat_of_ascii "9") with 57 in D2.
  unfold in_range. cbn [fst snd].
  change (nat_of_ascii "A") with 65. change (nat_of_ascii "a") with 97.
  destruct (Nat.leb_spec 65 (nat_of_ascii c)); [lia |].
  destruct (Nat.leb_spec 97 (nat_of_ascii c)); [lia |].
  destruct (Ascii.eqb_spec c "_") as [-> | _]; [| reflexivity].
  change (nat_of_ascii "_") with 95 in D2. lia.
Qed.

Lemma number_starts_with_digit s :
  number_form s = true -> starts_with_digit is_dec s = true.
Proof.
  intros H. destruct s as [|c s]; [discriminate |].
  unfold number_form, with_prefix in H. rewrite !prefix_cons in H.
  repeat (apply orb_true_iff in H as [H | H]).
  1-6: apply andb_true_iff in H as [H _];
       apply andb_true_iff in H as [H _];
       apply Ascii.eqb_eq in H as ->; reflexivity.
  unfold separated in H. simpl in H. simpl.
  destruct (is_dec c); [reflexivity |].
  now destruct (Ascii.eqb c "_").
Qed.

Lemma number_no_word s : number_form s = true -> matches identifier s = false.
Proof.
  intros H. apply number_starts_with_digit in H.
  destruct s as [|c s]; [discriminate |]. now apply digit_no_word.
Qed.

End NumberLiteralFacts.

(** A literal matches its own text only. *)
Lemma lang_Lit p s : Regex.lang (Regex.Lit p) s <-> s = p.
Proof.
  revert s; induction p as [|c p IH]; intros s; simpl.
  - split; [apply RegexFacts.lang_eps_inv | intros ->; constructor].
  - split.
    + intros H.
      apply RegexFacts.lang_cat_inv in H as (s1 & s2 & -> & H1 & H2).
      apply IH in H2 as ->.
      apply RegexFacts.lang_class_inv in H1 as (d & -> & H1).
      rewrite NumberLiteralFacts.single_class in H1.
      apply Ascii.eqb_eq in H1. now subst.
    + intros ->.
      apply (@Regex.L_cat _ _ (String c "") p); [| now apply IH].
      apply Regex.L_class.
      now rewrite NumberLiteralFacts.single_class, Ascii.eqb_refl.
Qed.

Lemma literal_text g s t : accepts g (Str s) t = true -> text t = s.
Proof.
  intros A. apply accepts_matches in A. unfold matches_text in A.
  simpl in A. now apply RegexFacts.matches_iff, lang_Lit in A.
Qed.

Lemma mem_In x l : mem x l = true <-> In x l.
Proof.
  unfold mem. rewrite existsb_exists. split.
  - intros (y & H & E). apply String.eqb_eq in E. now subst.
  - intros H. exists x. split; [exact H | apply String.eqb_refl].
Qed.

(** ** Lexical precedence in [grammar.js] *)

(** One terminal carries a lexical precedence: [identifier]. *)
Lemma ranked_systemrdl :
  ranked_terminals SystemRDL.systemrdl
  = [Token (Prec 2 (Pat Patterns.identifier))].
Proof. vm_compute. reflexivity. Qed.

Lemma outranked_systemrdl r s :
  outranked SystemRDL.systemrdl r s
  = if Nat.ltb (precedence r) 2
    then Regex.matches Patterns.identifier s else false.
Proof.
  unfold outranked. rewrite ranked_systemrdl. cbn [existsb].
  rewrite orb_false_r. reflexivity.
Qed.

(** A terminal without precedence accepts what it matches, but words. *)
Lemma accepts_plain r t :
  precedence r = 0 ->
  accepts SystemRDL.systemrdl r t
  = matches_text r (text t)
    && negb (Regex.matches Patterns.identifier (text t)).
Proof.
  intros P. unfold accepts. rewrite outranked_systemrdl, P.
  now destruct (matches_text r (text t)).
Qed.

Lemma accepts_identifier t :
  accepts SystemRDL.systemrdl (Token (Prec 2 (Pat Patterns.identifier))) t
  = Regex.matches Patterns.identifier (text t).
Proof.
  unfold accepts. rewrite outranked_systemrdl.
  cbn [precedence rank matches_text lexical Nat.ltb Nat.leb].
  now destruct (Regex.matches Patterns.identifier (text t)).
Qed.

(** A text that does not start like a word is no word. *)
Lemma no_word_first c s :
  Regex.in_class false [("A", "Z"); ("a", "z"); ("_", "_")]%char c = false ->
  Regex.matches Patterns.identifier (String c s) = false.
Proof.
  intros H. unfold Patterns.identifier.
  rewrite NumberLiteralFacts.matches_Cat_Class, H. reflexivity.
Qed.

(* ================================================================== *)
(** * All derivations of an input *)
(* ================================================================== *)

Section Derivations.

Variable g : grammar.

Lemma complete_in xs f : In f (complete xs) <-> In (f, []) xs.
Proof.
  unfold complete. rewrite in_map_iff. split.
  - intros ([f' rest] & <- & H). apply filter_In in H as [H E].
    simpl in *. destruct rest; [assumption | discriminate].
  - intros H. exists (f, []). split; auto. apply filter_In. auto.
Qed.

(** When the search ends, its complete results are exactly the
    derivations of the input. *)
Theorem parse_complete n r ts xs :
  parse g n r ts = Some xs ->
  forall f, derives g r ts f <-> In f (complete xs).
Proof.
  intros P f. rewrite complete_in, (parse_spec _ _ _ _ P). split.
  - intros D. exists ts. now rewrite app_nil_r.
  - intros (c & E & D). rewrite app_nil_r in E. now subst.
Qed.

(** A rule that is a terminal accepts single tokens. *)
Lemma derives_leaf_iff x b t :
  find_rule g x = Some b -> terminal b = true ->
  (derivable g (Sym x) [t] <-> accepts g b t = true).
Proof.
  intros F T. split.
  - intros (f & D). inversion D; subst; simpl in *; congruence.
  - intros A. eexists. eapply D_leaf; eauto.
Qed.

End Derivations.

(* ================================================================== *)
(** * Properties of the grammar *)
(* ================================================================== *)

Unset Implicit Arguments.

Import SystemRDL.

(** C7. A token is a [number] exactly when its text has one of the forms
    hexadecimal, binary, octal or decimal, with single underscores
    between digits only.  Texts such as [0x_1], [1_] and [1__2] are not
    numbers (the lexer cuts them in two), texts such as [0xAB_CD],
    [0b1_0], [0o7_7] and [1_000] are. *)
Theorem C7_number_forms :
  (forall t : token,
     derivable systemrdl (Sym "number") [t]
     <-> NumberLiteral.number_form (text t) = true)
  /\ NumberLiteral.number_form "0x_1" = false
  /\ NumberLiteral.number_form "1_" = false
  /\ NumberLiteral.number_form "1__2" = false
  /\ NumberLiteral.number_form "_1" = false
  /\ NumberLiteral.number_form "0xAB_CD" = true
  /\ NumberLiteral.number_form "0b1_0" = true
  /\ NumberLiteral.number_form "0o7_7" = true
  /\ NumberLiteral.number_form "1_000" = true
  /\ tokens systemrdl "0x_1" = [tok "0"; tok "x_1"]
  /\ tokens systemrdl "1_" = [tok "1"; tok "_"]
  /\ tokens systemrdl "1__2" = [tok "1"; tok "__2"]
  /\ tokens systemrdl "0xAB_CD 0b1_0 0o7_7 1_000"
     = [tok "0xAB_CD"; mk_token " " "0b1_0"; mk_token " " "0o7_7";
        mk_token " " "1_000"].
Proof.
  split.
  - intros t.
    rewrite (derives_leaf_iff systemrdl "number" (b := Token (Pat Patterns.number)) t
               eq_refl eq_refl).
    rewrite (accepts_plain (Token (Pat Patterns.number)) t eq_refl).
    change (matches_text (Token (Pat Patterns.number)) (text t))
      with (Regex.matches Patterns.number (text t)).
    rewrite NumberLiteralFacts.number_forms.
    destruct (NumberLiteral.number_form (text t)) eqn:N; [| tauto].
    now rewrite (NumberLiteralFacts.number_no_word _ N).
  - repeat split; vm_compute; reflexivity.
Qed.

(* ================================================================== *)
(** * String literals *)
(* ================================================================== *)

Module StringLiteralFacts.
Import Regex RegexFacts Chars StringLiteral.

Lemma rule_regex :
  lexical rule_body
  = Some (Cat (Lit (one dquote)) (Cat (Star item) (Cat (Lit (one dquote)) Eps))).
Proof. reflexivity. Qed.

Lemma lang_Lit_one c s : lang (Lit (one c)) s <-> s = one c.
Proof.
  unfold one. simpl. split.
  - intros H. apply lang_cat_inv in H as (s1 & s2 & -> & H1 & H2).
    apply lang_eps_inv in H2 as ->.
    apply lang_class_inv in H1 as (d & -> & H1).
    unfold in_class in H1. simpl in H1.
    rewrite NumberLiteralFacts.in_range_single, orb_false_r in H1.
    apply Ascii.eqb_eq in H1. now subst.
  - intros ->.
    apply (@L_cat _ _ (String c "") ""); [| apply L_eps]. apply L_class.
    unfold in_class. simpl.
    now rewrite NumberLiteralFacts.in_range_single, Ascii.eqb_refl.
Qed.

Lemma lang_Lit_cons c b s :
  lang b s -> lang (Cat (Lit (one c)) b) (String c s).
Proof.
  intros H. apply (@L_cat _ _ (one c) s); auto. now apply lang_Lit_one.
Qed.

Lemma app_one_cancel a b c : a +++ one c = b +++ one c -> a = b.
Proof.
  revert b; induction a as [|x a IH]; intros [|y b]; simpl; auto.
  - intros [= -> E]. now destruct b.
  - intros [= -> E]. now destruct a.
  - intros [= -> E]. f_equal. auto.
Qed.

(** A quoted text is a string literal exactly when its body is a
    sequence of items. *)
Lemma quoted_iff body :
  is_string_literal (quoted body) = true <-> lang (Star item) body.
Proof.
  unfold is_string_literal. rewrite (accepts_plain rule_body _ eq_refl).
  unfold quoted, tok, one. cbn [text String.append].
  rewrite (no_word_first dquote _ eq_refl), andb_true_r.
  unfold matches_text. rewrite rule_regex.
  rewrite matches_iff.
  change (String dquote (body +++ String dquote ""))
    with (String dquote "" +++ body +++ String dquote "").
  fold (one dquote). split.
  - intros H. apply lang_cat_inv in H as (s1 & s2 & E & H1 & H2).
    apply lang_Lit_one in H1 as ->.
    apply lang_cat_inv in H2 as (s3 & s4 & -> & H3 & H4).
    apply lang_cat_inv in H4 as (s5 & s6 & -> & H5 & H6).
    apply lang_Lit_one in H5 as ->. apply lang_eps_inv in H6 as ->.
    rewrite StrFacts.app_nil_r in E. simpl in E. injection E as E.
    apply app_one_cancel in E. now subst.
  - intros H. apply lang_Lit_cons. apply L_cat; auto.
    apply lang_Lit_cons, L_eps.
Qed.

Lemma lang_star_app a s1 s2 :
  lang (Star a) s1 -> lang (Star a) s2 -> lang (Star a) (s1 +++ s2).
Proof.
  intros H1 H2. remember (Star a) as r eqn:E.
  induction H1; try discriminate; simpl; auto.
  injection E as ->. rewrite StrFacts.app_assoc. apply L_star_cons; auto.
Qed.

(** Any character but the line feed may follow the backslash. *)
Lemma escape_item c : c <> nl -> lang item (escape c).
Proof.
  intros N. apply L_alt_r, L_alt_l. unfold escape.
  apply lang_Lit_cons.
  apply (@L_cat _ _ (String c "") ""); [| apply L_eps]. apply L_class.
  unfold in_class. simpl.
  rewrite NumberLiteralFacts.in_range_single, orb_false_r.
  destruct (Ascii.eqb_spec c nl); [contradiction | reflexivity].
Qed.

Lemma escape_accepted c pre post :
  c <> nl ->
  is_string_literal (quoted pre) = true ->
  is_string_literal (quoted post) = true ->
  is_string_literal (quoted (pre +++ escape c +++ post)) = true.
Proof.
  intros N H1 H2. apply quoted_iff in H1, H2. apply quoted_iff.
  apply lang_star_app; auto. apply lang_star_app; auto.
  rewrite <- (StrFacts.app_nil_r (escape c)).
  apply L_star_cons; [now apply escape_item | apply L_star_nil].
Qed.

End StringLiteralFacts.

(* ================================================================== *)
(** * The lexer on a text that is one token *)
(* ================================================================== *)

Section OneToken.

Variable g : grammar.

Lemma longest_Void s : Regex.longest Regex.Void s = None.
Proof. induction s as [|c s IH]; simpl; auto. now rewrite IH. Qed.

Lemma longest_full r s :
  Regex.matches r s = true -> Regex.longest r s = Some (String.length s).
Proof.
  revert r; induction s as [|c s IH]; simpl; intros r H.
  - now rewrite H.
  - now rewrite (IH _ H).
Qed.

Lemma match_length_le s r : match_length s r <= String.length s.
Proof.
  unfold match_length. destruct (lexical r) as [p|]; [| lia].
  destruct (Regex.longest p s) as [n|] eqn:E; [| lia].
  now apply RegexFacts.longest_le in E.
Qed.

Lemma best_le rs s : best rs s <= String.length s.
Proof.
  induction rs as [|r rs IH]; simpl; [lia |].
  pose proof (match_length_le s r). lia.
Qed.

Lemma best_ge rs s i r :
  nth_error rs i = Some r -> match_length s r <= best rs s.
Proof.
  revert i; induction rs as [|a rs IH]; intros [|i]; simpl; try discriminate.
  - intros [= ->]. lia.
  - intros H. apply IH in H. lia.
Qed.

Lemma take_all s : Str.take (String.length s) s = s.
Proof. induction s; simpl; congruence. Qed.

Lemma drop_all s : Str.drop (String.length s) s = "".
Proof. induction s; simpl; congruence. Qed.

(** A text that a terminal of the grammar matches as a whole, and that no
    extra matches as a whole, is one token. *)
Lemma lex_one_token s i r :
  s <> "" ->
  nth_error (all_terminals g) i = Some r ->
  accepts g r (tok s) = true ->
  best (extra_terminals g) s < String.length s ->
  lex g s = ([tok s], mk_token "" "").
Proof.
  intros Hs Hi Ha He. unfold lex.
  assert (Hb : best (all_terminals g) s = String.length s).
  { apply Nat.le_antisymm; [apply best_le |].
    eapply Nat.le_trans; [| eapply best_ge; eauto].
    unfold match_length. apply accepts_matches in Ha.
    unfold matches_text in Ha.
    destruct (lexical r) as [p|]; [| discriminate].
    simpl in Ha. now rewrite (longest_full _ _ Ha). }
  destruct s as [|c s]; [congruence |].
  cbn [String.length scan]. rewrite Hb.
  replace (Nat.max 1 (String.length (String c s)))
    with (String.length (String c s)) by (simpl; lia).
  rewrite take_all, drop_all.
  destruct (Nat.eqb_spec (best (extra_terminals g) (String c s))
                         (String.length (String c s))) as [E | _]; [lia |].
  now destruct (String.length s).
Qed.

End OneToken.

Lemma no_extra_at_quote rest :
  best (extra_terminals SystemRDL.systemrdl) (String Chars.dquote rest) = 0.
Proof.
  unfold best, extra_terminals, match_length. simpl map.
  cbn [fold_right]. cbn [lexical]. cbn [Regex.longest].
  change (Regex.deriv Chars.dquote Patterns.whitespace) with Regex.Void.
  rewrite longest_Void.
  match goal with
  | |- context [Regex.longest (Regex.deriv Chars.dquote ?p) rest] =>
      change (Regex.deriv Chars.dquote p) with Regex.Void
  end.
  rewrite longest_Void. reflexivity.
Qed.

Import SystemRDL.

(** C8, amended.  For every character [c] other than the line feed: a
    double-quoted text whose body holds a backslash followed by [c],
    between two parts that are themselves bodies of string literals, is
    one [string_literal] token. *)
Theorem C8_escape_pairs (c : ascii) (pre post : string) :
  c <> Chars.nl ->
  StringLiteral.is_string_literal (StringLiteral.quoted pre) = true ->
  StringLiteral.is_string_literal (StringLiteral.quoted post) = true ->
  let s := StringLiteral.quoted (pre +++ StringLiteral.escape c +++ post) in
  tokens systemrdl s = [tok s]
  /\ derives systemrdl (Sym "string_literal") [tok s]
       [plain (Leaf "string_literal" (tok s))].
Proof.
  intros N H1 H2 s.
  pose proof (@StringLiteralFacts.escape_accepted c pre post N H1 H2) as A.
  fold s in A. split.
  - unfold tokens.
    rewrite (@lex_one_token systemrdl s 137 StringLiteral.rule_body); auto.
    + discriminate.
    + unfold s, StringLiteral.quoted, Chars.one.
      change (String Chars.dquote "" +++ ?x) with (String Chars.dquote x).
      rewrite no_extra_at_quote. simpl. lia.
  - eapply D_leaf; [reflexivity | reflexivity | exact A].
Qed.

Lemma C8_escape_pairs_witness :
  "n"%char <> Chars.nl
  /\ StringLiteral.is_string_literal (StringLiteral.quoted "a") = true
  /\ StringLiteral.is_string_literal (StringLiteral.quoted "b") = true
  /\ (let s := StringLiteral.quoted ("a" +++ StringLiteral.escape "n" +++ "b") in
      tokens systemrdl s = [tok s]
      /\ derives systemrdl (Sym "string_literal") [tok s]
           [plain (Leaf "string_literal" (tok s))]).
Proof.
  assert (N : "n"%char <> Chars.nl) by discriminate.
  repeat split; try exact N; try reflexivity;
    apply (C8_escape_pairs "n" "a" "b" N eq_refl eq_refl).
Defined.

(** C8 as stated fails at the line feed: a backslash followed by a line
    feed between double quotes is not a [string_literal]; the lexer
    finds no token at the quotes and at the backslash. *)
Lemma C8_line_feed_refused :
  ~ derivable systemrdl (Sym "string_literal")
      [tok (StringLiteral.quoted (StringLiteral.escape Chars.nl))]
  /\ StringLiteral.is_string_literal
       (StringLiteral.quoted (StringLiteral.escape Chars.nl)) = false
  /\ tokens systemrdl (StringLiteral.quoted (StringLiteral.escape Chars.nl))
     = [tok (Chars.one Chars.dquote); tok (Chars.one Chars.bslash);
        mk_token (Chars.one Chars.nl) (Chars.one Chars.dquote)].
Proof.
  split; [| split; reflexivity].
  rewrite (derives_leaf_iff systemrdl "string_literal"
             (b := StringLiteral.rule_body)
             (tok (StringLiteral.quoted (StringLiteral.escape Chars.nl)))
             eq_refl eq_refl).
  discriminate.
Qed.

(* ================================================================== *)
(** * Deciding derivability by search *)
(* ================================================================== *)

Lemma all_trees_spec g n r ts l :
  all_trees g n r ts = Some l -> forall f, derives g r ts f <-> In f l.
Proof.
  unfold all_trees. destruct (parse g n r ts) as [xs|] eqn:P; [| discriminate].
  intros [= <-] f. exact (@parse_complete g n r ts xs P f).
Qed.

Lemma derives_all_true g n r ts :
  derives_all g n r ts = Some true -> derivable g r ts.
Proof.
  unfold derives_all. destruct (all_trees g n r ts) as [l|] eqn:A; [| discriminate].
  destruct l as [|f l]; [discriminate |]. intros _.
  exists f. apply (all_trees_spec g n r ts _ A). now left.
Qed.

Lemma derives_all_false g n r ts :
  derives_all g n r ts = Some false -> ~ derivable g r ts.
Proof.
  unfold derives_all. destruct (all_trees g n r ts) as [l|] eqn:A; [| discriminate].
  destruct l as [|f l]; [| discriminate]. intros _ (f & D).
  now apply (all_trees_spec g n r ts _ A) in D.
Qed.

(** The result of the engine does not depend on the budget, once the
    budget is large enough. *)
Lemma parse_source_stable g b s t :
  parse_source g b s = Ok t -> forall k, parse_source g (b + k) s = Ok t.
Proof.
  unfold parse_source. destruct (lex g s) as [ts e]. intros H k.
  apply (@parse_tokens_mono g b (b + k) ts e t); [lia | exact H].
Qed.

Lemma parse_as_stable g b x s o :
  parse_as g b x s = Ok o -> forall k, parse_as g (b + k) x s = Ok o.
Proof.
  unfold parse_as. intros H k.
  destruct (parse g b (Sym x) (fst (lex g s))) as [xs|] eqn:P; [| discriminate].
  rewrite (@parse_mono g b (b + k) (Sym x) (fst (lex g s)) xs); auto.
  lia.
Qed.

(** Membership in a list given in full. *)
Ltac choose_lost H :=
  repeat (destruct H as [<- | H]; [vm_compute; tauto |]); contradiction H.

(** Inversion of a derivation from a rule of the grammar. *)
Ltac invd H :=
  inversion H; subst; clear H; simpl in *; try discriminate;
  try match goal with
      | F : find_rule _ _ = Some _ |- _ =>
          vm_compute in F; first [discriminate F | injection F as <-]
      end;
  simpl in *; try discriminate.

(* ================================================================== *)
(** * Keywords are lost to [identifier] *)
(* ================================================================== *)

(** A keyword is a word. *)
Lemma keyword_is_word k :
  In k (keywords systemrdl) -> Regex.matches Patterns.identifier k = true.
Proof.
  unfold keywords. intros H. apply nodup_In, filter_In in H as [_ H].
  change (word_rule systemrdl)
    with (Token (Prec 2 (Pat Patterns.identifier))) in H.
  now rewrite accepts_identifier in H.
Qed.

(** No token is accepted as a keyword: the text of a keyword is a word,
    and [identifier] has the higher lexical precedence. *)
Lemma keyword_lost k t :
  In k (keywords systemrdl) -> accepts systemrdl (Str k) t = false.
Proof.
  intros H. destruct (accepts systemrdl (Str k) t) eqn:A; [| reflexivity].
  pose proof (literal_text _ _ _ A) as E.
  apply accepts_iff in A as [_ O].
  rewrite outranked_systemrdl, E, (keyword_is_word _ H) in O.
  discriminate O.
Qed.

(** It is accepted as an identifier. *)
Lemma keyword_identifier k t :
  In k (keywords systemrdl) -> text t = k ->
  derives systemrdl (Sym "identifier") [t] [plain (Leaf "identifier" t)].
Proof.
  intros H E. eapply D_leaf; [reflexivity | reflexivity |].
  rewrite accepts_identifier, E. exact (keyword_is_word k H).
Qed.

Section BarrenFacts.

Variable g : grammar.
Variable lost : list string.
Hypothesis lost_barren : all_barren g lost = true.

Lemma find_rule_barren x b :
  find_rule g x = Some b -> mem x lost = true -> barren g lost b = true.
Proof.
  intros F M. apply mem_In in M.
  unfold all_barren in lost_barren. rewrite forallb_forall in lost_barren.
  specialize (lost_barren _ M). now rewrite F in lost_barren.
Qed.

(** What derives tokens is not barren. *)
Lemma derives_not_barren r ts f :
  derives g r ts f -> barren g lost r = false.
Proof.
  induction 1 as
    [ r t T A | x b t F T A | x b ts f F T Hx D IH | x b ts f F T Hx D IH
    | | r rs ts1 ts2 f1 f2 D1 IH1 D2 IH2 | r rs ts f Hr D IH
    | r | r ts f D IH | r ts1 ts2 f1 f2 D1 IH1 D2 IH2
    | r | r ts f D IH | n r ts f T D IH | r ts f T D IH
    | fld r ts f D IH ].
  - destruct r; simpl in T; try discriminate; simpl; rewrite ?T; auto.
    pose proof (literal_text _ _ _ A) as E.
    apply accepts_iff in A as [_ O]. now rewrite E in O.
  - simpl. destruct (mem x lost) eqn:M; [| reflexivity].
    pose proof (find_rule_barren _ _ F M) as B.
    destruct b; simpl in T; try discriminate; simpl in B; rewrite ?T in B;
      try discriminate.
    pose proof (literal_text _ _ _ A) as E.
    apply accepts_iff in A as [_ O]. rewrite E in O. congruence.
  - simpl. destruct (mem x lost) eqn:M; [| reflexivity].
    rewrite (find_rule_barren _ _ F M) in IH. discriminate.
  - simpl. destruct (mem x lost) eqn:M; [| reflexivity].
    rewrite (find_rule_barren _ _ F M) in IH. discriminate.
  - reflexivity.
  - simpl. simpl in IH2. rewrite IH1. exact IH2.
  - simpl. destruct (forallb (barren g lost) rs) eqn:All; [| reflexivity].
    rewrite forallb_forall in All. rewrite (All _ Hr) in IH. discriminate.
  - reflexivity.
  - reflexivity.
  - exact IH1.
  - reflexivity.
  - reflexivity.
  - simpl. rewrite T. exact IH.
  - simpl. rewrite T. exact IH.
  - exact IH.
Qed.

End BarrenFacts.

(** The rules of [SystemRDL_Tables.lost] derive nothing. *)
Lemma lost_rule_derives_nothing x ts :
  In x SystemRDL_Tables.lost -> ~ derivable systemrdl (Sym x) ts.
Proof.
  intros H (f & D).
  assert (B : all_barren systemrdl SystemRDL_Tables.lost = true)
    by (vm_compute; reflexivity).
  pose proof (derives_not_barren systemrdl _ B _ _ _ D) as N.
  change (mem x SystemRDL_Tables.lost = false) in N.
  apply mem_In in H. rewrite H in N. discriminate N.
Qed.

(** An [enum_body] holds at least one [enum_entry]. *)
Lemma enum_body_has_entry ts f :
  derives systemrdl (Sym "enum_body") ts f ->
  exists cs, f = [plain (Node "enum_body" cs)]
             /\ In "enum_entry" (child_kinds (Node "enum_body" cs)).
Proof.
  intros D. invd D.
  match goal with D : derives _ (Seq _) _ _ |- _ => invd D end.
  match goal with D : derives _ (Seq _) _ _ |- _ => invd D end.
  match goal with D : derives _ (Repeat1 _) _ _ |- _ => invd D end.
  match goal with D : derives _ (Sym "enum_entry") _ _ |- _ => invd D end.
  eexists. split; [reflexivity |].
  simpl. rewrite !map_app, !in_app_iff. simpl. auto.
Qed.

(** C9.  Every [enum_body] holds an [enum_entry] -- [{ }] is no
    [enum_body] and [enum E { };] no [enum_def] -- while [{ }] is a
    [component_body], a [struct_body] and a [constraint_body].  But no
    source text reaches these bodies: the definitions that hold them
    start with a keyword, no token is accepted as a keyword, and
    [component_def], [struct_def], [constraint_def],
    [property_definition] and [enum_def] derive nothing.  The texts of
    [empty_bodies] are no source files, and their trees hold error
    nodes. *)
Theorem C9_enum_body_not_empty :
  (forall ts f,
     derives systemrdl (Sym "enum_body") ts f ->
     exists cs, f = [plain (Node "enum_body" cs)]
                /\ In "enum_entry" (child_kinds (Node "enum_body" cs)))
  /\ ~ derivable systemrdl (Sym "enum_body") (toks ["{"; "}"])
  /\ ~ derivable systemrdl (Sym "enum_def") (toks ["enum"; "E"; "{"; "}"; ";"])
  /\ ~ derivable systemrdl (Sym "source_file") (toks ["enum"; "E"; "{"; "}"; ";"])
  /\ derivable systemrdl (Sym "enum_body") (toks ["{"; "A"; ";"; "}"])
  /\ derivable systemrdl (Sym "component_body") (toks ["{"; "}"])
  /\ derivable systemrdl (Sym "struct_body") (toks ["{"; "}"])
  /\ derivable systemrdl (Sym "constraint_body") (toks ["{"; "}"])
  /\ (forall x ts,
        In x ["component_def"; "struct_def"; "constraint_def";
              "property_definition"; "enum_def"] ->
        ~ derivable systemrdl (Sym x) ts)
  /\ Forall (fun src =>
               ~ derivable systemrdl (Sym "source_file") (tokens systemrdl src)
               /\ exists t,
                    parse_source systemrdl 40 src = Ok t
                    /\ has_error t = true)
            empty_bodies.
Proof.
  split; [exact enum_body_has_entry |].
  do 7 (split;
        [first [ apply (derives_all_false systemrdl 40); vm_compute; reflexivity
               | apply (derives_all_true systemrdl 40); vm_compute; reflexivity ]
        |]).
  split.
  { intros x ts H. apply lost_rule_derives_nothing.
    simpl in H. choose_lost H. }
  repeat constructor;
    first [ apply (derives_all_false systemrdl 40); vm_compute; reflexivity
          | eexists; split; [vm_compute; reflexivity | reflexivity] ].
Qed.

(* ================================================================== *)
(** * Building derivations *)
(* ================================================================== *)

Section Building.

Variable g : grammar.

Lemma derivable_str s t :
  text t = s -> outranked g (Str s) s = false -> derivable g (Str s) [t].
Proof.
  intros E O. eexists. apply D_term; [reflexivity |].
  apply accepts_iff. rewrite E. split; [| exact O].
  unfold matches_text. simpl.
  now apply RegexFacts.matches_iff, lang_Lit.
Qed.

Lemma derivable_sym x b ts :
  find_rule g x = Some b -> terminal b = false ->
  derivable g b ts -> derivable g (Sym x) ts.
Proof.
  intros F T (f & D). destruct (hidden x) eqn:H.
  - exists f. eapply D_inline; eauto.
  - eexists. eapply D_node; eauto.
Qed.

Lemma derivable_token x b t :
  find_rule g x = Some b -> terminal b = true -> accepts g b t = true ->
  derivable g (Sym x) [t].
Proof. intros F T A. eexists. eapply D_leaf; eauto. Qed.

Lemma derivable_seq_nil : derivable g (Seq []) [].
Proof. eexists. constructor. Qed.

Lemma derivable_seq_cons r rs ts1 ts2 :
  derivable g r ts1 -> derivable g (Seq rs) ts2 ->
  derivable g (Seq (r :: rs)) (ts1 ++ ts2).
Proof. intros (f1 & D1) (f2 & D2). eexists. constructor; eauto. Qed.

Lemma derivable_choice r rs ts :
  In r rs -> derivable g r ts -> derivable g (Choice rs) ts.
Proof. intros H (f & D). exists f. econstructor; eauto. Qed.

Lemma derivable_optional (b : bool) r ts :
  derivable g r ts -> derivable g (Optional r) (if b then ts else []).
Proof.
  intros (f & D). destruct b.
  - exists f. now constructor.
  - eexists. apply D_optional_none.
Qed.

Lemma derivable_optional_none r : derivable g (Optional r) [].
Proof. eexists. apply D_optional_none. Qed.

Lemma derivable_field fld r ts :
  derivable g r ts -> derivable g (Field fld r) ts.
Proof. intros (f & D). eexists. constructor; eauto. Qed.

Lemma derivable_prec_left r ts :
  terminal r = false -> derivable g r ts -> derivable g (PrecLeft r) ts.
Proof. intros T (f & D). exists f. now constructor. Qed.

End Building.

(** C10.  In a property assignment the [= value] part is optional:
    whatever can stand left of [=] in an explicit assignment, followed by
    [;], is a complete explicit property assignment, and a property
    reference followed by [;] is a complete post-assignment.  So [name;],
    [sw;] and [a.b->prop;] are accepted. *)
Theorem C10_value_is_optional (lhs ref : list token) (semi : token) :
  derivable systemrdl (Sym "prop_assignment_lhs") lhs ->
  derivable systemrdl (Sym "prop_ref") ref ->
  text semi = ";" ->
  derivable systemrdl (Sym "explicit_prop_assignment") lhs
  /\ derivable systemrdl (Sym "explicit_or_default_prop_assignment")
       (lhs ++ [semi])
  /\ derivable systemrdl (Sym "post_prop_assignment") (ref ++ [semi])
  /\ derivable systemrdl (Sym "property_assignment") (lhs ++ [semi])
  /\ derivable systemrdl (Sym "property_assignment") (ref ++ [semi]).
Proof.
  intros Hl Hr Hs.
  assert (Semi : derivable systemrdl (Str ";") [semi])
    by (apply derivable_str; [exact Hs | reflexivity]).
  assert (E : derivable systemrdl (Sym "explicit_prop_assignment") lhs).
  { eapply derivable_sym; [reflexivity | reflexivity |].
    eapply derivable_choice; [left; reflexivity |].
    rewrite <- (app_nil_r lhs).
    apply derivable_seq_cons; auto.
    apply (derivable_seq_cons systemrdl _ _ [] []);
      [apply derivable_optional_none | apply derivable_seq_nil]. }
  assert (ED : derivable systemrdl
                 (Sym "explicit_or_default_prop_assignment") (lhs ++ [semi])).
  { eapply derivable_sym; [reflexivity | reflexivity |].
    apply (derivable_seq_cons systemrdl _ _ [] (lhs ++ [semi]));
      [apply derivable_optional_none |].
    apply derivable_seq_cons.
    - eapply derivable_choice; [right; left; reflexivity | exact E].
    - apply (derivable_seq_cons systemrdl _ _ [semi] []);
        [exact Semi | apply derivable_seq_nil]. }
  assert (PD : derivable systemrdl (Sym "post_prop_assignment") (ref ++ [semi])).
  { eapply derivable_sym; [reflexivity | reflexivity |].
    apply derivable_seq_cons.
    - eapply derivable_choice; [left; reflexivity |].
      rewrite <- (app_nil_r ref).
      apply derivable_seq_cons; auto.
      apply (derivable_seq_cons systemrdl _ _ [] []);
        [apply derivable_optional_none | apply derivable_seq_nil].
    - apply (derivable_seq_cons systemrdl _ _ [semi] []);
        [exact Semi | apply derivable_seq_nil]. }
  repeat split; auto.
  - eapply derivable_sym; [reflexivity | reflexivity |].
    eapply derivable_choice; [left; reflexivity | exact ED].
  - eapply derivable_sym; [reflexivity | reflexivity |].
    eapply derivable_choice; [right; left; reflexivity | exact PD].
Qed.

Lemma C10_value_is_optional_witness :
  derivable systemrdl (Sym "prop_assignment_lhs") (toks ["sw"])
  /\ derivable systemrdl (Sym "prop_ref") (toks ["a"; "."; "b"; "->"; "prop"])
  /\ text (tok ";") = ";"
  /\ derivable systemrdl (Sym "explicit_prop_assignment") (toks ["sw"])
  /\ derivable systemrdl (Sym "explicit_or_default_prop_assignment")
       (toks ["sw"] ++ [tok ";"])
  /\ derivable systemrdl (Sym "post_prop_assignment")
       (toks ["a"; "."; "b"; "->"; "prop"] ++ [tok ";"])
  /\ derivable systemrdl (Sym "property_assignment")
       (toks ["sw"] ++ [tok ";"])
  /\ derivable systemrdl (Sym "property_assignment")
       (toks ["a"; "."; "b"; "->"; "prop"] ++ [tok ";"]).
Proof.
  assert (L : derivable systemrdl (Sym "prop_assignment_lhs")
                (toks ["sw"]))
    by (apply (derives_all_true systemrdl 30); vm_compute; reflexivity).
  assert (R : derivable systemrdl (Sym "prop_ref")
                (toks ["a"; "."; "b"; "->"; "prop"]))
    by (apply (derives_all_true systemrdl 30); vm_compute; reflexivity).
  split; [exact L |]. split; [exact R |]. split; [reflexivity |].
  exact (C10_value_is_optional (toks ["sw"])
           (toks ["a"; "."; "b"; "->"; "prop"]) (tok ";") L R eq_refl).
Defined.

(** The trees of [name;], [sw;] and [a.b->prop;]: [sw], a word, is an
    identifier. *)
Lemma bare_assignments_parse (k : nat) :
  parse_source systemrdl (30 + k) "name;"
  = Ok (Node "source_file"
      [plain (Node "property_assignment"
         [plain (Node "explicit_or_default_prop_assignment"
            [plain (Node "explicit_prop_assignment"
               [plain (Node "prop_assignment_lhs"
                  [plain (Leaf "identifier" (tok "name"))])]);
             plain (Leaf ";" (tok ";"))])]);
       plain (Leaf "end" (tok ""))])
  /\ parse_source systemrdl (30 + k) "sw;"
  = Ok (Node "source_file"
      [plain (Node "property_assignment"
         [plain (Node "explicit_or_default_prop_assignment"
            [plain (Node "explicit_prop_assignment"
               [plain (Node "prop_assignment_lhs"
                  [plain (Leaf "identifier" (tok "sw"))])]);
             plain (Leaf ";" (tok ";"))])]);
       plain (Leaf "end" (tok ""))])
  /\ parse_source systemrdl (30 + k) "a.b->prop;"
  = Ok (Node "source_file"
      [plain (Node "property_assignment"
         [plain (Node "post_prop_assignment"
            [plain (Node "prop_ref"
               [plain (Node "instance_ref"
                  [plain (Node "instance_ref_element"
                     [plain (Leaf "identifier" (tok "a"))]);
                   plain (Leaf "." (tok "."));
                   plain (Node "instance_ref_element"
                     [plain (Leaf "identifier" (tok "b"))])]);
                plain (Leaf "->" (tok "->"));
                plain (Leaf "identifier" (tok "prop"))]);
             plain (Leaf ";" (tok ";"))])]);
       plain (Leaf "end" (tok ""))]).
Proof.
  repeat split; apply parse_source_stable; vm_compute; reflexivity.
Qed.

(** A suffix [op expr] of an instance, present or absent. *)
Lemma derivable_suffix (b : bool) (op : string) (t : token) (e : list token) :
  text t = op -> outranked systemrdl (Str op) op = false ->
  derivable systemrdl (Sym "constant_expression") e ->
  derivable systemrdl (Optional (Seq [Str op; Sym "constant_expression"]))
    (if b then t :: e else []).
Proof.
  intros Ht Ho He. apply derivable_optional.
  apply (derivable_seq_cons systemrdl _ _ [t] e);
    [apply derivable_str; assumption |].
  rewrite <- (app_nil_r e).
  apply derivable_seq_cons; [exact He | apply derivable_seq_nil].
Qed.

(** C5.  The suffixes of a component instance -- array or range,
    [= expr], [@ expr], [+= expr], [%= expr] -- are optional
    independently of each other: for every choice of the five, the
    instance that carries exactly the chosen ones, in this order, is a
    [component_inst]. *)
Theorem C5_instance_suffixes_independent
  (inst t_eq t_at t_inc t_mod : token) (arr e1 e2 e3 e4 : list token)
  (b0 b1 b2 b3 b4 : bool) :
  derivable systemrdl (Sym "identifier") [inst] ->
  derivable systemrdl (Sym "component_inst_array_or_range") arr ->
  derivable systemrdl (Sym "constant_expression") e1 ->
  derivable systemrdl (Sym "constant_expression") e2 ->
  derivable systemrdl (Sym "constant_expression") e3 ->
  derivable systemrdl (Sym "constant_expression") e4 ->
  text t_eq = "=" -> text t_at = "@" -> text t_inc = "+=" ->
  text t_mod = "%=" ->
  derivable systemrdl (Sym "component_inst")
    ([inst]
     ++ (if b0 then arr else [])
     ++ (if b1 then t_eq :: e1 else [])
     ++ (if b2 then t_at :: e2 else [])
     ++ (if b3 then t_inc :: e3 else [])
     ++ (if b4 then t_mod :: e4 else [])).
Proof.
  intros Hi Ha H1 H2 H3 H4 T1 T2 T3 T4.
  eapply derivable_sym; [reflexivity | reflexivity |].
  apply derivable_seq_cons; [now apply derivable_field |].
  apply derivable_seq_cons; [now apply derivable_optional |].
  apply derivable_seq_cons; [apply derivable_suffix; auto |].
  apply derivable_seq_cons; [apply derivable_suffix; auto |].
  apply derivable_seq_cons; [apply derivable_suffix; auto |].
  rewrite <- (app_nil_r (if b4 then _ else _)).
  apply derivable_seq_cons; [apply derivable_suffix; auto |].
  apply derivable_seq_nil.
Qed.

(** The instance [r1 @ 0x10 += 4] carries both [@] and [+=]. *)
Lemma C5_instance_suffixes_independent_witness :
  derivable systemrdl (Sym "identifier") [tok "r1"]
  /\ derivable systemrdl (Sym "component_inst_array_or_range")
       (toks ["["; "2"; "]"])
  /\ derivable systemrdl (Sym "constant_expression") (toks ["0"])
  /\ derivable systemrdl (Sym "constant_expression") (toks ["0x10"])
  /\ derivable systemrdl (Sym "constant_expression") (toks ["4"])
  /\ derivable systemrdl (Sym "constant_expression") (toks ["8"])
  /\ derivable systemrdl (Sym "component_inst")
       [tok "r1"; tok "@"; tok "0x10"; tok "+="; tok "4"].
Proof.
  assert (D : forall x l, derives_all systemrdl 30 (Sym x) (toks l)
                          = Some true ->
                          derivable systemrdl (Sym x) (toks l))
    by (intros x l; apply derives_all_true).
  assert (Hi : derivable systemrdl (Sym "identifier") [tok "r1"])
    by (apply (derives_all_true systemrdl 30); reflexivity).
  assert (Ha := D "component_inst_array_or_range" ["["; "2"; "]"] eq_refl).
  assert (H1 := D "constant_expression" ["0"] eq_refl).
  assert (H2 := D "constant_expression" ["0x10"] eq_refl).
  assert (H3 := D "constant_expression" ["4"] eq_refl).
  assert (H4 := D "constant_expression" ["8"] eq_refl).
  repeat (split; [assumption |]).
  exact (C5_instance_suffixes_independent
           (tok "r1") (tok "=") (tok "@") (tok "+=") (tok "%=")
           (toks ["["; "2"; "]"]) (toks ["0"])
           (toks ["0x10"]) (toks ["4"])
           (toks ["8"])
           false false true true false
           Hi Ha H1 H2 H3 H4 eq_refl eq_refl eq_refl eq_refl).
Defined.

(** All suffixes at once, and two of them out of order. *)
Lemma instance_suffix_order :
  derivable systemrdl (Sym "component_inst")
    (toks ["r1"; "["; "2"; "]"; "="; "0"; "@"; "0x10"; "+="; "4"; "%="; "8"])
  /\ ~ derivable systemrdl (Sym "component_inst")
         (toks ["r1"; "+="; "4"; "@"; "0x10"])
  /\ ~ derivable systemrdl (Sym "component_inst")
         (toks ["r1"; "@"; "0x10"; "@"; "0x20"]).
Proof.
  repeat split;
    first [ apply (derives_all_true systemrdl 40); vm_compute; reflexivity
          | apply (derives_all_false systemrdl 40); vm_compute; reflexivity ].
Qed.

(** The rule [identifier] builds a leaf of kind [identifier], whatever
    the word. *)
Lemma identifier_leaf ts f :
  derives systemrdl (Sym "identifier") ts f ->
  exists t, ts = [t] /\ f = [plain (Leaf "identifier" t)].
Proof. intros D. invd D. eauto. Qed.

(** The name of a struct field is an [identifier] leaf. *)
Lemma struct_elem_name ts f :
  derives systemrdl (Sym "struct_elem") ts f ->
  exists cs t,
    f = [plain (Node "struct_elem" cs)]
    /\ field_children "name" (Node "struct_elem" cs) = [Leaf "identifier" t].
Proof.
  intros D. invd D.
  match goal with D : derives _ (Seq _) _ _ |- _ => invd D end.
  match goal with D : derives _ (Seq _) _ _ |- _ => invd D end.
  match goal with D : derives _ (Seq _) _ _ |- _ => invd D end.
  match goal with D : derives _ (Seq _) _ _ |- _ => invd D end.
  match goal with D : derives _ (Seq _) _ _ |- _ => invd D end.
  match goal with D : derives _ (Sym "struct_type") _ _ |- _ => invd D end.
  match goal with D : derives _ (Field _ _) _ _ |- _ => invd D end.
  match goal with D : derives _ (Sym "identifier") _ _ |- _ => invd D end.
  match goal with D : derives _ (Str _) _ _ |- _ => invd D end.
  match goal with D : derives _ (Optional _) _ _ |- _ => invd D end.
  - eexists _, _. split; reflexivity.
  - match goal with D : derives _ (Sym "array_type") _ _ |- _ => invd D end.
    eexists _, _. split; reflexivity.
Qed.

(** C2.  A contextual keyword is a plain [identifier] wherever it
    stands: each of them is a keyword literal of the grammar, is
    accepted by [identifier] and by no keyword literal, and names an
    instance in [t k;] like any other word; in every derivation of
    [struct_elem] the name is an [identifier] leaf.  But the struct of
    the claim is out of reach: [struct] is a word too, [struct_def]
    derives nothing, and [struct s { bit sw; };] is no source file; its
    tree holds error nodes and no [struct_elem]. *)
Theorem C2_keyword_as_identifier :
  (forall ts f,
     derives systemrdl (Sym "struct_elem") ts f ->
     exists cs t,
       f = [plain (Node "struct_elem" cs)]
       /\ field_children "name" (Node "struct_elem" cs)
          = [Leaf "identifier" t])
  /\ Forall (fun k => In k (keywords systemrdl)) contextual_keywords
  /\ Forall (fun k =>
               forall t, text t = k ->
                 derives systemrdl (Sym "identifier") [t]
                   [plain (Leaf "identifier" t)]
                 /\ accepts systemrdl (Str k) t = false)
            contextual_keywords
  /\ Forall (fun k => forall n,
               parse_source systemrdl (30 + n) ("t " +++ k +++ ";")
               = Ok (instance_tree k))
            contextual_keywords
  /\ (forall ts, ~ derivable systemrdl (Sym "struct_def") ts)
  /\ ~ derivable systemrdl (Sym "source_file")
         (tokens systemrdl struct_with_field)
  /\ exists t,
       parse_source systemrdl 60 struct_with_field = Ok t
       /\ has_error t = true
       /\ has_kind "struct_elem" t = false
       /\ has_kind "struct_def" t = false.
Proof.
  assert (K : Forall (fun k => In k (keywords systemrdl)) contextual_keywords).
  { apply Forall_forall. intros k Hk.
    unfold contextual_keywords in Hk. simpl in Hk.
    repeat (destruct Hk as [<- | Hk]; [vm_compute; tauto |]).
    contradiction. }
  split; [exact struct_elem_name |]. split; [exact K |]. split.
  { rewrite Forall_forall in *. intros k Hk t E. split.
    - apply (keyword_identifier k); auto.
    - apply keyword_lost; auto. }
  split.
  { apply Forall_forall. intros k Hk.
    unfold contextual_keywords in Hk. simpl in Hk.
    repeat (destruct Hk as [<- | Hk];
            [intros n; apply parse_source_stable; vm_compute; reflexivity |]).
    contradiction. }
  split.
  { intros ts. apply lost_rule_derives_nothing. vm_compute. tauto. }
  split; [apply (derives_all_false systemrdl 60); vm_compute; reflexivity |].
  eexists. split; [vm_compute; reflexivity |].
  repeat split; reflexivity.
Qed.

(** C6.  [property p1 { default = {1,2,3}; }] is not parsed as a
    property definition, with or without the semicolon that ends one:
    [property] and [default] are words, the lexer gives words to
    [identifier], so that no token is accepted as these keywords and
    [property_definition] and [property_default] derive nothing.  The
    text is no source file; its tree holds error nodes and neither a
    [property_definition] nor a [property_default]. *)
Theorem C6_property_definition_lost :
  (forall ts, ~ derivable systemrdl (Sym "property_definition") ts)
  /\ (forall ts, ~ derivable systemrdl (Sym "property_default") ts)
  /\ (forall t, accepts systemrdl (Str "property") t = false)
  /\ derives systemrdl (Sym "identifier") [tok "property"]
       [plain (Leaf "identifier" (tok "property"))]
  /\ Forall (fun src =>
               ~ derivable systemrdl (Sym "source_file") (tokens systemrdl src)
               /\ exists t,
                    parse_source systemrdl 60 src = Ok t
                    /\ has_error t = true
                    /\ has_kind "property_definition" t = false
                    /\ has_kind "property_default" t = false)
            [property_p1_unterminated; property_p1].
Proof.
  split.
  { intros ts. apply lost_rule_derives_nothing. vm_compute. tauto. }
  split.
  { intros ts. apply lost_rule_derives_nothing. vm_compute. tauto. }
  split.
  { intros t. apply keyword_lost. vm_compute. tauto. }
  split.
  { apply (keyword_identifier "property"); [vm_compute; tauto | reflexivity]. }
  repeat constructor;
    first [ apply (derives_all_false systemrdl 60); vm_compute; reflexivity
          | eexists; split; [vm_compute; reflexivity | repeat split; reflexivity] ].
Qed.

(* ================================================================== *)
(** * Constant expressions are flat chains *)
(* ================================================================== *)

Lemma chain_rest_pair ks :
  chain_rest ks = true ->
  chain_rest ("binary_operator" :: "constant_primary" :: ks) = true.
Proof.
  intros H. cbn [chain_rest]. apply orb_true_iff. right.
  rewrite H. reflexivity.
Qed.

(** The repetition of [operator primary] pairs builds such pairs only. *)
Lemma repeat_pairs r ts f :
  derives systemrdl r ts f ->
  let item := Seq [Sym "binary_operator"; Sym "constant_primary"] in
  r = Repeat item \/ r = Repeat1 item ->
  forall tail, chain_rest tail = true ->
               chain_rest (forest_kinds f ++ tail) = true.
Proof.
  intros D item.
  induction D; intros [E | E]; try discriminate E;
    try (subst r; simpl in *; discriminate); intros tail Ht.
  - exact Ht.
  - injection E as ->. apply IHD; auto.
  - injection E as ->.
    unfold forest_kinds. rewrite map_app, <- app_assoc.
    fold (forest_kinds f2).
    specialize (IHD2 (or_introl eq_refl) tail Ht).
    clear IHD1 D2.
    invd D1.
    match goal with D : derives _ (Seq _) _ _ |- _ => invd D end.
    match goal with D : derives _ (Seq _) _ _ |- _ => invd D end.
    match goal with D : derives _ (Sym "binary_operator") _ _ |- _ => invd D end.
    match goal with D : derives _ (Sym "constant_primary") _ _ |- _ => invd D end.
    apply chain_rest_pair. exact IHD2.
Qed.

(** Every constant expression is one node: a primary, then pairs of an
    operator and a primary, then at most one ternary suffix. *)
Lemma constant_expression_shape ts f :
  derives systemrdl (Sym "constant_expression") ts f ->
  exists cs, f = [plain (Node "constant_expression" cs)]
             /\ chain_shape (forest_kinds cs) = true.
Proof.
  intros D. invd D.
  match goal with D : derives _ (PrecLeft _) _ _ |- _ => invd D end.
  match goal with D : derives _ (Seq _) _ _ |- _ => invd D end.
  match goal with D : derives _ (Seq _) _ _ |- _ => invd D end.
  match goal with D : derives _ (Seq _) _ _ |- _ => invd D end.
  match goal with D : derives _ (Seq _) _ _ |- _ => invd D end.
  match goal with D : derives _ (Sym "constant_primary") _ _ |- _ => invd D end.
  eexists. split; [reflexivity |].
  cbn [forest_kinds map app kind_of snd chain_shape].
  rewrite String.eqb_refl. cbn [andb].
  match goal with
  | D : derives _ (Repeat _) _ ?f |- context [map _ (?f ++ ?g)] =>
      change (map (fun c => kind_of (snd c)) (f ++ g))
        with (forest_kinds (f ++ g));
      unfold forest_kinds; rewrite map_app; fold (forest_kinds f);
      apply (repeat_pairs _ _ _ D); [left; reflexivity |]
  end.
  rewrite app_nil_r.
  match goal with D : derives _ (Optional _) _ _ |- _ => invd D end.
  - reflexivity.
  - match goal with D : derives _ (Seq _) _ _ |- _ => invd D end.
    match goal with D : derives _ (Seq _) _ _ |- _ => invd D end.
    match goal with D : derives _ (Seq _) _ _ |- _ => invd D end.
    match goal with D : derives _ (Seq _) _ _ |- _ => invd D end.
    match goal with D : derives _ (Seq _) _ _ |- _ => invd D end.
    repeat match goal with D : derives _ (Str _) _ _ |- _ => invd D end.
    repeat match goal with
           | D : derives _ (Sym "constant_expression") _ _ |- _ => invd D
           end.
    reflexivity.
Qed.

Lemma unique_tree g n r ts f0 :
  all_trees g n r ts = Some [f0] ->
  forall f, derives g r ts f <-> f = f0.
Proof.
  intros A f. rewrite (all_trees_spec g n r ts _ A). simpl. split.
  - intros [<- | []]. reflexivity.
  - intros ->. now left.
Qed.

(** C3.  A constant expression is one flat chain: a primary, then pairs
    of a binary operator and a primary, then at most one ternary suffix.
    For every two binary operators [o1] and [o2], [a o1 b o2 c] has one
    tree only, the chain of its five parts from left to right: no
    operator groups its operands more tightly than another.  The
    operators are one choice of literals, and the grammar annotates no
    precedence but [prec.left] on the whole expression and the
    precedence of the [identifier] token. *)
Theorem C3_flat_left_to_right_chain :
  (forall ts f,
     derives systemrdl (Sym "constant_expression") ts f ->
     exists cs, f = [plain (Node "constant_expression" cs)]
                /\ chain_shape (forest_kinds cs) = true)
  /\ Forall (fun o1 =>
       Forall (fun o2 =>
         forall f,
           derives systemrdl (Sym "constant_expression")
             (toks ["a"; o1; "b"; o2; "c"]) f
           <-> f = flat_chain o1 o2)
         binary_operators)
       binary_operators
  /\ find_rule systemrdl "binary_operator"
     = Some (Choice (map Str binary_operators))
  /\ In "+" binary_operators /\ In "*" binary_operators
  /\ annotated_rules systemrdl
     = [("constant_expression", [None]); ("identifier", [Some 2])].
Proof.
  split; [exact constant_expression_shape |]. split.
  - apply Forall_forall. intros o1 H1. apply Forall_forall. intros o2 H2.
    vm_compute in H1. vm_compute in H2.
    repeat (destruct H1 as [<- | H1];
      [ repeat (destruct H2 as [<- | H2];
          [apply (unique_tree systemrdl 30); vm_compute; reflexivity |]);
        contradiction
      |]).
    contradiction.
  - repeat split; try reflexivity; vm_compute; tauto.
Qed.

(* ================================================================== *)
(** * The first derivation never uses a shadowed rule *)
(* ================================================================== *)

Section Shadowing.

Variable g : grammar.
Variables a b : string.

Local Abbreviation dirty := (forest_has_node a).
Local Abbreviation shadowed := (shadowed_after a).
Local Abbreviation guarded := (guarded a b).

(** Whatever [a] derives, [b] derives. *)
Hypothesis inclusion :
  forall c f, derives g (Sym a) c f -> derivable g (Sym b) c.

Hypothesis grammar_guarded : guarded_grammar a b g = true.

Lemma shadowed_app seen xs ys :
  shadowed seen (xs ++ ys)
  <-> shadowed seen xs /\ shadowed (seen ++ map snd xs) ys.
Proof.
  revert seen; induction xs as [|x xs IH]; intros seen; simpl.
  - rewrite app_nil_r. tauto.
  - rewrite IH, <- app_assoc. simpl. tauto.
Qed.

Lemma shadowed_mono seen seen' xs :
  incl seen seen' -> shadowed seen xs -> shadowed seen' xs.
Proof.
  revert seen seen'; induction xs as [|x xs IH]; simpl; auto.
  intros seen seen' I [H1 H2]. split.
  - intros D. apply I. auto.
  - apply (IH (seen ++ [snd x])); auto.
    intros y Hy. apply in_app_iff in Hy as [Hy | Hy]; apply in_app_iff; auto.
Qed.

Lemma shadowed_map (h : forest * list token -> forest * list token) seen xs :
  (forall x, snd (h x) = snd x) ->
  (forall x, dirty (fst (h x)) = true -> dirty (fst x) = true) ->
  shadowed seen xs -> shadowed seen (map h xs).
Proof.
  intros Hs Hd. revert seen; induction xs as [|x xs IH]; simpl; auto.
  intros seen [H1 H2]. rewrite Hs. split; auto.
Qed.

Lemma shadowed_covered seen xs :
  (forall x, In x xs -> In (snd x) seen) -> shadowed seen xs.
Proof.
  revert seen; induction xs as [|x xs IH]; simpl; auto.
  intros seen H. split; auto.
  apply IH. intros y Hy. apply in_app_iff. left. auto.
Qed.

Lemma dirty_app f1 f2 : dirty (f1 ++ f2) = dirty f1 || dirty f2.
Proof. unfold forest_has_node. apply existsb_app. Qed.

Lemma dirty_tag fld f : dirty (map (tag fld) f) = dirty f.
Proof.
  unfold forest_has_node. induction f as [|[o t] f IH]; simpl; auto.
  rewrite IH. unfold tag. simpl. now destruct o.
Qed.

(** The results of a sequence, block by block. *)
Lemma shadowed_seq (k : list token -> option results) xs :
  forall (done : results) (seen : list (list token)) (out : results),
    seq_results xs k = Some out ->
    shadowed (map snd done) xs ->
    (forall x ys, In x xs -> k (snd x) = Some ys -> shadowed [] ys) ->
    (forall x, In x done ->
               exists ys, k (snd x) = Some ys /\ incl (map snd ys) seen) ->
    shadowed seen out.
Proof.
  induction xs as [|x xs IH]; intros done seen out H S K Dn.
  - injection H as <-. exact I.
  - simpl in H. destruct (k (snd x)) as [ys|] eqn:Ex; [| discriminate].
    destruct (seq_results xs k) as [zs|] eqn:Ez; [| discriminate].
    injection H as <-. destruct S as [S1 S2].
    apply shadowed_app. split.
    + destruct (dirty (fst x)) eqn:Dx.
      * apply shadowed_covered. intros y Hy.
        apply in_map_iff in Hy as (y' & <- & Hy'). simpl.
        specialize (S1 eq_refl). apply in_map_iff in S1 as (x' & E' & Hx').
        destruct (Dn _ Hx') as (ys' & Ek & Inc).
        rewrite E', Ex in Ek. injection Ek as <-.
        apply Inc. now apply in_map.
      * apply shadowed_map; auto.
        -- intros y Hy. unfold prepend in Hy. simpl in Hy.
           rewrite dirty_app, Dx in Hy. exact Hy.
        -- apply shadowed_mono with (seen := []); [intros ? [] |].
           apply (K x ys); auto. now left.
    + apply (IH (done ++ [x])); auto.
      * now rewrite map_app.
      * intros x' ys' Hx'. apply K. now right.
      * intros x' Hx'. apply in_app_iff in Hx' as [Hx' | [<- | []]].
        -- destruct (Dn _ Hx') as (ys' & Ek & Inc). exists ys'. split; auto.
           intros y Hy. apply in_app_iff. left. auto.
        -- exists ys. split; auto. intros y Hy. apply in_app_iff. right.
           rewrite map_map. simpl.
           apply in_map_iff in Hy as (y' & <- & Hy').
           apply in_map_iff. eauto.
Qed.

Lemma guarded_rule x body :
  find_rule g x = Some body -> guarded body = true.
Proof.
  intros F. apply assoc_in in F. unfold guarded_grammar in grammar_guarded.
  rewrite forallb_forall in grammar_guarded.
  exact (grammar_guarded _ F).
Qed.

(** The results of a choice, alternative by alternative. *)
Lemma shadowed_alts n ts :
  (forall r xs, guarded r = true -> parse g n r ts = Some xs -> shadowed [] xs) ->
  forall rs seen_b seen out,
    guarded_alternatives a b guarded seen_b rs = true ->
    alts (map (fun x => parse g n x ts) rs) = Some out ->
    (seen_b = true ->
     exists ysb, parse g n (Sym b) ts = Some ysb /\ incl (map snd ysb) seen) ->
    shadowed seen out.
Proof.
  intros IH. induction rs as [|r rs IHrs]; intros seen_b seen out G H B.
  - injection H as <-. exact I.
  - simpl in H. destruct (parse g n r ts) as [ys|] eqn:P; [| discriminate].
    destruct (alts (map (fun x => parse g n x ts) rs)) as [zs|] eqn:Ez;
      [| discriminate].
    injection H as <-. simpl in G.
    apply andb_true_iff in G as [G1 G2].
    apply shadowed_app. split.
    + destruct (guarded r) eqn:Gr.
      * apply shadowed_mono with (seen := []); [intros ? [] |].
        now apply (IH r).
      * simpl in G1. apply andb_true_iff in G1 as [Sb Sa].
        destruct r; simpl in Sa; try discriminate.
        apply String.eqb_eq in Sa. subst name0.
        destruct (B Sb) as (ysb & Pb & Inc).
        apply shadowed_covered. intros [f rest] Hy.
        apply (parse_spec g n _ _ P) in Hy as (c & E & D).
        destruct (inclusion c f D) as (f' & D').
        apply Inc. simpl.
        change rest with (snd (f', rest)). apply in_map.
        apply (parse_spec g n _ _ Pb). eauto.
    + apply (IHrs (seen_b || is_sym b r)); auto.
      intros Sb. apply orb_true_iff in Sb as [Sb | Sb].
      * destruct (B Sb) as (ysb & Pb & Inc). exists ysb. split; auto.
        intros y Hy. apply in_app_iff. left. auto.
      * destruct r; simpl in Sb; try discriminate.
        apply String.eqb_eq in Sb. subst name0.
        exists ys. split; auto. intros y Hy. apply in_app_iff. now right.
Qed.

Lemma shadowed_last seen xs ts :
  shadowed [] xs -> shadowed seen (xs ++ [([], ts)]).
Proof.
  intros H. apply shadowed_app. split.
  - apply shadowed_mono with (seen := []); [intros ? [] | exact H].
  - simpl. split; [discriminate | exact I].
Qed.

(** In the results of a guarded rule, every tree that holds a node of
    kind [a] comes after a tree over the same tokens. *)
Theorem parse_shadowed n :
  forall r ts xs,
    guarded r = true -> parse g n r ts = Some xs -> shadowed [] xs.
Proof.
  induction n as [|n IH]; intros r ts xs G H; [discriminate |].
  simpl in H. destruct (terminal r) eqn:T.
  { injection H as <-. unfold term_step.
    destruct ts as [|t ts]; simpl; auto.
    destruct (accepts g r t); simpl; auto. split; [discriminate | exact I]. }
  destruct r as [s | p | x | rs | rs | r1 | r1 | r1 | r1 | lv r1 | r1 | fld r1];
    simpl in T; try discriminate; simpl in G; try rewrite T in G.
  - (* Sym *)
    destruct (find_rule g x) as [body|] eqn:F.
    2:{ injection H as <-. exact I. }
    destruct (terminal body) eqn:Tb.
    { injection H as <-. unfold term_step.
      destruct ts as [|t ts]; simpl; auto.
      destruct (accepts g body t); simpl; auto. split; [discriminate | exact I]. }
    pose proof (guarded_rule x body F) as Gb.
    destruct (hidden x).
    + now apply (IH body ts).
    + destruct (parse g n body ts) as [ys|] eqn:P; [| discriminate].
      injection H as <-. apply shadowed_map; auto.
      * intros y. unfold wrap, forest_has_node. simpl.
        rewrite orb_false_r.
        apply negb_true_iff in G. rewrite String.eqb_sym, G. auto.
      * now apply (IH body ts).
  - (* Seq *)
    destruct rs as [|r1 rs].
    { injection H as <-. simpl. split; [discriminate | exact I]. }
    simpl in G. apply andb_true_iff in G as [G1 G2].
    destruct (parse g n r1 ts) as [xs1|] eqn:P1; [| discriminate].
    apply (shadowed_seq (parse g n (Seq rs)) xs1 [] [] xs H).
    + now apply (IH r1 ts).
    + intros x ys _ Hk. now apply (IH (Seq rs) (snd x)).
    + intros x [].
  - (* Choice *)
    apply (shadowed_alts n ts (fun r xs => IH r ts xs) rs false [] xs G H).
    discriminate.
  - (* Repeat *)
    destruct (parse g n (Repeat1 r1) ts) as [ys|] eqn:P; [| discriminate].
    injection H as <-. apply shadowed_last. now apply (IH (Repeat1 r1) ts).
  - (* Repeat1 *)
    destruct (parse g n r1 ts) as [xs1|] eqn:P1; [| discriminate].
    apply (shadowed_seq (parse g n (Repeat r1)) xs1 [] [] xs H).
    + now apply (IH r1 ts).
    + intros x ys _ Hk. now apply (IH (Repeat r1) (snd x)).
    + intros x [].
  - (* Optional *)
    destruct (parse g n r1 ts) as [ys|] eqn:P; [| discriminate].
    injection H as <-. apply shadowed_last. now apply (IH r1 ts).
  - (* Prec *) now apply (IH r1 ts).
  - (* PrecLeft *) now apply (IH r1 ts).
  - (* Field *)
    destruct (parse g n r1 ts) as [ys|] eqn:P; [| discriminate].
    injection H as <-. apply shadowed_map; auto.
    + intros y. unfold tag_result. simpl. now rewrite dirty_tag.
    + now apply (IH r1 ts).
Qed.

(** The first tree over the whole input holds no node of kind [a]. *)
Lemma first_complete_clean xs :
  forall seen f,
    shadowed seen xs -> ~ In [] seen ->
    first_complete xs = Some f -> dirty f = false.
Proof.
  induction xs as [|[f0 rest] xs IH]; intros seen f S N H; [discriminate |].
  simpl in S, H. destruct S as [S1 S2]. destruct rest as [|t rest].
  - injection H as <-. destruct (dirty f0); auto.
    exfalso. apply N. auto.
  - apply (IH (seen ++ [t :: rest])); auto.
    intros Hin. apply in_app_iff in Hin as [Hin | [Hin | []]]; auto.
    discriminate.
Qed.

Theorem parse_as_clean budget x src f :
  x <> a -> parse_as g budget x src = Ok (Some f) -> dirty f = false.
Proof.
  unfold parse_as. intros Nx H.
  destruct (parse g budget (Sym x) (fst (lex g src))) as [xs|] eqn:P;
    [| discriminate].
  injection H as H. apply (first_complete_clean xs [] f); auto.
  apply (parse_shadowed budget (Sym x) (fst (lex g src)) xs); auto.
  simpl. apply negb_true_iff. now apply String.eqb_neq.
Qed.

Lemma flush_clean pending : dirty (flush pending) = false.
Proof. now destruct pending. Qed.

Lemma recover_clean budget n :
  forall pending ts f,
    recover g budget n pending ts = Ok f -> dirty f = false.
Proof.
  induction n as [|n IH]; intros pending ts f; destruct ts as [|t ts]; simpl;
    try discriminate.
  - intros [= <-]. apply flush_clean.
  - intros [= <-]. apply flush_clean.
  - destruct (find_rule g (start g)) as [body|] eqn:F; [| apply IH].
    destruct (parse g budget body (t :: ts)) as [xs|] eqn:P; [| discriminate].
    destruct xs as [|[f0 rest] xs]; [apply IH |].
    destruct (Nat.ltb (List.length rest) (S (List.length ts))); [| apply IH].
    destruct (recover g budget n [] rest) as [f'|] eqn:R; [| discriminate].
    intros [= <-]. rewrite !dirty_app, flush_clean, (IH _ _ _ R).
    pose proof (parse_shadowed budget body (t :: ts) _
                  (guarded_rule _ _ F) P) as [S _].
    simpl in S. destruct (dirty f0); auto. destruct (S eq_refl).
Qed.

Theorem parse_tokens_clean budget ts e t :
  start g <> a ->
  parse_tokens g budget ts e = Ok t -> has_node a t = false.
Proof.
  unfold parse_tokens. intros Ns.
  destruct (parse g budget (Sym (start g)) ts) as [xs|] eqn:P; [| discriminate].
  assert (R : forall t,
    match recover g budget (List.length ts) [] ts with
    | Ok f => Ok (Node (start g) (f ++ [end_leaf e]))
    | ResourceExceeded => ResourceExceeded
    end = Ok t -> has_node a t = false).
  { intros t0. destruct (recover g budget _ [] ts) as [f|] eqn:R; [| discriminate].
    intros [= <-]. pose proof (recover_clean _ _ _ _ _ R) as C.
    cbn [has_node]. rewrite existsb_app.
    apply orb_false_iff. split; [apply String.eqb_neq; congruence |].
    apply orb_false_iff. split; [exact C | reflexivity]. }
  destruct (first_complete xs) as [f|] eqn:FC; [| apply R].
  assert (C : dirty f = false).
  { apply (first_complete_clean xs [] f); auto.
    apply (parse_shadowed budget (Sym (start g)) ts xs); auto.
    simpl. apply negb_true_iff. now apply String.eqb_neq. }
  destruct f as [|[[fld|] [k tok | k cs | skipped]] [|c f]]; try apply R.
  intros [= <-]. unfold forest_has_node in C. cbn [existsb snd has_node] in C.
  rewrite orb_false_r in C. apply orb_false_iff in C as [C1 C2].
  cbn [has_node]. rewrite existsb_app.
  apply orb_false_iff. split; [exact C1 |].
  apply orb_false_iff. split; [exact C2 | reflexivity].
Qed.

End Shadowing.

(** [array_literal] and [constant_concatenation] derive the same texts. *)
Lemma array_literal_is_concatenation c f :
  derives systemrdl (Sym "array_literal") c f ->
  derivable systemrdl (Sym "constant_concatenation") c.
Proof.
  intros D. invd D.
  match goal with D : derives _ (Seq _) _ _ |- _ => invd D end.
  match goal with D : derives _ (Seq _) _ _ |- _ => invd D end.
  match goal with D : derives _ (Seq _) _ _ |- _ => invd D end.
  match goal with D : derives _ (Seq _) _ _ |- _ => invd D end.
  match goal with D : derives _ (Sym "array_literal_body") _ _ |- _ => invd D end.
  match goal with D : derives _ (Seq _) _ _ |- _ => invd D end.
  match goal with D : derives _ (Seq _) _ _ |- _ => invd D end.
  match goal with D : derives _ (Seq _) _ _ |- _ => invd D end.
  eapply derivable_sym; [reflexivity | reflexivity |].
  rewrite !app_nil_r, <- !app_assoc.
  apply derivable_seq_cons; [eexists; eassumption |].
  apply derivable_seq_cons; [eexists; eassumption |].
  apply derivable_seq_cons; [eexists; eassumption |].
  match goal with |- derivable _ _ ?l => rewrite <- (app_nil_r l) end.
  apply derivable_seq_cons; [eexists; eassumption | apply derivable_seq_nil].
Qed.

Lemma concatenation_is_array_literal c f :
  derives systemrdl (Sym "constant_concatenation") c f ->
  derivable systemrdl (Sym "array_literal") c.
Proof.
  intros D. invd D.
  match goal with D : derives _ (Seq _) _ _ |- _ => invd D end.
  match goal with D : derives _ (Seq _) _ _ |- _ => invd D end.
  match goal with D : derives _ (Seq _) _ _ |- _ => invd D end.
  match goal with D : derives _ (Seq _) _ _ |- _ => invd D end.
  match goal with D : derives _ (Seq _) _ _ |- _ => invd D end.
  eapply derivable_sym; [reflexivity | reflexivity |].
  rewrite !app_nil_r.
  apply derivable_seq_cons; [eexists; eassumption |].
  rewrite app_assoc.
  apply derivable_seq_cons.
  - eapply derivable_sym; [reflexivity | reflexivity |].
    apply derivable_seq_cons; [eexists; eassumption |].
    match goal with |- derivable _ _ ?l => rewrite <- (app_nil_r l) end.
    apply derivable_seq_cons; [eexists; eassumption | apply derivable_seq_nil].
  - match goal with |- derivable _ _ ?l => rewrite <- (app_nil_r l) end.
    apply derivable_seq_cons; [eexists; eassumption | apply derivable_seq_nil].
Qed.

Lemma systemrdl_guarded :
  guarded_grammar "array_literal" "constant_concatenation" systemrdl = true.
Proof. vm_compute. reflexivity. Qed.


(* ================================================================== *)
(** * Error nodes mark what the grammar does not derive *)
(* ================================================================== *)

Section ErrorNodes.

Variable g : grammar.

Lemma forest_has_error_app f1 f2 :
  forest_has_error (f1 ++ f2) = forest_has_error f1 || forest_has_error f2.
Proof. apply existsb_app. Qed.

Lemma forest_has_error_tag fld f :
  forest_has_error (map (tag fld) f) = forest_has_error f.
Proof.
  unfold forest_has_error. induction f as [|[o t] f IH]; simpl; auto.
  rewrite IH. unfold tag. simpl. now destruct o.
Qed.

(** A derivation builds no error node. *)
Lemma derives_no_error r ts f :
  derives g r ts f -> forest_has_error f = false.
Proof.
  induction 1; simpl; auto;
    try (rewrite forest_has_error_app; now rewrite IHderives1, IHderives2).
  - unfold forest_has_error in *. simpl. now rewrite IHderives.
  - now rewrite forest_has_error_tag.
Qed.

(** Repetitions concatenate. *)
Lemma repeat_app item c2 f2 :
  derives g (Repeat item) c2 f2 ->
  forall r c1 f1,
    derives g r c1 f1 ->
    (r = Repeat item -> derives g (Repeat item) (c1 ++ c2) (f1 ++ f2))
    /\ (r = Repeat1 item -> derives g (Repeat1 item) (c1 ++ c2) (f1 ++ f2)).
Proof.
  intros D2. induction 1; split; intros E; try discriminate E;
    try (subst r; simpl in *; discriminate).
  - exact D2.
  - injection E as ->. apply D_repeat_some. now apply IHderives.
  - injection E as ->. rewrite <- !app_assoc.
    apply D_repeat1; auto. now apply IHderives2.
Qed.

Lemma recover_sound budget body :
  find_rule g (start g) = Some body ->
  forall n pending ts f,
    recover g budget n pending ts = Ok f ->
    recovered g body f (pending ++ ts).
Proof.
  intros F. induction n as [|n IH]; intros pending ts f;
    destruct ts as [|t ts]; simpl; try discriminate.
  - intros [= <-]. rewrite <- (app_nil_r (flush pending)).
    apply recovered_flush. constructor.
  - intros [= <-]. rewrite <- (app_nil_r (flush pending)).
    apply recovered_flush. constructor.
  - rewrite F.
    assert (Skip : recover g budget n (pending ++ [t]) ts = Ok f ->
                   recovered g body f (pending ++ t :: ts)).
    { intros R. apply IH in R. now rewrite <- app_assoc in R. }
    destruct (parse g budget body (t :: ts)) as [xs|] eqn:P; [| discriminate].
    destruct xs as [|[f0 rest] xs]; auto.
    destruct (Nat.ltb (List.length rest) (S (List.length ts))); auto.
    destruct (recover g budget n [] rest) as [f'|] eqn:R; [| discriminate].
    intros [= <-].
    assert (Hx : In (f0, rest) ((f0, rest) :: xs)) by now left.
    apply (parse_spec g budget _ _ P) in Hx as (c & E & D).
    rewrite E. apply recovered_flush. constructor; auto.
    now apply (IH [] rest).
Qed.

Lemma recovered_no_error item f ts :
  recovered g (Repeat item) f ts ->
  forest_has_error f = false -> derives g (Repeat item) ts f.
Proof.
  induction 1; intros E.
  - apply D_repeat_none.
  - discriminate E.
  - rewrite forest_has_error_app in E. apply orb_false_iff in E as [E1 E2].
    apply (repeat_app item ts f2 (IHrecovered E2) (Repeat item) c f1 H).
    reflexivity.
Qed.

Lemma first_complete_none xs :
  first_complete xs = None -> forall f, ~ In (f, []) xs.
Proof.
  induction xs as [|[f0 [|t rest]] xs IH]; simpl; try discriminate.
  - intros _ f [].
  - intros H f [[=] | Hf]. now apply (IH H f).
Qed.

Variable item : rule.
Hypothesis start_rule : find_rule g (start g) = Some (Repeat item).
Hypothesis start_visible : hidden (start g) = false.

(** The tree of an input holds an error node exactly when the grammar
    does not derive the input. *)
Theorem error_iff_not_derivable budget ts e t :
  parse_tokens g budget ts e = Ok t ->
  (has_error t = false <-> derivable g (Sym (start g)) ts).
Proof.
  unfold parse_tokens.
  destruct (parse g budget (Sym (start g)) ts) as [xs|] eqn:P; [| discriminate].
  destruct (first_complete xs) as [f0|] eqn:FC.
  - apply first_complete_in in FC.
    apply (parse_spec g budget _ _ P) in FC as (c & E & D).
    rewrite app_nil_r in E. subst c.
    pose proof (derives_no_error _ _ _ D) as NE.
    inversion D as [ | ? b ? Fb Tb | ? b ? f Fb Tb Hb Db | ? b ? f Fb Tb Hb Db
                   | | | | | | | | | | | ]; subst;
      try discriminate;
      try (rewrite start_rule in Fb; injection Fb as <-; discriminate);
      try congruence.
    intros [= <-]. split.
    + intros _. eexists. exact D.
    + intros _. simpl. rewrite existsb_app. simpl.
      unfold forest_has_error in NE. simpl in NE.
      rewrite orb_false_r in NE. now rewrite NE.
  - assert (ND : ~ derivable g (Sym (start g)) ts).
    { intros (f & D).
      apply (first_complete_none xs FC f).
      apply (parse_spec g budget _ _ P). exists ts.
      now rewrite app_nil_r. }
    destruct (recover g budget (List.length ts) [] ts) as [f|] eqn:R;
      [| discriminate].
    intros [= <-]. split; [| intros D; contradiction].
    intros E. exfalso. apply ND.
    simpl in E. rewrite existsb_app in E.
    apply orb_false_iff in E as [E _].
    apply (recover_sound budget (Repeat item) start_rule) in R.
    simpl in R. apply recovered_no_error in R; auto.
    eexists. eapply D_node; eauto.
Qed.

End ErrorNodes.

(** C4.  Every input has a tree.  For every source text there is a budget
    from which on the engine returns one and the same tree; the root is a
    [source_file], its leaves are the text of the input from the first
    byte to the last, each of its children is an error node or a node
    the grammar derives from the tokens it covers, and the tree holds an
    error node exactly when the grammar does not derive the input.  For
    [reg r1 {] the tree is one error node over the three tokens. *)
Theorem C4_every_input_has_a_tree :
  (forall src,
     exists budget t,
       (forall k, parse_source systemrdl (budget + k) src = Ok t)
       /\ yield t = src
       /\ kind_of t = "source_file"
       /\ (has_error t = false
           <-> derivable systemrdl (Sym "source_file") (tokens systemrdl src))
       /\ exists f e,
            t = Node "source_file" (f ++ [end_leaf e])
            /\ recovered systemrdl (Repeat (Sym "_description")) f
                 (tokens systemrdl src))
  /\ (forall k,
        parse_source systemrdl (40 + k) "reg r1 {" = Ok unterminated_reg_tree)
  /\ has_error unterminated_reg_tree = true
  /\ map (fun c => is_error (snd c))
         [plain (ErrorSpan [tok "reg"; mk_token " " "r1"; mk_token " " "{"]);
          plain (Leaf "end" (tok ""))]
     = [true; false]
  /\ yield unterminated_reg_tree = "reg r1 {"
  /\ ~ derivable systemrdl (Sym "source_file") (toks ["reg"; "r1"; "{"]).
Proof.
  split.
  { intros src. unfold parse_source, tokens.
    destruct (lex systemrdl src) as [ts e] eqn:L. simpl fst.
    destruct (@parse_tokens_total systemrdl
                SystemRDL_Tables.nulls SystemRDL_Tables.rank
                systemrdl_well_founded (Repeat (Sym "_description"))
                eq_refl eq_refl eq_refl ts e) as (budget & f & R & P).
    exists budget, (Node "source_file" (f ++ [end_leaf e])).
    split; [exact P |]. split.
    { rewrite yield_leaves, leaves_Node, leaves_forest_app.
      rewrite (@recovered_leaves systemrdl _ f ts R).
      unfold leaves_forest. simpl. now apply (@lex_covers systemrdl src ts e). }
    split; [reflexivity |]. split.
    { apply (error_iff_not_derivable systemrdl (Sym "_description")
               eq_refl eq_refl (budget + 0) ts e).
      apply P. }
    exists f, e. split; [reflexivity | exact R]. }
  split; [intros k; apply parse_source_stable; vm_compute; reflexivity |].
  split; [reflexivity |]. split; [reflexivity |]. split; [reflexivity |].
  apply (derives_all_false systemrdl 40). vm_compute. reflexivity.
Qed.

(* ================================================================== *)
(** * Identifiers and comments *)
(* ================================================================== *)

Module WordsFacts.
Import Regex RegexFacts Chars Words NumberLiteral NumberLiteralFacts.

Lemma prefix_app p s : String.prefix p (p +++ s) = true.
Proof.
  induction p as [|c p IH]; simpl; [apply prefix_nil |].
  destruct (ascii_dec c c); [exact IH | congruence].
Qed.

Lemma drop_app p s : Str.drop (String.length p) (p +++ s) = s.
Proof. induction p; simpl; auto. Qed.

Lemma prefix_split p s :
  String.prefix p s = true -> s = p +++ Str.drop (String.length p) s.
Proof.
  revert s; induction p as [|c p IH]; intros s; simpl; [reflexivity |].
  destruct s as [|d s]; [discriminate |].
  rewrite prefix_cons. intros H. apply andb_true_iff in H as [E H].
  apply Ascii.eqb_eq in E as ->. simpl. f_equal. auto.
Qed.

(** A pattern that starts with a literal. *)
Lemma matches_Lit p r s :
  matches (Cat (Lit p) r) s
  = String.prefix p s && matches r (Str.drop (String.length p) s).
Proof.
  apply eq_true_iff_eq. rewrite andb_true_iff, !matches_iff. split.
  - intros H. apply lang_cat_inv in H as (s1 & s2 & -> & H1 & H2).
    apply lang_Lit in H1 as ->. now rewrite prefix_app, drop_app.
  - intros [P H]. rewrite (prefix_split _ _ P). apply L_cat; [| exact H].
    now apply lang_Lit.
Qed.

Lemma matches_Star_Class neg rs s :
  matches (Star (Class neg rs)) s = all_chars (in_class neg rs) s.
Proof.
  induction s as [|c s IH]; [reflexivity |].
  cbn [matches deriv all_chars].
  destruct (in_class neg rs c); cbn [andb cat]; [exact IH | apply matches_Void].
Qed.

Lemma matches_Cat_Eps r s : matches (Cat r Eps) s = matches r s.
Proof.
  apply eq_true_iff_eq. rewrite !matches_iff. split.
  - intros H. apply lang_cat_inv in H as (s1 & s2 & -> & H1 & H2).
    apply lang_eps_inv in H2 as ->. now rewrite StrFacts.app_nil_r.
  - intros H. rewrite <- (StrFacts.app_nil_r s). apply L_cat; [exact H | constructor].
Qed.

Lemma all_chars_ext (p q : ascii -> bool) s :
  (forall c, p c = q c) -> all_chars p s = all_chars q s.
Proof. intros E. induction s as [|c s IH]; simpl; congruence. Qed.

Theorem identifier_forms s : matches Patterns.identifier s = identifier_form s.
Proof.
  unfold Patterns.identifier, identifier_form.
  rewrite matches_Cat_Class. destruct s as [|c s]; [reflexivity |].
  rewrite matches_Star_Class. f_equal.
  - unfold in_class. rewrite xorb_false_l. cbn [existsb].
    rewrite in_range_single, orb_false_r, orb_assoc. reflexivity.
  - apply all_chars_ext. intros d.
    unfold in_class. rewrite xorb_false_l. cbn [existsb].
    rewrite in_range_single, orb_false_r, !orb_assoc. reflexivity.
Qed.

Lemma deriv_alike c d r : alike c d r = true -> deriv c r = deriv d r.
Proof.
  induction r as [| | neg rs | a IHa b IHb | a IHa b IHb | a IHa];
    simpl; intros H; auto.
  - apply eqb_prop in H. now rewrite H.
  - apply andb_true_iff in H as [Ha Hb]. now rewrite IHa, IHb.
  - apply andb_true_iff in H as [Ha Hb]. now rewrite IHa, IHb.
  - now rewrite IHa.
Qed.

Lemma class_one neg a c : in_class neg [(a, a)] c = xorb neg (Ascii.eqb c a).
Proof.
  unfold in_class. simpl. now rewrite in_range_single, orb_false_r.
Qed.

Lemma class_two neg a b c :
  in_class neg [(a, a); (b, b)] c = xorb neg (Ascii.eqb c a || Ascii.eqb c b).
Proof.
  unfold in_class. simpl. now rewrite !in_range_single, orb_false_r.
Qed.

Lemma line_rest_form s :
  matches (Cat Patterns.line_rest Eps) s
  = all_chars (fun c => negb (Ascii.eqb c nl)) s.
Proof.
  rewrite matches_Cat_Eps. unfold Patterns.line_rest.
  rewrite matches_Star_Class. apply all_chars_ext. intros c.
  now rewrite class_one.
Qed.

(** ** The block comment, state by state *)

Section BlockComment.

(** After the opener; after a star; after a character that follows stars
    and is neither a star nor a slash. *)
Let opened : re := Cat Patterns.block_rest (Cat (Lit "/") Eps).
Let starred : re := deriv "*" opened.
Let resumed : re := deriv "a" starred.

Lemma opened_alike c :
  c <> "*"%char -> c <> "/"%char ->
  alike c "a" opened = true /\ alike c "a" starred = true
  /\ alike c "a" resumed = true.
Proof.
  intros N1 N2.
  apply Ascii.eqb_neq in N1, N2.
  repeat split.
  - let b := eval vm_compute in opened in change opened with b.
    cbn [alike].
    rewrite !class_one, !class_two, N1, N2. reflexivity.
  - let b := eval vm_compute in starred in change starred with b.
    cbn [alike]. rewrite !class_one, !class_two, N1, N2. reflexivity.
  - let b := eval vm_compute in resumed in change resumed with b.
    cbn [alike]. rewrite !class_one, !class_two, N1, N2. reflexivity.
Qed.

Lemma closes_star s :
  closes (String "*" s)
  = match s with
    | String c s' => if Ascii.eqb c "/" then is_empty s' else closes s
    | "" => false
    end.
Proof.
  cbn [closes]. rewrite prefix_cons. cbn [Ascii.eqb Bool.eqb andb].
  destruct s as [|c s']; [reflexivity |].
  rewrite prefix_cons, prefix_nil, andb_true_r. reflexivity.
Qed.

Lemma closes_other c s : c <> "*"%char -> closes (String c s) = closes s.
Proof.
  intros N. apply Ascii.eqb_neq in N.
  cbn [closes]. rewrite prefix_cons, N. reflexivity.
Qed.

Lemma block_states s :
  matches opened s = closes s
  /\ matches resumed s = closes s
  /\ matches starred s = closes (String "*" s).
Proof.
  induction s as [|c s (IH1 & IH2 & IH3)]; [repeat split; reflexivity |].
  rewrite closes_star. cbn [matches].
  destruct (Ascii.eqb_spec c "*") as [-> | N1].
  { change (deriv "*" opened) with starred.
    change (deriv "*" resumed) with starred.
    change (deriv "*" starred) with starred.
    cbn [Ascii.eqb Bool.eqb]. auto. }
  rewrite (closes_other _ _ N1).
  destruct (Ascii.eqb_spec c "/") as [-> | N2].
  { change (deriv "/" opened) with opened.
    change (deriv "/" resumed) with resumed.
    change (deriv "/" starred) with Eps.
    rewrite matches_Eps. repeat split; auto. }
  destruct (opened_alike c N1 N2) as (A1 & A2 & A3).
  rewrite (deriv_alike _ _ _ A1), (deriv_alike _ _ _ A2), (deriv_alike _ _ _ A3).
  change (deriv "a" opened) with opened.
  change (deriv "a" resumed) with resumed.
  change (deriv "a" starred) with resumed.
  auto.
Qed.

Lemma block_rest_form s :
  matches (Cat Patterns.block_rest (Cat (Lit "/") Eps)) s = closes s.
Proof. apply block_states. Qed.

End BlockComment.

(** ** The string literal, state by state *)

Lemma class_three neg a b c x :
  in_class neg [(a, a); (b, b); (c, c)] x
  = xorb neg (Ascii.eqb x a || (Ascii.eqb x b || Ascii.eqb x c)).
Proof.
  unfold in_class. simpl. now rewrite !in_range_single, orb_false_r.
Qed.

Section StringBody.

(** After the opening quote, and after a backslash. *)
Let inside : re := Cat (Star StringLiteral.item) (Cat (Lit (one dquote)) Eps).
Let escaped : re := deriv bslash inside.

Lemma inside_alike c :
  c <> dquote -> c <> bslash -> c <> nl ->
  alike c "a" inside = true /\ alike c "a" escaped = true.
Proof.
  intros N1 N2 N3.
  apply Ascii.eqb_neq in N1, N2, N3.
  unfold dquote, bslash, nl in N1, N2, N3.
  split.
  - let b := eval vm_compute in inside in change inside with b.
    cbn [alike].
    rewrite !class_one, !class_three.
    rewrite N1, N2, N3. reflexivity.
  - let b := eval vm_compute in escaped in change escaped with b.
    cbn [alike].
    rewrite !class_one, !class_three.
    rewrite N1, N2, N3. reflexivity.
Qed.

Lemma string_states s :
  matches inside s = string_body s
  /\ matches escaped s
     = match s with
       | String d s' => negb (Ascii.eqb d nl) && string_body s'
       | "" => false
       end.
Proof.
  induction s as [|c s [IH1 IH2]]; [split; reflexivity |].
  cbn [matches string_body].
  destruct (Ascii.eqb_spec c dquote) as [-> | N1].
  { change (deriv dquote inside) with Eps.
    change (deriv dquote escaped) with inside.
    rewrite matches_Eps. split; [now destruct s | exact IH1]. }
  destruct (Ascii.eqb_spec c bslash) as [-> | N2].
  { change (deriv bslash inside) with escaped.
    change (deriv bslash escaped) with inside.
    split; [exact IH2 | exact IH1]. }
  destruct (Ascii.eqb_spec c nl) as [-> | N3].
  { change (deriv nl inside) with Void.
    change (deriv nl escaped) with Void.
    rewrite matches_Void. split; reflexivity. }
  destruct (inside_alike c N1 N2 N3) as (A1 & A2).
  rewrite (deriv_alike _ _ _ A1), (deriv_alike _ _ _ A2).
  change (deriv "a" inside) with inside.
  change (deriv "a" escaped) with inside.
  split; exact IH1.
Qed.

End StringBody.

Theorem string_forms s : StringLiteral.is_string_literal s = string_form s.
Proof.
  unfold StringLiteral.is_string_literal.
  rewrite (accepts_plain StringLiteral.rule_body _ eq_refl).
  unfold matches_text. rewrite StringLiteralFacts.rule_regex. cbn [text tok].
  rewrite matches_Lit. unfold string_form.
  destruct s as [|c s]; [reflexivity |].
  unfold one. rewrite prefix_cons, prefix_nil, andb_true_r.
  cbn [String.length Str.drop].
  destruct (Ascii.eqb_spec c dquote) as [-> | N]; [| reflexivity].
  rewrite (no_word_first dquote s eq_refl), andb_true_r.
  cbn [andb]. apply string_states.
Qed.

Lemma comment_matches s :
  matches_text (rule_of "comment") s = comment_form s.
Proof.
  unfold matches_text.
  change (lexical (rule_of "comment"))
    with (Some (Alt (Cat (Lit "//") (Cat Patterns.line_rest Eps))
               (Alt (Cat (Lit "/*")
                         (Cat Patterns.block_rest (Cat (Lit "/") Eps)))
                    Void))).
  cbv beta iota.
  rewrite !matches_Alt, !matches_Lit, matches_Void, orb_false_r.
  rewrite line_rest_form, block_rest_form.
  reflexivity.
Qed.

(** No comment is a word, so the precedence of [identifier] takes none. *)
Lemma comment_forms s :
  accepts SystemRDL.systemrdl (rule_of "comment") (tok s) = comment_form s.
Proof.
  rewrite (accepts_plain (rule_of "comment") _ eq_refl).
  cbn [text tok]. rewrite comment_matches.
  destruct s as [|c s]; [reflexivity |].
  destruct (Ascii.eqb_spec c "/") as [-> | N].
  - rewrite (no_word_first "/" s eq_refl). apply andb_true_r.
  - unfold comment_form, line_comment, block_comment.
    rewrite !prefix_cons. apply Ascii.eqb_neq in N. rewrite N. reflexivity.
Qed.

(** A block comment ends at the first star-slash: nothing follows it. *)
Lemma closes_first a b : b <> "" -> closes (a +++ "*/" +++ b) = false.
Proof.
  intros N. induction a as [|c a IH].
  - simpl. now destruct b.
  - change (String c a +++ "*/" +++ b) with (String c (a +++ "*/" +++ b)).
    cbn [closes]. rewrite IH.
    destruct (String.prefix "*/" (String c (a +++ "*/" +++ b))) eqn:P; auto.
    destruct a as [|d a]; simpl.
    + rewrite prefix_cons in P. apply andb_true_iff in P as [_ P].
      simpl in P. discriminate.
    + now destruct a.
Qed.

End WordsFacts.

Lemma occurs_app c a b :
  Words.occurs c (a +++ b) = Words.occurs c a || Words.occurs c b.
Proof.
  induction a as [|d a IH]; simpl; [reflexivity |].
  now rewrite IH, orb_assoc.
Qed.

(** A text holds only characters that some class of its pattern holds. *)
Lemma lang_admits r s :
  Regex.lang r s ->
  forall c, Words.occurs c s = true -> Words.admits c r = true.
Proof.
  induction 1 as
    [ | neg rs d H | a b s1 s2 H1 IH1 H2 IH2 | a b s H IH | a b s H IH
    | a | a s1 s2 H1 IH1 H2 IH2 ]; intros c O; simpl in *.
  - discriminate.
  - rewrite orb_false_r in O. apply Ascii.eqb_eq in O as <-. exact H.
  - rewrite occurs_app in O. apply orb_true_iff in O as [O | O];
      apply orb_true_iff; auto.
  - apply orb_true_iff; auto.
  - apply orb_true_iff; auto.
  - discriminate.
  - rewrite occurs_app in O. apply orb_true_iff in O as [O | O]; auto.
Qed.

(** X1.  A token is an [identifier] exactly when its text is a letter or
    an underscore followed by letters, digits and underscores; no
    identifier is a [number]. *)
Theorem identifier_token_form :
  (forall t : token,
     derivable systemrdl (Sym "identifier") [t]
     <-> Words.identifier_form (text t) = true)
  /\ (forall t : token,
        derivable systemrdl (Sym "identifier") [t] ->
        ~ derivable systemrdl (Sym "number") [t]).
Proof.
  assert (I : forall t : token,
             derivable systemrdl (Sym "identifier") [t]
             <-> Words.identifier_form (text t) = true).
  { intros t.
    rewrite (derives_leaf_iff systemrdl "identifier"
               (b := Token (Prec 2 (Pat Patterns.identifier))) t
               eq_refl eq_refl).
    now rewrite accepts_identifier, WordsFacts.identifier_forms. }
  split; [exact I |].
  intros t Hi Hn. apply I in Hi.
  rewrite <- WordsFacts.identifier_forms in Hi.
  rewrite (derives_leaf_iff systemrdl "number"
             (b := Token (Pat Patterns.number)) t eq_refl eq_refl) in Hn.
  rewrite (accepts_plain (Token (Pat Patterns.number)) t eq_refl) in Hn.
  change (matches_text (Token (Pat Patterns.number)) (text t))
    with (Regex.matches Patterns.number (text t)) in Hn.
  rewrite NumberLiteralFacts.number_forms in Hn.
  apply andb_true_iff in Hn as [Hn _].
  rewrite (NumberLiteralFacts.number_no_word _ Hn) in Hi. discriminate Hi.
Qed.

(** X2.  A token is a [comment] exactly when its text is two slashes
    followed by anything but a line feed, or slash-star followed by a
    text whose first star-slash is its end.  So block comments do not
    nest -- nothing follows the first star-slash -- and a line comment
    does not run over a line feed. *)
Theorem comment_token_form :
  (forall s : string,
     matches_text (rule_of "comment") s = Words.comment_form s
     /\ accepts systemrdl (rule_of "comment") (tok s) = Words.comment_form s)
  /\ (forall a b : string,
        b <> "" -> Words.comment_form ("/*" +++ a +++ "*/" +++ b) = false)
  /\ (forall a : string,
        Words.comment_form ("//" +++ a) = negb (Words.occurs Chars.nl a)).
Proof.
  split.
  { intros s. split;
      [apply WordsFacts.comment_matches | apply WordsFacts.comment_forms]. }
  split.
  - intros a b N. unfold Words.comment_form, Words.line_comment,
      Words.block_comment. simpl.
    rewrite NumberLiteralFacts.prefix_nil.
    exact (WordsFacts.closes_first a b N).
  - intros a. unfold Words.comment_form, Words.line_comment,
      Words.block_comment. simpl.
    rewrite orb_false_r, NumberLiteralFacts.prefix_nil. cbn [andb].
    induction a as [|c a IH]; simpl; [reflexivity |].
    rewrite IH. now rewrite negb_orb.
Qed.

(** X3.  But for comments, no token of the grammar holds a line feed:
    whatever the text of a terminal of a rule matches -- a keyword, an
    operator, an [identifier], a [number], a [string_literal] -- is on
    one line, and so is every token a terminal accepts. *)
Theorem tokens_on_one_line (x : string) (b r : rule) (t : token) :
  find_rule systemrdl x = Some b -> x <> "comment" ->
  In r (terminals_of b) -> matches_text r (text t) = true ->
  Words.occurs Chars.nl (text t) = false.
Proof.
  intros F N R A.
  assert (C : Words.never_holds systemrdl "comment" Chars.nl = true)
    by (vm_compute; reflexivity).
  unfold Words.never_holds in C. rewrite forallb_forall in C.
  specialize (C _ (assoc_in _ _ F)). simpl in C.
  apply orb_true_iff in C as [C | C].
  { apply String.eqb_eq in C. contradiction. }
  rewrite forallb_forall in C. specialize (C _ R).
  unfold matches_text in A.
  destruct (lexical r) as [p|]; [| discriminate].
  apply RegexFacts.matches_iff in A.
  destruct (Words.occurs Chars.nl (text t)) eqn:O; [| reflexivity].
  rewrite (lang_admits _ _ A _ O) in C. discriminate.
Qed.

Lemma tokens_on_one_line_witness :
  find_rule systemrdl "string_literal" = Some StringLiteral.rule_body
  /\ "string_literal" <> "comment"
  /\ In StringLiteral.rule_body (terminals_of StringLiteral.rule_body)
  /\ matches_text StringLiteral.rule_body
       (text (tok (StringLiteral.quoted "a b"))) = true
  /\ Words.occurs Chars.nl (text (tok (StringLiteral.quoted "a b"))) = false.
Proof.
  assert (N : "string_literal" <> "comment") by discriminate.
  split; [reflexivity |]. split; [exact N |].
  split; [left; reflexivity |]. split; [reflexivity |].
  exact (tokens_on_one_line "string_literal" StringLiteral.rule_body
           StringLiteral.rule_body (tok (StringLiteral.quoted "a b"))
           eq_refl N (or_introl eq_refl) eq_refl).
Defined.

(* ================================================================== *)
(** * Shapes of derivations *)
(* ================================================================== *)

Lemma first_tree_derives g n r ts :
  derives_all g n r ts = Some true -> derives g r ts (first_tree g n r ts).
Proof.
  unfold derives_all, first_tree.
  destruct (all_trees g n r ts) as [l|] eqn:A; [| discriminate].
  destruct l as [|f l]; [discriminate |]. intros _.
  apply (all_trees_spec g n r ts _ A). now left.
Qed.

Ltac choose :=
  repeat match goal with
         | H : _ \/ _ |- _ => destruct H as [<- | H]
         | H : False |- _ => contradiction H
         end.

Section Shapes.

Variable g : grammar.

Lemma derives_str s ts f :
  derives g (Str s) ts f ->
  exists t, ts = [t] /\ text t = s /\ f = [plain (Leaf s t)].
Proof.
  intros D. inversion D as [r t T A | | | | | | | | | | | | | |]; subst.
  exists t. repeat split. exact (literal_text _ _ _ A).
Qed.

Lemma derives_seq_nil ts f : derives g (Seq []) ts f -> ts = [] /\ f = [].
Proof. intros D. inversion D; subst; [discriminate | auto]. Qed.

Lemma derives_seq_cons r rs ts f :
  derives g (Seq (r :: rs)) ts f ->
  exists ts1 ts2 f1 f2,
    ts = ts1 ++ ts2 /\ f = f1 ++ f2
    /\ derives g r ts1 f1 /\ derives g (Seq rs) ts2 f2.
Proof.
  intros D. inversion D; subst; [discriminate |].
  eexists _, _, _, _. eauto.
Qed.

(** A visible rule builds one node, of its own kind. *)
Lemma sym_kind x ts f :
  derives g (Sym x) ts f -> hidden x = false ->
  exists t, f = [plain t] /\ kind_of t = x.
Proof.
  intros D H. inversion D; subst; try discriminate; try congruence;
    eexists; split; reflexivity.
Qed.

(** A sequence that ends with a literal derives tokens that end with
    it. *)
Lemma seq_last rs s :
  last rs (Seq []) = Str s ->
  forall ts f, derives g (Seq rs) ts f ->
  exists pre t, ts = pre ++ [t] /\ text t = s.
Proof.
  induction rs as [|r rs IH]; intros L ts f D; [discriminate L |].
  apply derives_seq_cons in D as (ts1 & ts2 & f1 & f2 & -> & -> & D1 & D2).
  destruct rs as [|r' rs'].
  - simpl in L. subst r.
    apply derives_seq_nil in D2 as [-> ->].
    apply derives_str in D1 as (t & -> & E & _).
    exists [], t. auto.
  - destruct (IH L _ _ D2) as (pre & t & -> & E).
    exists (ts1 ++ pre), t. now rewrite app_assoc.
Qed.

End Shapes.

(** X4.  Every top-level construct ends with a semicolon: whichever of
    the seven alternatives of [_description] derives the tokens, the last
    one is [;]. *)
Theorem description_ends_with_semicolon (ts : list token) (f : forest) :
  derives systemrdl (Sym "_description") ts f ->
  exists pre t, ts = pre ++ [t] /\ text t = ";".
Proof.
  intros D. invd D.
  match goal with D : derives _ (Choice _) _ _ |- _ => invd D end.
  choose;
    match goal with D : derives _ (Sym _) _ _ |- _ => invd D end;
    try (eapply seq_last; [| eassumption]; reflexivity).
  match goal with D : derives _ (Choice _) _ _ |- _ => invd D end.
  choose;
    match goal with D : derives _ (Sym _) _ _ |- _ => invd D end;
    eapply seq_last; try eassumption; reflexivity.
Qed.

Lemma description_ends_with_semicolon_witness :
  derives systemrdl (Sym "_description")
    (toks ["t"; "i"; ";"])
    (first_tree systemrdl 40 (Sym "_description")
       (toks ["t"; "i"; ";"]))
  /\ exists pre t,
       toks ["t"; "i"; ";"] = pre ++ [t]
       /\ text t = ";".
Proof.
  assert (D : derives systemrdl (Sym "_description")
                (toks ["t"; "i"; ";"])
                (first_tree systemrdl 40 (Sym "_description")
                   (toks ["t"; "i"; ";"]))).
  { apply first_tree_derives. vm_compute. reflexivity. }
  split; [exact D |].
  exact (description_ends_with_semicolon _ _ D).
Defined.

(** A rule other than [source_file] consumes a token. *)
Lemma rule_consumes (x : string) (ts : list token) (f : forest) :
  x <> "source_file" -> derives systemrdl (Sym x) ts f -> ts <> [].
Proof.
  intros N D.
  apply (@derives_consumes systemrdl SystemRDL_Tables.nulls
           SystemRDL_Tables.rank systemrdl_well_founded _ _ _ D).
  simpl. destruct (find_rule systemrdl x) as [b|]; [| reflexivity].
  apply String.eqb_neq in N. unfold mem. simpl.
  rewrite N. now rewrite andb_false_r.
Qed.

(** X5.  The empty input is a source file, and [source_file] is the only
    rule that derives no token at all: every other rule consumes at
    least one token. *)
Theorem only_source_file_is_empty :
  derives systemrdl (Sym "source_file") [] [plain (Node "source_file" [])]
  /\ (forall (x : string) (ts : list token) (f : forest),
        x <> "source_file" ->
        derives systemrdl (Sym x) ts f -> ts <> []).
Proof.
  split.
  - eapply D_node; [reflexivity | reflexivity | reflexivity |].
    apply D_repeat_none.
  - exact rule_consumes.
Qed.

(* ================================================================== *)
(** * Brackets are balanced *)
(* ================================================================== *)

Section BracketFacts.

Variables opening closing : string.
Variable g : grammar.

Local Abbreviation depth := (depth opening closing).
Local Abbreviation effect := (effect opening closing).

Hypothesis balanced : balanced_grammar opening closing g = true.

Lemma same_effect_eq p o : same_effect p o = true -> o = Some p.
Proof.
  destruct o as [[a b]|]; [| discriminate]. destruct p as [n m]. simpl.
  intros H. apply andb_true_iff in H as [H1 H2].
  apply Nat.eqb_eq in H1, H2. now subst.
Qed.

Lemma no_effect_eq o p : no_effect o = Some p -> o = Some (0, 0) /\ p = (0, 0).
Proof.
  destruct o as [[[|a] [|b]]|]; simpl; try discriminate.
  intros [= <-]. auto.
Qed.

Lemma depth_app ts1 ts2 d :
  depth d (ts1 ++ ts2)
  = match depth d ts1 with
    | Some d' => depth d' ts2
    | None => None
    end.
Proof.
  revert d; induction ts1 as [|t ts1 IH]; intros d; simpl; [reflexivity |].
  destruct (String.eqb (text t) opening); [apply IH |].
  destruct (String.eqb (text t) closing); [| apply IH].
  destruct d; [reflexivity | apply IH].
Qed.

Lemma find_rule_balanced x b :
  find_rule g x = Some b -> effect b = Some (0, 0).
Proof.
  intros F. apply assoc_in in F.
  unfold balanced_grammar in balanced. rewrite forallb_forall in balanced.
  apply (same_effect_eq _ _ (balanced _ F)).
Qed.

(** The token a terminal accepts has the effect of the terminal. *)
Lemma terminal_effect r t n m :
  terminal r = true -> accepts g r t = true -> effect r = Some (n, m) ->
  forall d, depth (d + n) [t] = Some (d + m).
Proof.
  intros T A E d.
  assert (O : forall p : nat * nat,
             (if matches_text r opening || matches_text r closing
              then None else Some (0, 0)) = Some p ->
             depth (d + fst p) [t] = Some (d + snd p)).
  { intros p H. apply accepts_matches in A.
    destruct (matches_text r opening) eqn:A1; [discriminate |].
    destruct (matches_text r closing) eqn:A2; [discriminate |].
    injection H as <-. simpl. rewrite !Nat.add_0_r.
    destruct (String.eqb_spec (text t) opening) as [Eo | _];
      [rewrite Eo in A; congruence |].
    destruct (String.eqb_spec (text t) closing) as [Ec | _];
      [rewrite Ec in A; congruence |].
    reflexivity. }
  destruct r; simpl in T; try discriminate;
    try (simpl in E; rewrite ?T in E; exact (O _ E)).
  simpl in E. injection E as E.
  apply literal_text in A.
  simpl. rewrite A.
  destruct (String.eqb s opening).
  { injection E as <- <-. f_equal. lia. }
  destruct (String.eqb s closing).
  { injection E as <- <-. rewrite Nat.add_1_r, Nat.add_0_r. reflexivity. }
  injection E as <- <-. now rewrite !Nat.add_0_r.
Qed.

Lemma then_effect_depth p q ts1 ts2 :
  (forall d, depth (d + fst p) ts1 = Some (d + snd p)) ->
  (forall d, depth (d + fst q) ts2 = Some (d + snd q)) ->
  forall d,
    depth (d + fst (then_effect p q)) (ts1 ++ ts2)
    = Some (d + snd (then_effect p q)).
Proof.
  intros H1 H2 d. rewrite depth_app. unfold then_effect.
  destruct p as [n1 m1], q as [n2 m2]. simpl in *.
  destruct (Nat.leb_spec n2 m1) as [L | L]; simpl.
  - rewrite H1.
    replace (d + m1) with (d + (m1 - n2) + n2) by lia.
    rewrite H2. f_equal. lia.
  - replace (d + (n1 + (n2 - m1))) with (d + (n2 - m1) + n1) by lia.
    rewrite H1.
    replace (d + (n2 - m1) + m1) with (d + n2) by lia.
    apply H2.
Qed.

Lemma derives_effect r ts f :
  derives g r ts f ->
  forall p, effect r = Some p ->
  forall d, depth (d + fst p) ts = Some (d + snd p).
Proof.
  induction 1 as
    [ r t T A | x b t F T A | x b ts f F T Hx D IH | x b ts f F T Hx D IH
    | | r rs ts1 ts2 f1 f2 D1 IH1 D2 IH2 | r rs ts f Hr D IH
    | r | r ts f D IH | r ts1 ts2 f1 f2 D1 IH1 D2 IH2
    | r | r ts f D IH | n r ts f T D IH | r ts f T D IH
    | fld r ts f D IH ]; intros p E d.
  - destruct p as [n m]. exact (terminal_effect _ _ _ _ T A E d).
  - injection E as <-.
    exact (terminal_effect _ _ _ _ T A (find_rule_balanced _ _ F) d).
  - injection E as <-. exact (IH _ (find_rule_balanced _ _ F) d).
  - injection E as <-. exact (IH _ (find_rule_balanced _ _ F) d).
  - injection E as <-. simpl. now rewrite !Nat.add_0_r.
  - assert (E' : match effect r, effect (Seq rs) with
                 | Some p1, Some p2 => Some (then_effect p1 p2)
                 | _, _ => None
                 end = Some p) by exact E.
    destruct (effect r) as [p1|]; [| discriminate].
    destruct (effect (Seq rs)) as [p2|]; [| discriminate].
    injection E' as <-.
    apply then_effect_depth; auto.
  - apply IH. destruct rs as [|x l]; [contradiction |].
    simpl in E. destruct (effect x) as [q|] eqn:Ex; [| discriminate].
    destruct (forallb (fun y => same_effect q (effect y)) l) eqn:All;
      [| discriminate].
    injection E as <-. destruct Hr as [<- | Hr]; [exact Ex |].
    rewrite forallb_forall in All. apply same_effect_eq. auto.
  - simpl in E. apply no_effect_eq in E as [_ ->]. simpl.
    now rewrite !Nat.add_0_r.
  - apply IH. exact E.
  - assert (E' : no_effect (effect r) = Some p) by exact E.
    apply no_effect_eq in E' as [Er ->].
    apply (then_effect_depth (0, 0) (0, 0)).
    + intros d'. exact (IH1 _ Er d').
    + intros d'. apply (IH2 (0, 0)). simpl. now rewrite Er.
  - simpl in E. apply no_effect_eq in E as [_ ->]. simpl.
    now rewrite !Nat.add_0_r.
  - simpl in E. apply no_effect_eq in E as [Er ->]. exact (IH _ Er d).
  - apply IH. simpl in E. now rewrite T in E.
  - apply IH. simpl in E. now rewrite T in E.
  - apply IH. exact E.
Qed.

(** In a grammar whose rules are balanced, what a rule derives has
    every bracket closed and none closed before it is opened. *)
Theorem derives_balanced x ts f :
  derives g (Sym x) ts f -> depth 0 ts = Some 0.
Proof.
  intros D. exact (derives_effect _ _ _ D (0, 0) eq_refl 0).
Qed.

End BracketFacts.

(** X6.  Braces, square brackets and parentheses are balanced in what
    any rule of the grammar derives: each one is closed, and none is
    closed before it is opened. *)
Theorem brackets_are_balanced (x : string) (ts : list token) (f : forest) :
  derives systemrdl (Sym x) ts f ->
  depth "{" "}" 0 ts = Some 0
  /\ depth "[" "]" 0 ts = Some 0
  /\ depth "(" ")" 0 ts = Some 0.
Proof.
  intros D. repeat split.
  - apply (derives_balanced "{" "}" systemrdl
             ltac:(vm_compute; reflexivity) x ts f D).
  - apply (derives_balanced "[" "]" systemrdl
             ltac:(vm_compute; reflexivity) x ts f D).
  - apply (derives_balanced "(" ")" systemrdl
             ltac:(vm_compute; reflexivity) x ts f D).
Qed.

Lemma brackets_are_balanced_witness :
  derives systemrdl (Sym "explicit_component_inst")
    (toks ["t"; "i"; "["; "("; "1"; ")"; "]"; "@"; "{"; "1"; ","; "2"; "}";
           ";"])
    (first_tree systemrdl 60 (Sym "explicit_component_inst")
       (toks ["t"; "i"; "["; "("; "1"; ")"; "]"; "@"; "{"; "1"; ","; "2"; "}";
           ";"]))
  /\ depth "{" "}" 0
       (toks ["t"; "i"; "["; "("; "1"; ")"; "]"; "@"; "{"; "1"; ","; "2"; "}";
           ";"]) = Some 0
  /\ depth "[" "]" 0
       (toks ["t"; "i"; "["; "("; "1"; ")"; "]"; "@"; "{"; "1"; ","; "2"; "}";
           ";"]) = Some 0
  /\ depth "(" ")" 0
       (toks ["t"; "i"; "["; "("; "1"; ")"; "]"; "@"; "{"; "1"; ","; "2"; "}";
           ";"]) = Some 0.
Proof.
  assert (D : derives systemrdl (Sym "explicit_component_inst")
    (toks ["t"; "i"; "["; "("; "1"; ")"; "]"; "@"; "{"; "1"; ","; "2"; "}";
           ";"])
    (first_tree systemrdl 60 (Sym "explicit_component_inst")
       (toks ["t"; "i"; "["; "("; "1"; ")"; "]"; "@"; "{"; "1"; ","; "2"; "}";
           ";"]))).
  { apply first_tree_derives. vm_compute. reflexivity. }
  split; [exact D |].
  exact (brackets_are_balanced _ _ _ D).
Defined.

(* ================================================================== *)
(** * Field tags *)
(* ================================================================== *)

Section FieldFacts.

Variable g : grammar.
Variable fld : string.

Local Abbreviation field_kinds := (field_kinds fld).

Lemma fields_app f1 f2 : fields fld (f1 ++ f2) = fields fld f1 ++ fields fld f2.
Proof. unfold fields. now rewrite filter_app, map_app. Qed.

Lemma same_fields_eq a o : same_fields a o = true -> o = Some a.
Proof.
  destruct o as [b|]; [| discriminate]. unfold same_fields, same_kinds.
  destruct (list_eq_dec string_dec a b); [now subst | discriminate].
Qed.

Lemma no_fields_eq o ks : no_fields o = Some ks -> o = Some [] /\ ks = [].
Proof.
  destruct o as [[|k l]|]; simpl; try discriminate. intros [= <-]. auto.
Qed.

(** A tag on children that carry another tag, or none, adds no child
    tagged [fld]. *)
Lemma fields_tag_other fld' f :
  String.eqb fld' fld = false ->
  fields fld (map (tag fld') f) = fields fld f.
Proof.
  intros N. unfold fields. f_equal.
  induction f as [|[[x|] t] f IH]; simpl; [reflexivity | |].
  - unfold tag at 1. simpl. destruct (String.eqb x fld); simpl; now rewrite IH.
  - unfold tag at 1. simpl. rewrite N. exact IH.
Qed.

Lemma derives_field_kinds r ts f :
  derives g r ts f ->
  forall ks, field_kinds r = Some ks -> map kind_of (fields fld f) = ks.
Proof.
  induction 1 as
    [ r t T A | x b t F T A | x b ts f F T Hx D IH | x b ts f F T Hx D IH
    | | r rs ts1 ts2 f1 f2 D1 IH1 D2 IH2 | r rs ts f Hr D IH
    | r | r ts f D IH | r ts1 ts2 f1 f2 D1 IH1 D2 IH2
    | r | r ts f D IH | n r ts f T D IH | r ts f T D IH
    | fld' r ts f D IH ]; intros ks E.
  - destruct r; simpl in T; try discriminate;
      simpl in E; rewrite ?T in E; injection E as <-; reflexivity.
  - simpl in E. destruct (hidden x); [discriminate |].
    injection E as <-. reflexivity.
  - simpl in E. rewrite Hx in E. injection E as <-. reflexivity.
  - simpl in E. rewrite Hx in E. discriminate.
  - injection E as <-. reflexivity.
  - assert (E' : match field_kinds r, field_kinds (Seq rs) with
                 | Some a, Some b => Some (a ++ b)
                 | _, _ => None
                 end = Some ks) by exact E.
    destruct (field_kinds r) as [a|]; [| discriminate].
    destruct (field_kinds (Seq rs)) as [b|]; [| discriminate].
    injection E' as <-.
    rewrite fields_app, map_app, (IH1 _ eq_refl), (IH2 _ eq_refl).
    reflexivity.
  - apply IH. destruct rs as [|x l]; [contradiction |].
    simpl in E. destruct (field_kinds x) as [a|] eqn:Ex; [| discriminate].
    destruct (forallb (fun y => same_fields a (field_kinds y)) l) eqn:All;
      [| discriminate].
    injection E as <-. destruct Hr as [<- | Hr]; [exact Ex |].
    rewrite forallb_forall in All. apply same_fields_eq. auto.
  - simpl in E. apply no_fields_eq in E as [_ ->]. reflexivity.
  - apply IH. exact E.
  - assert (E' : no_fields (field_kinds r) = Some ks) by exact E.
    apply no_fields_eq in E' as [Er ->].
    rewrite fields_app, map_app, (IH1 _ Er).
    apply (IH2 []). simpl. now rewrite Er.
  - simpl in E. apply no_fields_eq in E as [_ ->]. reflexivity.
  - simpl in E. apply no_fields_eq in E as [Er ->]. exact (IH _ Er).
  - apply IH. simpl in E. now rewrite T in E.
  - apply IH. simpl in E. now rewrite T in E.
  - simpl in E. destruct (String.eqb_spec fld' fld) as [-> | N].
    + destruct r as [ | | y | | | | | | | | | ]; try discriminate.
      destruct (hidden y) eqn:Hn; [discriminate |].
      injection E as <-.
      destruct (sym_kind g _ _ _ D Hn) as (t & -> & K).
      simpl. unfold fields, tag. simpl. rewrite String.eqb_refl. simpl.
      now rewrite K.
    + apply String.eqb_neq in N. rewrite (fields_tag_other _ _ N).
      apply IH. exact E.
Qed.

(** The children of a node that carry tag [fld] are those the body of
    its rule says. *)
Theorem node_field_kinds x b ks ts f :
  find_rule g x = Some b -> terminal b = false -> hidden x = false ->
  field_kinds b = Some ks ->
  derives g (Sym x) ts f ->
  exists cs, f = [plain (Node x cs)]
             /\ map kind_of (field_children fld (Node x cs)) = ks.
Proof.
  intros F T H E D.
  inversion D; subst; try discriminate; try congruence.
  match goal with
  | F' : find_rule g x = Some ?b', D' : derives g ?b' ts _ |- _ =>
      rewrite F in F'; injection F' as <-;
      eexists; split; [reflexivity |];
      exact (derives_field_kinds _ _ _ D' _ E)
  end.
Qed.

End FieldFacts.

(** X7.  Ten rules of the grammar tag a child, each one child: nine tag
    a [name], [component_inst] tags an [instance].  In every node these
    rules build, exactly one child carries the tag, and it is an
    [identifier]; an identifier the rule holds without a tag, such as
    the base of a struct, is no [name]. *)
Theorem tagged_child_is_one_identifier :
  tagging_rules systemrdl
  = [("property_definition", ["name"]); ("component_named_def", ["name"]);
     ("explicit_component_inst", ["name"]); ("component_inst", ["instance"]);
     ("struct_def", ["name"]); ("struct_elem", ["name"]);
     ("constraint_def_exp", ["name"]); ("param_def_elem", ["name"]);
     ("enum_def", ["name"]); ("enum_entry", ["name"])]
  /\ (forall (x fld : string) (ts : list token) (f : forest),
        In (x, [fld]) (tagging_rules systemrdl) ->
        derives systemrdl (Sym x) ts f ->
        exists cs,
          f = [plain (Node x cs)]
          /\ map kind_of (field_children fld (Node x cs)) = ["identifier"])
  /\ derivable systemrdl (Sym "explicit_component_inst") (toks ["t"; "i"; ";"])
  /\ derivable systemrdl (Sym "struct_elem") (toks ["u"; "x"; ";"])
  /\ derivable systemrdl (Sym "constraint_def_exp")
       (toks ["c"; "{"; "}"; "i1"; ","; "i2"])
  /\ derivable systemrdl (Sym "param_def_elem") (toks ["u"; "N"; "="; "1"])
  /\ derivable systemrdl (Sym "enum_entry") (toks ["A"; "="; "1"; ";"]).
Proof.
  split; [reflexivity |]. split.
  - intros x fld ts f H D.
    change (tagging_rules systemrdl)
      with [("property_definition", ["name"]); ("component_named_def", ["name"]);
            ("explicit_component_inst", ["name"]);
            ("component_inst", ["instance"]);
            ("struct_def", ["name"]); ("struct_elem", ["name"]);
            ("constraint_def_exp", ["name"]); ("param_def_elem", ["name"]);
            ("enum_def", ["name"]); ("enum_entry", ["name"])] in H.
    simpl in H.
    repeat (destruct H as [[= <- <-] | H];
            [ eapply (node_field_kinds systemrdl);
              [reflexivity | reflexivity | reflexivity | reflexivity | exact D]
            |]).
    contradiction.
  - repeat split; apply (derives_all_true systemrdl 40); vm_compute; reflexivity.
Qed.

(* ================================================================== *)
(** * Lists with separators *)
(* ================================================================== *)

Ltac open_seq :=
  repeat match goal with
         | D : derives _ (Seq (_ :: _)) _ _ |- _ =>
             apply derives_seq_cons in D as (? & ? & ? & ? & -> & -> & ? & D)
         | D : derives _ (Seq []) _ _ |- _ =>
             apply derives_seq_nil in D as [-> ->]
         | D : derives _ (Str _) _ _ |- _ =>
             apply derives_str in D as (? & -> & ? & ->)
         end.

Lemma items_pair sep e post ks :
  items sep e post ks = true -> items sep e post (sep :: e :: ks) = true.
Proof.
  intros H. cbn [items]. rewrite !String.eqb_refl, H.
  apply orb_true_r.
Qed.

Lemma items_end sep e post : items sep e post post = true.
Proof.
  destruct post as [|k post]; cbn [items]; unfold same_kinds.
  - reflexivity.
  - destruct (list_eq_dec string_dec (k :: post) (k :: post)); [| congruence].
    reflexivity.
Qed.

(** The repetition of [separator element] pairs builds such pairs only. *)
Lemma repeat_items g sep e post r ts f :
  derives g r ts f ->
  r = Repeat (Seq [Str sep; Sym e]) \/ r = Repeat1 (Seq [Str sep; Sym e]) ->
  hidden e = false ->
  forall tail, items sep e post tail = true ->
               items sep e post (forest_kinds f ++ tail) = true.
Proof.
  intros D.
  induction D; intros [E | E] He; try discriminate E;
    try (subst r; simpl in *; discriminate); intros tail Ht.
  - exact Ht.
  - injection E as ->. apply IHD; auto.
  - injection E as ->.
    unfold forest_kinds. rewrite map_app, <- app_assoc.
    fold (forest_kinds f2).
    specialize (IHD2 (or_introl eq_refl) He tail Ht).
    clear IHD1 D2.
    open_seq.
    match goal with
    | D : derives _ (Sym e) _ _ |- _ =>
        apply sym_kind in D as (? & -> & K); [| exact He]
    end.
    simpl. rewrite K. now apply items_pair.
Qed.

Ltac list_rule_shape :=
  let D := fresh "D" in
  intros ? ? D; invd D; open_seq;
  match goal with
  | D : derives _ (Sym _) _ _ |- _ =>
      apply sym_kind in D as (? & -> & ?); [| reflexivity]
  end;
  eexists; split; [reflexivity |];
  unfold forest_kinds; simpl; rewrite ?map_app; simpl;
  match goal with
  | K : kind_of _ = _ |- _ => rewrite K
  end;
  unfold list_shape; simpl;
  match goal with
  | D : derives _ (Repeat _) _ ?f |- _ =>
      fold (forest_kinds f);
      try (rewrite <- (app_nil_r (forest_kinds f)));
      apply (repeat_items _ _ _ _ _ _ _ D (or_introl eq_refl) eq_refl);
      apply items_end
  end.

(** X8.  The lists of the grammar hold at least one element and a
    separator between two elements only: no list is empty, none starts
    or ends with a separator, none holds two separators in a row. *)
Theorem separated_lists_shape :
  Forall (fun l =>
            forall (ts : list token) (f : forest),
              derives systemrdl (Sym (list_name l)) ts f ->
              exists cs,
                f = [plain (Node (list_name l) cs)]
                /\ list_shape (before l) (separator l) (element l) (after l)
                     (forest_kinds cs) = true)
         separated_lists
  /\ ~ derivable systemrdl (Sym "param_def") (toks ["#"; "("; ")"])
  /\ ~ derivable systemrdl (Sym "constant_concatenation")
         (toks ["{"; "1"; ","; "}"])
  /\ ~ derivable systemrdl (Sym "constraint_insts") (toks ["a"; ","; ","; "b"])
  /\ ~ derivable systemrdl (Sym "instance_ref") (toks ["."; "a"])
  /\ derivable systemrdl (Sym "param_inst")
       (toks ["#"; "("; "."; "W"; "("; "8"; ")"; ","; "."; "D"; "("; "2"; ")";
              ")"]).
Proof.
  split.
  - unfold separated_lists.
    repeat (apply Forall_cons; [cbn [list_name before separator element after];
                                list_rule_shape |]).
    apply Forall_nil.
  - repeat split;
      first [ apply (derives_all_false systemrdl 40); vm_compute; reflexivity
            | apply (derives_all_true systemrdl 40); vm_compute; reflexivity ].
Qed.

(* ================================================================== *)
(** * Primaries, references and dimensions *)
(* ================================================================== *)

Ltac open_sym :=
  repeat match goal with
         | D : derives _ (Sym _) _ _ |- _ =>
             apply sym_kind in D as (? & -> & ?); [| reflexivity]
         end.

(** X9.  A [constant_primary] holds one operand -- a literal, a
    concatenation, a cast, a reference, a struct or array literal, or an
    expression in parentheses -- after at most one unary operator: two
    unary operators in a row need parentheses. *)
Theorem one_unary_operator :
  (forall (ts : list token) (f : forest),
     derives systemrdl (Sym "constant_primary") ts f ->
     exists cs, f = [plain (Node "constant_primary" cs)]
                /\ primary_shape (forest_kinds cs) = true)
  /\ ~ derivable systemrdl (Sym "constant_expression") (toks ["-"; "-"; "a"])
  /\ ~ derivable systemrdl (Sym "constant_expression") (toks ["!"; "!"; "a"])
  /\ ~ derivable systemrdl (Sym "constant_expression") (toks ["~"; "-"; "1"])
  /\ derivable systemrdl (Sym "constant_expression")
       (toks ["-"; "("; "-"; "a"; ")"])
  /\ derivable systemrdl (Sym "constant_expression") (toks ["a"; "-"; "-"; "b"]).
Proof.
  split.
  - intros ts f D. invd D. open_seq.
    match goal with D : derives _ (Choice _) _ _ |- _ => invd D end.
    match goal with D : derives _ (Optional _) _ _ |- _ => invd D end;
      choose; open_seq; open_sym;
      (eexists; split; [reflexivity |]);
      unfold forest_kinds; simpl;
      repeat match goal with K : kind_of _ = _ |- _ => rewrite K; clear K end;
      reflexivity.
  - repeat split;
      first [ apply (derives_all_false systemrdl 40); vm_compute; reflexivity
            | apply (derives_all_true systemrdl 40); vm_compute; reflexivity ].
Qed.

(** X10.  An [instance_or_prop_ref] is an [instance_ref] or a
    [prop_ref], and nothing else: the rule spells out the two forms of
    [prop_ref] -- a property keyword or an identifier after the arrow --
    beside the plain instance reference. *)
Theorem instance_or_prop_ref_is_either (ts : list token) :
  derivable systemrdl (Sym "instance_or_prop_ref") ts
  <-> derivable systemrdl (Sym "instance_ref") ts
      \/ derivable systemrdl (Sym "prop_ref") ts.
Proof.
  split.
  - intros (f & D). invd D.
    match goal with D : derives _ (Choice _) _ _ |- _ => invd D end.
    choose.
    + right.
      match goal with
      | D : derives _ (Seq _) _ _ |- _ =>
          apply derives_seq_cons in D as (t1 & r1 & f1 & g1 & -> & -> & D1 & D);
          apply derives_seq_cons in D as (t2 & r2 & f2 & g2 & -> & -> & D2 & D);
          apply derives_seq_cons in D as (t3 & r3 & f3 & g3 & -> & -> & D3 & D);
          apply derives_seq_nil in D as [-> ->]
      end.
      apply (derivable_sym systemrdl "prop_ref" _ _ eq_refl eq_refl).
      apply derivable_seq_cons; [eexists; exact D1 |].
      apply derivable_seq_cons; [eexists; exact D2 |].
      apply derivable_seq_cons; [| apply derivable_seq_nil].
      apply derivable_choice with (Sym "prop_keyword");
        [simpl; auto | eexists; exact D3].
    + right.
      match goal with
      | D : derives _ (Seq _) _ _ |- _ =>
          apply derives_seq_cons in D as (t1 & r1 & f1 & g1 & -> & -> & D1 & D);
          apply derives_seq_cons in D as (t2 & r2 & f2 & g2 & -> & -> & D2 & D);
          apply derives_seq_cons in D as (t3 & r3 & f3 & g3 & -> & -> & D3 & D);
          apply derives_seq_nil in D as [-> ->]
      end.
      apply (derivable_sym systemrdl "prop_ref" _ _ eq_refl eq_refl).
      apply derivable_seq_cons; [eexists; exact D1 |].
      apply derivable_seq_cons; [eexists; exact D2 |].
      apply derivable_seq_cons; [| apply derivable_seq_nil].
      apply derivable_choice with (Sym "identifier");
        [simpl; auto | eexists; exact D3].
    + left. eexists. eassumption.
  - intros [(f & D) | (f & D)];
      apply (derivable_sym systemrdl "instance_or_prop_ref" _ _ eq_refl eq_refl).
    + apply derivable_choice with (Sym "instance_ref"); [simpl; auto |].
      eexists. exact D.
    + invd D.
      match goal with
      | D : derives _ (Seq _) _ _ |- _ =>
          apply derives_seq_cons in D as (t1 & r1 & f1 & g1 & -> & -> & D1 & D);
          apply derives_seq_cons in D as (t2 & r2 & f2 & g2 & -> & -> & D2 & D);
          apply derives_seq_cons in D as (t3 & r3 & f3 & g3 & -> & -> & D3 & D);
          apply derives_seq_nil in D as [-> ->]
      end.
      invd D3. choose.
      * apply derivable_choice
          with (Seq [Sym "instance_ref"; Str "->"; Sym "prop_keyword"]);
          [simpl; auto |].
        apply derivable_seq_cons; [eexists; exact D1 |].
        apply derivable_seq_cons; [eexists; exact D2 |].
        apply derivable_seq_cons; [eexists; eassumption |].
        apply derivable_seq_nil.
      * apply derivable_choice
          with (Seq [Sym "instance_ref"; Str "->"; Sym "identifier"]);
          [simpl; auto |].
        apply derivable_seq_cons; [eexists; exact D1 |].
        apply derivable_seq_cons; [eexists; exact D2 |].
        apply derivable_seq_cons; [eexists; eassumption |].
        apply derivable_seq_nil.
Qed.

Lemma starts_with_more l l' ts :
  (forall s, mem s l = true -> mem s l' = true) ->
  starts_with l ts = true -> starts_with l' ts = true.
Proof. intros H. destruct ts as [|t ts]; simpl; auto. Qed.

Lemma starts_with_app l ts1 ts2 :
  starts_with l ts1 = true -> starts_with l ts2 = true ->
  starts_with l (ts1 ++ ts2) = true.
Proof. destruct ts1; simpl; auto. Qed.

(** Array suffixes start with a square bracket. *)
Lemma arrays_start r ts f :
  derives systemrdl r ts f ->
  r = Repeat (Sym "array") \/ r = Repeat1 (Sym "array") ->
  starts_with ["["] ts = true.
Proof.
  intros D.
  induction D; intros [E | E]; try discriminate E;
    try (subst r; simpl in *; discriminate).
  - reflexivity.
  - injection E as ->. apply IHD. auto.
  - injection E as ->. clear IHD1 IHD2 D2.
    invd D1. open_seq. simpl.
    match goal with H : text _ = "[" |- _ => now rewrite H end.
Qed.

Lemma instance_ref_element_start ts f :
  derives systemrdl (Sym "instance_ref_element") ts f ->
  exists t rest, ts = t :: rest /\ starts_with ["["] rest = true.
Proof.
  intros D. invd D. open_seq.
  match goal with
  | D : derives _ (Sym "identifier") _ _ |- _ =>
      apply identifier_leaf in D as (t & -> & ->)
  end.
  match goal with
  | D : derives _ (Repeat _) _ _ |- _ =>
      apply arrays_start in D; [| now left]
  end.
  eexists _, _. split; [reflexivity |]. now rewrite app_nil_r.
Qed.

(** The elements after the first start with a dot. *)
Lemma elements_start r ts f :
  derives systemrdl r ts f ->
  let item := Seq [Str "."; Sym "instance_ref_element"] in
  r = Repeat item \/ r = Repeat1 item ->
  starts_with ["."] ts = true.
Proof.
  intros D item.
  induction D; intros [E | E]; try discriminate E;
    try (subst r; simpl in *; discriminate).
  - reflexivity.
  - injection E as ->. apply IHD. auto.
  - injection E as ->. clear IHD1 IHD2 D2.
    apply derives_seq_cons in D1 as (? & ? & ? & ? & -> & -> & D1 & _).
    apply derives_str in D1 as (? & -> & H & _). simpl. now rewrite H.
Qed.

Lemma instance_ref_start ts f :
  derives systemrdl (Sym "instance_ref") ts f ->
  exists t rest, ts = t :: rest /\ starts_with ["["; "."] rest = true.
Proof.
  intros D. invd D.
  match goal with
  | D : derives _ (Seq _) _ _ |- _ =>
      apply derives_seq_cons in D as (t1 & r1 & f1 & g1 & -> & -> & D1 & D);
      apply derives_seq_cons in D as (t2 & r2 & f2 & g2 & -> & -> & D2 & D);
      apply derives_seq_nil in D as [-> ->]
  end.
  apply instance_ref_element_start in D1 as (t & rest & -> & S1).
  apply elements_start in D2; [| now left].
  exists t, (rest ++ t2 ++ []). split; [reflexivity |].
  rewrite app_nil_r. apply starts_with_app.
  - revert S1. apply starts_with_more. intros s. simpl.
    destruct (String.eqb s "["); intros H; first [reflexivity | discriminate H].
  - revert D2. apply starts_with_more. intros s. simpl.
    destruct (String.eqb s "["), (String.eqb s ".");
      intros H; first [reflexivity | discriminate H].
Qed.

Lemma reference_start ts f :
  derives systemrdl (Sym "instance_or_prop_ref") ts f ->
  exists t rest, ts = t :: rest /\ starts_with ["["; "."; "->"] rest = true.
Proof.
  assert (W : forall rest, starts_with ["["; "."] rest = true ->
                           starts_with ["["; "."; "->"] rest = true).
  { intros rest. apply starts_with_more. intros s. simpl.
    destruct (String.eqb s "["), (String.eqb s ".");
      intros H; first [reflexivity | discriminate H]. }
  intros D. invd D.
  match goal with D : derives _ (Choice _) _ _ |- _ => invd D end.
  choose.
  1-2: match goal with
       | D : derives _ (Seq _) _ _ |- _ =>
           apply derives_seq_cons in D as (t1 & r1 & f1 & g1 & -> & -> & D1 & D);
           apply derives_seq_cons in D as (t2 & r2 & f2 & g2 & -> & -> & D2 & D)
       end;
       apply instance_ref_start in D1 as (t & rest & -> & S1);
       apply derives_str in D2 as (a & -> & A & _);
       exists t, (rest ++ [a] ++ r2); split; [reflexivity |];
       apply starts_with_app; [now apply W |];
       simpl; rewrite A; reflexivity.
  match goal with
  | D : derives _ (Sym "instance_ref") _ _ |- _ =>
      apply instance_ref_start in D as (t & rest & -> & S1)
  end.
  exists t, rest. auto.
Qed.

Lemma struct_literal_start ts f :
  derives systemrdl (Sym "struct_literal") ts f ->
  second_text ts = Some "{".
Proof.
  intros D. invd D.
  match goal with
  | D : derives _ (Seq _) _ _ |- _ =>
      apply derives_seq_cons in D as (t1 & r1 & f1 & g1 & -> & -> & D1 & D);
      apply derives_seq_cons in D as (t2 & r2 & f2 & g2 & -> & -> & D2 & D)
  end.
  apply identifier_leaf in D1 as (t & -> & ->).
  apply derives_str in D2 as (a & -> & A & _).
  simpl. now rewrite A.
Qed.

(** X11.  The conflict the grammar declares between [struct_literal]
    and [instance_ref_element] is no ambiguity: both start with an
    identifier, but a struct literal goes on with a brace and a
    reference with a square bracket, a dot, an arrow or nothing, so no
    tokens are both a [struct_literal] and an [instance_or_prop_ref]. *)
Theorem struct_literal_is_no_reference :
  In ["struct_literal"; "instance_ref_element"] (conflicts systemrdl)
  /\ (forall ts : list token,
        derivable systemrdl (Sym "struct_literal") ts ->
        second_text ts = Some "{")
  /\ (forall ts : list token,
        derivable systemrdl (Sym "instance_or_prop_ref") ts ->
        exists t rest,
          ts = t :: rest /\ starts_with ["["; "."; "->"] rest = true)
  /\ (forall ts : list token,
        ~ (derivable systemrdl (Sym "struct_literal") ts
           /\ derivable systemrdl (Sym "instance_or_prop_ref") ts)).
Proof.
  split; [simpl; auto |].
  split; [intros ts (f & D); exact (struct_literal_start _ _ D) |].
  split; [intros ts (f & D); exact (reference_start _ _ D) |].
  intros ts [(f1 & D1) (f2 & D2)].
  apply struct_literal_start in D1.
  apply reference_start in D2 as (t & rest & -> & S).
  destruct rest as [|t2 rest]; [discriminate |].
  simpl in D1, S. injection D1 as E. rewrite E in S. discriminate.
Qed.

(** Repeated arrays build array nodes only. *)
Lemma arrays_kinds r ts f :
  derives systemrdl r ts f ->
  r = Repeat (Sym "array") \/ r = Repeat1 (Sym "array") ->
  forallb (String.eqb "array") (forest_kinds f) = true.
Proof.
  intros D.
  induction D; intros [E | E]; try discriminate E;
    try (subst r; simpl in *; discriminate).
  - reflexivity.
  - injection E as ->. apply IHD. auto.
  - injection E as ->.
    unfold forest_kinds in *. rewrite map_app, forallb_app.
    apply andb_true_iff. split; [| exact (IHD2 (or_introl eq_refl))].
    apply sym_kind in D1 as (t & -> & K); [| reflexivity].
    simpl. now rewrite K.
Qed.

(** X12.  The dimensions of an instance are one range, or one array
    dimension or more: a range stands alone, and no array dimension goes
    with it. *)
Theorem dimensions_do_not_mix :
  (forall (ts : list token) (f : forest),
     derives systemrdl (Sym "component_inst_array_or_range") ts f ->
     exists cs, f = [plain (Node "component_inst_array_or_range" cs)]
                /\ dimensions_shape (forest_kinds cs) = true)
  /\ derivable systemrdl (Sym "component_inst_array_or_range")
       (toks ["["; "2"; "]"; "["; "3"; "]"; "["; "4"; "]"])
  /\ derivable systemrdl (Sym "component_inst_array_or_range")
       (toks ["["; "7"; ":"; "0"; "]"])
  /\ ~ derivable systemrdl (Sym "component_inst_array_or_range")
         (toks ["["; "7"; ":"; "0"; "]"; "["; "3"; "]"])
  /\ ~ derivable systemrdl (Sym "component_inst_array_or_range")
         (toks ["["; "3"; "]"; "["; "7"; ":"; "0"; "]"])
  /\ ~ derivable systemrdl (Sym "component_inst_array_or_range")
         (toks ["["; "7"; ":"; "0"; "]"; "["; "7"; ":"; "0"; "]"])
  /\ ~ derivable systemrdl (Sym "component_inst") (toks ["x"; "["; "]"]).
Proof.
  split.
  - intros ts f D. invd D.
    match goal with D : derives _ (Choice _) _ _ |- _ => invd D end.
    choose.
    + match goal with
      | D : derives _ (Seq _) _ _ |- _ =>
          apply derives_seq_cons in D as (t1 & r1 & f1 & g1 & -> & -> & D1 & D);
          apply derives_seq_cons in D as (t2 & r2 & f2 & g2 & -> & -> & D2 & D);
          apply derives_seq_nil in D as [-> ->]
      end.
      apply sym_kind in D1 as (t & -> & K); [| reflexivity].
      apply arrays_kinds in D2; [| now left].
      eexists. split; [reflexivity |].
      unfold dimensions_shape, forest_kinds in *. simpl. rewrite K.
      rewrite app_nil_r. apply orb_true_iff. right. exact D2.
    + match goal with
      | D : derives _ (Sym "range") _ _ |- _ =>
          apply sym_kind in D as (t & -> & K); [| reflexivity]
      end.
      eexists. split; [reflexivity |].
      unfold dimensions_shape, forest_kinds. simpl. now rewrite K.
  - repeat split;
      first [ apply (derives_all_false systemrdl 40); vm_compute; reflexivity
            | apply (derives_all_true systemrdl 40); vm_compute; reflexivity ].
Qed.

(* ================================================================== *)
(** * References between rules *)
(* ================================================================== *)

Lemma distinct_NoDup l : distinct l = true -> NoDup l.
Proof.
  induction l as [|x l IH]; simpl; intros H; constructor;
    apply andb_true_iff in H as [H1 H2]; auto.
  intros I. apply mem_In in I. rewrite I in H1. discriminate.
Qed.

Section Reachability.

Variable g : grammar.
Variable x : string.

Lemma add_new_in seen l y :
  In y (add_new seen l) -> In y seen \/ In y l.
Proof.
  revert seen; induction l as [|z l IH]; intros seen H; simpl in *; auto.
  apply IH in H as [H | H]; auto.
  destruct (mem z seen); auto.
  apply in_app_iff in H as [H | [<- | []]]; auto.
Qed.

Lemma reach_step_sound seen :
  (forall y, In y seen -> reaches g x y) ->
  forall y, In y (reach_step g seen) -> reaches g x y.
Proof.
  intros S y H. apply add_new_in in H as [H | H]; auto.
  unfold referred in H. apply in_flat_map in H as (z & Hz & H).
  destruct (find_rule g z) as [b|] eqn:F; [| contradiction].
  eapply reaches_step; eauto.
Qed.

Lemma iterate_sound n seen :
  (forall y, In y seen -> reaches g x y) ->
  forall y, In y (iterate (reach_step g) n seen) -> reaches g x y.
Proof.
  revert seen; induction n as [|n IH]; intros seen S y H; simpl in H; auto.
  apply (IH _ (reach_step_sound _ S) _ H).
Qed.

Lemma reachable_sound y : In y (reachable g x) -> reaches g x y.
Proof.
  apply iterate_sound. intros z [<- | []]. constructor.
Qed.

End Reachability.

(** X13.  The grammar is closed and connected: no two rules share a
    name, every name used in a rule, among the extras, in a conflict or
    as the word is the name of a rule, and every rule but [comment] --
    an extra -- is referred to, in some steps, from [source_file]. *)
Theorem grammar_closed_and_connected :
  NoDup (map fst (rules systemrdl))
  /\ (forall (x y : string) (b : rule),
        find_rule systemrdl x = Some b -> In y (symbols b) ->
        exists b', find_rule systemrdl y = Some b')
  /\ (forall y : string,
        In y (flat_map symbols (extras systemrdl)
              ++ List.concat (conflicts systemrdl) ++ [word systemrdl]) ->
        exists b', find_rule systemrdl y = Some b')
  /\ (forall (y : string) (b : rule),
        find_rule systemrdl y = Some b -> y <> "comment" ->
        reaches systemrdl "source_file" y)
  /\ In (Sym "comment") (extras systemrdl).
Proof.
  assert (C : closed systemrdl = true) by (vm_compute; reflexivity).
  unfold closed in C. rewrite forallb_forall in C.
  assert (Def : forall y, defined systemrdl y = true ->
                          exists b', find_rule systemrdl y = Some b').
  { intros y. unfold defined.
    destruct (find_rule systemrdl y) as [b'|]; [eauto | discriminate]. }
  split; [apply distinct_NoDup; vm_compute; reflexivity |].
  split.
  { intros x y b F H. apply Def, C, in_app_iff. left.
    apply in_flat_map. exists (x, b). split; [| exact H].
    exact (assoc_in _ _ F). }
  split.
  { intros y H. apply Def, C, in_app_iff. right. exact H. }
  split; [| simpl; auto].
  intros y b F N. apply reachable_sound.
  assert (E : reachable systemrdl "source_file" = from_source_file)
    by (vm_compute; reflexivity).
  rewrite E.
  assert (R : forallb (fun xr => String.eqb (fst xr) "comment"
                                 || mem (fst xr) from_source_file)
                      (rules systemrdl) = true) by (vm_compute; reflexivity).
  rewrite forallb_forall in R. specialize (R _ (assoc_in _ _ F)).
  simpl in R. apply orb_true_iff in R as [R | R].
  - apply String.eqb_eq in R. contradiction.
  - now apply mem_In.
Qed.

(** X14.  A token is a [string_literal] exactly when its text is a
    double quote, then characters other than the quote, the backslash
    and the line feed or pairs of a backslash and a character other than
    the line feed, then a double quote that ends it.  So a quote inside
    needs a backslash, and a backslash is never the last character
    before the closing quote unless it is escaped itself. *)
Theorem string_literal_form :
  (forall t : token,
     derivable systemrdl (Sym "string_literal") [t]
     <-> Words.string_form (text t) = true)
  /\ Words.string_form
       (StringLiteral.quoted ("a" +++ StringLiteral.escape Chars.dquote +++ "b"))
     = true
  /\ Words.string_form
       (StringLiteral.quoted ("a" +++ Chars.one Chars.dquote +++ "b"))
     = false
  /\ Words.string_form (StringLiteral.quoted (Chars.one Chars.bslash)) = false
  /\ Words.string_form (StringLiteral.quoted (StringLiteral.escape Chars.bslash))
     = true
  /\ Words.string_form (Chars.one Chars.dquote) = false.
Proof.
  split; [| repeat split; reflexivity].
  intros t.
  rewrite (derives_leaf_iff systemrdl "string_literal"
             (b := StringLiteral.rule_body) t eq_refl eq_refl).
  change (accepts systemrdl StringLiteral.rule_body t)
    with (StringLiteral.is_string_literal (text t)).
  now rewrite WordsFacts.string_forms.
Qed.

(** The descriptions of a source file are nodes of the seven kinds. *)
Lemma descriptions_kinds r ts f :
  derives systemrdl r ts f ->
  r = Repeat (Sym "_description") \/ r = Repeat1 (Sym "_description") ->
  forallb (fun k => mem k description_kinds) (forest_kinds f) = true.
Proof.
  intros D.
  induction D; intros [E | E]; try discriminate E;
    try (subst r; simpl in *; discriminate).
  - reflexivity.
  - injection E as ->. apply IHD. auto.
  - injection E as ->.
    unfold forest_kinds in *. rewrite map_app, forallb_app.
    apply andb_true_iff. split; [| exact (IHD2 (or_introl eq_refl))].
    clear IHD1 IHD2 D2. invd D1.
    match goal with D : derives _ (Choice _) _ _ |- _ => invd D end.
    choose; open_sym; simpl;
      match goal with K : kind_of _ = _ |- _ => rewrite K end; reflexivity.
Qed.

(** X15.  A source file is one node whose children are component, enum,
    property, struct and constraint definitions, instances and property
    assignments: the hidden rule [_description] leaves no node.  A
    component body holds the same but property definitions, which are
    top-level only. *)
Theorem property_definitions_are_top_level :
  (forall (ts : list token) (f : forest),
     derives systemrdl (Sym "source_file") ts f ->
     exists cs,
       f = [plain (Node "source_file" cs)]
       /\ forallb (fun k => mem k description_kinds) (forest_kinds cs) = true)
  /\ (forall (ts : list token) (f : forest),
        derives systemrdl (Sym "component_body_elem") ts f ->
        exists t,
          f = [plain (Node "component_body_elem" [plain t])]
          /\ mem (kind_of t) body_elem_kinds = true)
  /\ derivable systemrdl (Sym "source_file")
       (toks ["a"; "="; "1"; ";"; "t"; "i"; ";"])
  /\ ~ derivable systemrdl (Sym "component_body")
         (toks ["{"; "property"; "p"; "{"; "}"; ";"; "}"])
  /\ derivable systemrdl (Sym "component_body")
       (toks ["{"; "t"; "i"; ";"; "a"; "="; "1"; ";"; "}"]).
Proof.
  split.
  { intros ts f D. invd D.
    eexists. split; [reflexivity |].
    eapply descriptions_kinds; [eassumption | now left]. }
  split.
  { intros ts f D. invd D.
    match goal with D : derives _ (Choice _) _ _ |- _ => invd D end.
    choose; open_sym; (eexists; split; [reflexivity |]);
      match goal with K : kind_of _ = _ |- _ => rewrite K end; reflexivity. }
  repeat split;
    first [ apply (derives_all_false systemrdl 40); vm_compute; reflexivity
          | apply (derives_all_true systemrdl 40); vm_compute; reflexivity ].
Qed.

(** X16.  An anonymous constraint names its instances and an explicit
    instantiation holds an instance: braces alone are no
    [constraint_def_anon] and [t ;] is no [explicit_component_inst],
    while a named constraint needs no instance. *)
Theorem instances_needed :
  (forall (ts : list token) (f : forest),
     derives systemrdl (Sym "constraint_def_anon") ts f ->
     exists cs,
       f = [plain (Node "constraint_def_anon" cs)]
       /\ forest_kinds cs = ["constraint_body"; "constraint_insts"])
  /\ (forall (ts : list token) (f : forest),
        derives systemrdl (Sym "explicit_component_inst") ts f ->
        exists cs,
          f = [plain (Node "explicit_component_inst" cs)]
          /\ In "component_insts" (forest_kinds cs))
  /\ ~ derivable systemrdl (Sym "constraint_def_anon") (toks ["{"; "}"])
  /\ derivable systemrdl (Sym "constraint_def_anon")
       (toks ["{"; "}"; "c1"; ","; "c2"])
  /\ derivable systemrdl (Sym "constraint_def_exp") (toks ["c"; "{"; "}"])
  /\ ~ derivable systemrdl (Sym "explicit_component_inst") (toks ["t"; ";"])
  /\ derivable systemrdl (Sym "explicit_component_inst")
       (toks ["t"; "i"; ";"]).
Proof.
  split.
  { intros ts f D. invd D. open_seq. open_sym.
    eexists. split; [reflexivity |].
    unfold forest_kinds. simpl.
    repeat match goal with K : kind_of _ = _ |- _ => rewrite K; clear K end.
    reflexivity. }
  split.
  { intros ts f D. invd D. open_seq.
    match goal with
    | D : derives _ (Sym "component_insts") _ _ |- _ =>
        apply sym_kind in D as (t & -> & K); [| reflexivity]
    end.
    eexists. split; [reflexivity |].
    unfold forest_kinds. rewrite !map_app, !in_app_iff. simpl.
    rewrite K. auto 6. }
  repeat split;
    first [ apply (derives_all_false systemrdl 40); vm_compute; reflexivity
          | apply (derives_all_true systemrdl 40); vm_compute; reflexivity ].
Qed.

(* ================================================================== *)
(** * Source files and expressions compose *)
(* ================================================================== *)

(** X17.  Source files concatenate: the tokens of one source file
    followed by those of another are a source file, whose node holds
    the children of the first, then those of the second. *)
Theorem source_files_compose (ts1 ts2 : list token) (f1 f2 : forest) :
  derives systemrdl (Sym "source_file") ts1 f1 ->
  derives systemrdl (Sym "source_file") ts2 f2 ->
  exists cs1 cs2,
    f1 = [plain (Node "source_file" cs1)]
    /\ f2 = [plain (Node "source_file" cs2)]
    /\ derives systemrdl (Sym "source_file") (ts1 ++ ts2)
         [plain (Node "source_file" (cs1 ++ cs2))].
Proof.
  intros D1 D2. invd D1. invd D2.
  eexists _, _. split; [reflexivity |]. split; [reflexivity |].
  eapply D_node; [reflexivity | reflexivity | reflexivity |].
  match goal with
  | A : derives _ (Repeat _) ts1 _, B : derives _ (Repeat _) ts2 _ |- _ =>
      exact (proj1 (repeat_app systemrdl _ _ _ B _ _ _ A) eq_refl)
  end.
Qed.

Lemma source_files_compose_witness :
  derives systemrdl (Sym "source_file")
    (toks ["a"; "="; "1"; ";"])
    (first_tree systemrdl 40 (Sym "source_file")
       (toks ["a"; "="; "1"; ";"]))
  /\ derives systemrdl (Sym "source_file")
       (toks ["t"; "i"; ";"])
       (first_tree systemrdl 40 (Sym "source_file")
          (toks ["t"; "i"; ";"]))
  /\ exists cs1 cs2,
       first_tree systemrdl 40 (Sym "source_file")
         (toks ["a"; "="; "1"; ";"])
       = [plain (Node "source_file" cs1)]
       /\ first_tree systemrdl 40 (Sym "source_file")
            (toks ["t"; "i"; ";"])
          = [plain (Node "source_file" cs2)]
       /\ derives systemrdl (Sym "source_file")
            (toks ["a"; "="; "1"; ";"]
             ++ toks ["t"; "i"; ";"])
            [plain (Node "source_file" (cs1 ++ cs2))].
Proof.
  assert (D1 : derives systemrdl (Sym "source_file")
                 (toks ["a"; "="; "1"; ";"])
                 (first_tree systemrdl 40 (Sym "source_file")
                    (toks ["a"; "="; "1"; ";"]))).
  { apply first_tree_derives. vm_compute. reflexivity. }
  assert (D2 : derives systemrdl (Sym "source_file")
                 (toks ["t"; "i"; ";"])
                 (first_tree systemrdl 40 (Sym "source_file")
                    (toks ["t"; "i"; ";"]))).
  { apply first_tree_derives. vm_compute. reflexivity. }
  split; [exact D1 |]. split; [exact D2 |].
  exact (source_files_compose _ _ _ _ D1 D2).
Defined.

Section Expressions.

Let pair : rule := Seq [Sym "binary_operator"; Sym "constant_primary"].
Let suffix : rule :=
  Optional (Seq [Str "?"; Sym "constant_expression"; Str ":";
                 Sym "constant_expression"]).
Let expr : rule := Sym "constant_expression".

(** The three parts of an expression. *)
Lemma expression_parts ts :
  derivable systemrdl expr ts
  <-> exists p reps opt,
        ts = p ++ reps ++ opt
        /\ derivable systemrdl (Sym "constant_primary") p
        /\ derivable systemrdl (Repeat pair) reps
        /\ derivable systemrdl suffix opt.
Proof.
  split.
  - intros (f & D). invd D.
    match goal with D : derives _ (PrecLeft _) _ _ |- _ => invd D end.
    match goal with
    | D : derives _ (Seq _) _ _ |- _ =>
        apply derives_seq_cons in D as (t1 & r1 & f1 & g1 & -> & -> & D1 & D);
        apply derives_seq_cons in D as (t2 & r2 & f2 & g2 & -> & -> & D2 & D);
        apply derives_seq_cons in D as (t3 & r3 & f3 & g3 & -> & -> & D3 & D);
        apply derives_seq_nil in D as [-> ->]
    end.
    exists t1, t2, t3. rewrite app_nil_r.
    split; [reflexivity |]. repeat split; eexists; eassumption.
  - intros (p & reps & opt & -> & P & R & O).
    apply (derivable_sym systemrdl "constant_expression" _ _ eq_refl eq_refl).
    apply derivable_prec_left; [reflexivity |].
    apply derivable_seq_cons; [exact P |].
    apply derivable_seq_cons; [exact R |].
    rewrite <- (app_nil_r opt).
    apply derivable_seq_cons; [exact O | apply derivable_seq_nil].
Qed.

Lemma suffix_parts opt :
  derivable systemrdl suffix opt
  <-> opt = []
      \/ exists q c k d,
           opt = [q] ++ c ++ [k] ++ d
           /\ text q = "?" /\ text k = ":"
           /\ derivable systemrdl expr c /\ derivable systemrdl expr d.
Proof.
  split.
  - intros (f & D). invd D; [now left | right].
    match goal with
    | D : derives _ (Seq _) _ _ |- _ =>
        apply derives_seq_cons in D as (t1 & r1 & f1 & g1 & -> & -> & D1 & D);
        apply derives_seq_cons in D as (t2 & r2 & f2 & g2 & -> & -> & D2 & D);
        apply derives_seq_cons in D as (t3 & r3 & f3 & g3 & -> & -> & D3 & D);
        apply derives_seq_cons in D as (t4 & r4 & f4 & g4 & -> & -> & D4 & D);
        apply derives_seq_nil in D as [-> ->]
    end.
    apply derives_str in D1 as (q & -> & Q & _).
    apply derives_str in D3 as (k & -> & K & _).
    exists q, t2, k, t4. rewrite app_nil_r.
    split; [reflexivity |]. repeat split; auto; eexists; eassumption.
  - intros [-> | (q & c & k & d & -> & Q & K & C & D)].
    + apply derivable_optional_none.
    + apply (derivable_optional systemrdl true).
      apply derivable_seq_cons; [apply derivable_str; [assumption | reflexivity] |].
      apply derivable_seq_cons; [exact C |].
      apply derivable_seq_cons; [apply derivable_str; [assumption | reflexivity] |].
      rewrite <- (app_nil_r d).
      apply derivable_seq_cons; [exact D | apply derivable_seq_nil].
Qed.

Lemma pairs_app a b :
  derivable systemrdl (Repeat pair) a -> derivable systemrdl (Repeat pair) b ->
  derivable systemrdl (Repeat pair) (a ++ b).
Proof.
  intros (fa & A) (fb & B). eexists.
  exact (proj1 (repeat_app systemrdl _ _ _ B _ _ _ A) eq_refl).
Qed.

Lemma pairs_one o p :
  derivable systemrdl (Sym "binary_operator") o ->
  derivable systemrdl (Sym "constant_primary") p ->
  derivable systemrdl (Repeat pair) (o ++ p).
Proof.
  intros (fo & O) (fp & P). eexists.
  rewrite <- (app_nil_r (o ++ p)).
  apply D_repeat_some. apply D_repeat1; [| apply D_repeat_none].
  rewrite <- (app_nil_r p). constructor; [exact O |].
  constructor; [exact P | constructor].
Qed.

Lemma operator_after n :
  forall a, List.length a <= n ->
  derivable systemrdl expr a ->
  forall o b,
    derivable systemrdl (Sym "binary_operator") o ->
    derivable systemrdl expr b ->
    derivable systemrdl expr (a ++ o ++ b).
Proof.
  induction n as [|n IH]; intros a L A o b O B.
  - destruct a; [| simpl in L; lia].
    destruct A as (f & D).
    exfalso.
    apply (rule_consumes "constant_expression" [] f);
      [discriminate | exact D | reflexivity].
  - apply expression_parts in A as (p & reps & opt & -> & P & R & S).
    apply suffix_parts in S as [-> | (q & c & k & d & -> & Q & K & C & D)].
    + apply expression_parts in B as (p' & reps' & opt' & -> & P' & R' & S').
      apply expression_parts.
      exists p, (reps ++ (o ++ p') ++ reps'), opt'.
      split; [now rewrite app_nil_r, <- !app_assoc |].
      repeat split; auto.
      apply pairs_app; [exact R |]. apply pairs_app; [| exact R'].
      now apply pairs_one.
    + apply expression_parts.
      exists p, reps, ([q] ++ c ++ [k] ++ d ++ o ++ b).
      split; [now rewrite <- !app_assoc |].
      repeat split; auto.
      apply suffix_parts. right. exists q, c, k, (d ++ o ++ b).
      repeat split; auto.
      apply IH; auto.
      destruct P as (fp & DP).
      assert (Np : p <> []).
      { apply (rule_consumes "constant_primary" p fp);
          [discriminate | exact DP]. }
      rewrite !length_app in L. simpl in L.
      destruct p; [congruence | simpl in L; lia].
Qed.

Lemma question_after n :
  forall a, List.length a <= n ->
  derivable systemrdl expr a ->
  forall q c k d,
    text q = "?" -> text k = ":" ->
    derivable systemrdl expr c -> derivable systemrdl expr d ->
    derivable systemrdl expr (a ++ [q] ++ c ++ [k] ++ d).
Proof.
  induction n as [|n IH]; intros a L A q c k d Q K C D.
  - destruct a; [| simpl in L; lia].
    destruct A as (f & DA).
    exfalso.
    apply (rule_consumes "constant_expression" [] f);
      [discriminate | exact DA | reflexivity].
  - apply expression_parts in A as (p & reps & opt & -> & P & R & S).
    apply suffix_parts in S
        as [-> | (q0 & c0 & k0 & d0 & -> & Q0 & K0 & C0 & D0)].
    + apply expression_parts.
      exists p, reps, ([q] ++ c ++ [k] ++ d).
      split; [now rewrite app_nil_r, <- !app_assoc |].
      repeat split; auto.
      apply suffix_parts. right. exists q, c, k, d. repeat split; auto.
    + apply expression_parts.
      exists p, reps, ([q0] ++ c0 ++ [k0] ++ d0 ++ [q] ++ c ++ [k] ++ d).
      split; [now rewrite <- !app_assoc |].
      repeat split; auto.
      apply suffix_parts. right.
      exists q0, c0, k0, (d0 ++ [q] ++ c ++ [k] ++ d).
      repeat split; auto.
      apply IH; auto.
      destruct P as (fp & DP).
      assert (Np : p <> []).
      { apply (rule_consumes "constant_primary" p fp);
          [discriminate | exact DP]. }
      rewrite !length_app in L. simpl in L.
      destruct p; [congruence | simpl in L; lia].
Qed.

Lemma parenthesised l a r :
  text l = "(" -> text r = ")" -> derivable systemrdl expr a ->
  derivable systemrdl (Sym "constant_primary") ([l] ++ a ++ [r]).
Proof.
  intros Hl Hr A.
  apply (derivable_sym systemrdl "constant_primary" _ _ eq_refl eq_refl).
  change ([l] ++ a ++ [r]) with ([] ++ [l] ++ a ++ [r]).
  apply derivable_seq_cons; [apply derivable_optional_none |].
  rewrite <- (app_nil_r ([l] ++ a ++ [r])).
  apply derivable_seq_cons; [| apply derivable_seq_nil].
  apply derivable_choice
    with (Seq [Str "("; Sym "constant_expression"; Str ")"]);
    [simpl; auto 6 |].
  apply derivable_seq_cons; [apply derivable_str; [assumption | reflexivity] |].
  apply derivable_seq_cons; [exact A |].
  change [r] with ([r] ++ []).
  apply derivable_seq_cons; [apply derivable_str; [assumption | reflexivity] | apply derivable_seq_nil].
Qed.

Lemma primary_is_expression p :
  derivable systemrdl (Sym "constant_primary") p -> derivable systemrdl expr p.
Proof.
  intros P. apply expression_parts. exists p, [], [].
  split; [now rewrite app_nil_r |]. repeat split; auto.
  - eexists. apply D_repeat_none.
  - apply derivable_optional_none.
Qed.

End Expressions.

(** X18.  Expressions compose: an expression, a binary operator and an
    expression are an expression; so are an expression, a question
    mark, two expressions with a colon between them; and an expression
    in parentheses is a primary, hence an expression.  What is added
    after a conditional expression goes to its last branch:
    [a ? b : c + d] has one tree, whose last child covers the three
    tokens [c + d]. *)
Theorem expressions_compose :
  (forall a o b : list token,
     derivable systemrdl (Sym "constant_expression") a ->
     derivable systemrdl (Sym "binary_operator") o ->
     derivable systemrdl (Sym "constant_expression") b ->
     derivable systemrdl (Sym "constant_expression") (a ++ o ++ b))
  /\ (forall (a c d : list token) (q k : token),
        derivable systemrdl (Sym "constant_expression") a ->
        text q = "?" -> text k = ":" ->
        derivable systemrdl (Sym "constant_expression") c ->
        derivable systemrdl (Sym "constant_expression") d ->
        derivable systemrdl (Sym "constant_expression")
          (a ++ [q] ++ c ++ [k] ++ d))
  /\ (forall (a : list token) (l r : token),
        text l = "(" -> text r = ")" ->
        derivable systemrdl (Sym "constant_expression") a ->
        derivable systemrdl (Sym "constant_primary") ([l] ++ a ++ [r])
        /\ derivable systemrdl (Sym "constant_expression") ([l] ++ a ++ [r]))
  /\ option_map (map (map (fun c => child_spans (snd c))))
       (all_trees systemrdl 40 (Sym "constant_expression")
          (toks ["a"; "?"; "b"; ":"; "c"; "+"; "d"]))
     = Some [[[("constant_primary", 1); ("?", 1); ("constant_expression", 1);
               (":", 1); ("constant_expression", 3)]]].
Proof.
  split.
  { intros a o b A O B. exact (operator_after _ a (le_n _) A o b O B). }
  split.
  { intros a c d q k A Q K C D.
    exact (question_after _ a (le_n _) A q c k d Q K C D). }
  split.
  { intros a l r Hl Hr A.
    pose proof (parenthesised l a r Hl Hr A) as P.
    split; [exact P | exact (primary_is_expression _ P)]. }
  vm_compute. reflexivity.
Qed.

(* ================================================================== *)
(** * What the precedence of [identifier] costs *)
(* ================================================================== *)

(** X19.  [identifier] is [token(prec(2, ...))] and every other terminal
    has precedence 0, so a word always goes to [identifier]: no token is
    accepted as one of the 59 keyword literals of the grammar, each
    keyword is accepted as an identifier, and the 39 rules that need a
    keyword derive nothing.  Of the seven alternatives of
    [_description] only [explicit_component_inst] and
    [property_assignment] derive anything. *)
Theorem keywords_are_lost_to_identifier :
  ranked_terminals systemrdl = [Token (Prec 2 (Pat Patterns.identifier))]
  /\ List.length (keywords systemrdl) = 59
  /\ (forall (k : string) (t : token),
        In k (keywords systemrdl) ->
        accepts systemrdl (Str k) t = false
        /\ (text t = k ->
            derives systemrdl (Sym "identifier") [t]
              [plain (Leaf "identifier" t)]))
  /\ lost_rules systemrdl = SystemRDL_Tables.lost
  /\ SystemRDL_Tables.lost
     = ["property_definition"; "property_attribute"; "property_type";
        "property_usage"; "property_comp_types"; "property_comp_type";
        "property_default"; "property_constraint";
        "property_constraint_type"; "component_def"; "component_named_def";
        "component_anon_def"; "component_type"; "component_primary_type";
        "component_inst_alias"; "component_inst_type"; "struct_def";
        "constraint_def"; "enum_def"; "explicit_prop_modifier";
        "explicit_encode_assignment"; "post_encode_assignment"; "prop_mod";
        "prop_keyword"; "integer_type"; "integer_atom_type";
        "integer_vector_type"; "simple_type"; "signing"; "boolean_literal";
        "accesstype_literal"; "onreadtype_literal"; "onwritetype_literal";
        "addressingtype_literal"; "precedencetype_literal"; "accesstype";
        "addressingtype"; "onreadtype"; "onwritetype"]
  /\ (forall (x : string) (ts : list token),
        In x SystemRDL_Tables.lost -> ~ derivable systemrdl (Sym x) ts)
  /\ (forall (ts : list token) (f : forest),
        derives systemrdl (Sym "_description") ts f ->
        exists t,
          f = [plain t]
          /\ (kind_of t = "explicit_component_inst"
              \/ kind_of t = "property_assignment"))
  /\ derivable systemrdl (Sym "source_file")
       (toks ["t"; "i"; ";"; "a"; "="; "1"; ";"; "reg"; "="; "2"; ";"]).
Proof.
  split; [exact ranked_systemrdl |].
  split; [vm_compute; reflexivity |].
  split.
  { intros k t H. split; [exact (keyword_lost k t H) |].
    intros E. exact (keyword_identifier k t H E). }
  split; [vm_compute; reflexivity |].
  split; [reflexivity |].
  split.
  { intros x ts H. exact (lost_rule_derives_nothing x ts H). }
  split.
  { intros ts f D. invd D.
    match goal with D : derives _ (Choice _) _ _ |- _ => invd D end.
    choose;
      try (exfalso;
           match goal with
           | D : derives _ (Sym ?x) ?c ?h |- _ =>
               apply (lost_rule_derives_nothing x c);
               [vm_compute; tauto | exists h; exact D]
           end);
      open_sym; eexists; split; try reflexivity; auto. }
  apply (derives_all_true systemrdl 40). vm_compute. reflexivity.
Qed.
